(** * BusTub buffer pool core: extendible hash table, LRU-K replacer and
    buffer pool manager, embedded from the C++ sources.

    - [src/container/hash/extendible_hash_table.cpp] holds two versions of the
      table: the one whose [InsertInternal] is a [while] loop (lines 97-144)
      and the one whose [InsertInternal] is recursive and calls
      [RedistributeBucket] (lines 320-389).  Both are embedded, as
      [EHT.InsertInternal_loop] and [EHT.InsertInternal_rec]; [Find], [Remove]
      and the [Bucket] methods are the same text in both.  [Insert] takes the
      latch and calls [InsertInternal]: the embedding is sequential and has
      one function for the two.
    - [src/buffer/lru_k_replacer.cpp] is embedded in [LRUK].
    - [buffer_pool_manager_instance.cpp] is embedded in [BPM].

    C++ calls that can abort, run into undefined behaviour or loop are
    functions into [outcome]. *)

From Stdlib Require Import ZArith Lia.
From stdpp Require Import base option list.

(** ** Outcomes of a call *)

Inductive outcome (A : Type) : Type :=
  | Done (a : A)   (* the call returns *)
  | AssertFail     (* a BUSTUB_ASSERT fails and the process aborts *)
  | Undefined      (* the C++ has no defined behaviour (index out of range) *)
  | OutOfFuel.     (* the loop or recursion bound of the embedding ran out *)

Arguments Done {A} a.
Arguments AssertFail {A}.
Arguments Undefined {A}.
Arguments OutOfFuel {A}.

Global Instance outcome_ret : MRet outcome := λ A a, Done a.

Global Instance outcome_bind : MBind outcome := λ A B f m,
  match m with
  | Done a => f a
  | AssertFail => AssertFail
  | Undefined => Undefined
  | OutOfFuel => OutOfFuel
  end.

(** [v[i]] on a vector or array: undefined out of range. *)
Definition at_index {A} (l : list A) (i : nat) : outcome A :=
  match l !! i with
  | Some a => Done a
  | None => Undefined
  end.

(** The state a run ends in ([d] when the run does not return). *)
Definition final {A} (d : A) (o : outcome A) : A :=
  match o with
  | Done a => a
  | _ => d
  end.

(** ** Extendible hash table *)

Module EHT.

Section ExtendibleHashTable.
Context {K V : Type} `{EqDecision K}.

(** [std::hash<K>()]: the table is generic in it. *)
Variable hash : K → Z.

(** *** Bucket *)

(** [size_] is the capacity, [depth_] the local depth, [list_] the pairs in
    insertion order. *)
Record Bucket : Type := mkBucket {
  size_ : nat;
  depth_ : nat;
  list_ : list (K * V)
}.

(** Modelled from the spec: [Bucket::IsFull], [GetDepth], [IncrementDepth]
    and [GetItems] are declared in the header, which is absent.  A bucket
    "holds up to bucket_capacity pairs": it is full when it holds that many. *)
Definition IsFull (b : Bucket) : bool :=
  bool_decide (length (list_ b) = size_ b).

Definition GetDepth (b : Bucket) : nat := depth_ b.

Definition IncrementDepth (b : Bucket) : Bucket :=
  mkBucket (size_ b) (S (depth_ b)) (list_ b).

Definition GetItems (b : Bucket) : list (K * V) := list_ b.

Definition with_items (b : Bucket) (l : list (K * V)) : Bucket :=
  mkBucket (size_ b) (depth_ b) l.

(** [Bucket::Find]: the value of the first pair with the key. *)
Fixpoint find_pair (l : list (K * V)) (key : K) : option V :=
  match l with
  | [] => None
  | (k, v) :: r => if decide (k = key) then Some v else find_pair r key
  end.

Definition Bucket_Find (b : Bucket) (key : K) : option V :=
  find_pair (list_ b) key.

(** [Bucket::Remove]: erases the first pair with the key. *)
Fixpoint erase_pair (l : list (K * V)) (key : K) : option (list (K * V)) :=
  match l with
  | [] => None
  | (k, v) :: r =>
      if decide (k = key) then Some r
      else option_map (cons (k, v)) (erase_pair r key)
  end.

Definition Bucket_Remove (b : Bucket) (key : K) : bool * Bucket :=
  match erase_pair (list_ b) key with
  | Some l => (true, with_items b l)
  | None => (false, b)
  end.

(** The first loop of [Bucket::Insert]: overwrite the value of the first
    pair with the key, if there is one. *)
Fixpoint update_pair (l : list (K * V)) (key : K) (value : V)
  : option (list (K * V)) :=
  match l with
  | [] => None
  | (k, v) :: r =>
      if decide (k = key) then Some ((k, value) :: r)
      else option_map (cons (k, v)) (update_pair r key value)
  end.

(** [Bucket::Insert]: false on update and on a full bucket. *)
Definition Bucket_Insert (b : Bucket) (key : K) (value : V) : bool * Bucket :=
  match update_pair (list_ b) key value with
  | Some l => (false, with_items b l)
  | None =>
      if IsFull b then (false, b)
      else (true, with_items b (list_ b ++ [(key, value)]))
  end.

(** *** Table *)

(** [dir_] is a vector of shared pointers.  A pointer is the index of its
    bucket in [heap_]; [std::make_shared] appends to [heap_], so that two
    directory entries share a bucket exactly when they hold one pointer.
    The depths are C++ [int]s that start at 0 and are only incremented. *)
Record table : Type := mkTable {
  global_depth_ : nat;
  bucket_size_ : nat;
  num_buckets_ : Z;
  dir_ : list nat;
  heap_ : list Bucket
}.

Definition set_dir (t : table) (d : list nat) : table :=
  mkTable (global_depth_ t) (bucket_size_ t) (num_buckets_ t) d (heap_ t).

Definition set_heap (t : table) (h : list Bucket) : table :=
  mkTable (global_depth_ t) (bucket_size_ t) (num_buckets_ t) (dir_ t) h.

Definition set_global_depth (t : table) (g : nat) : table :=
  mkTable g (bucket_size_ t) (num_buckets_ t) (dir_ t) (heap_ t).

Definition set_num_buckets (t : table) (n : Z) : table :=
  mkTable (global_depth_ t) (bucket_size_ t) n (dir_ t) (heap_ t).

(** The constructor: one bucket of local depth 0, a directory of length 1. *)
Definition ExtendibleHashTable (bucket_size : nat) : table :=
  mkTable 0 bucket_size 1 [0] [mkBucket bucket_size 0 []].

(** [1 << d] on [int]; defined in C++ for [d < 31], which a directory of
    [2^d] pointers keeps true in any run. *)
Definition shl1 (d : nat) : Z := Z.shiftl 1 (Z.of_nat d).

Definition IndexOf (t : table) (key : K) : nat :=
  let mask := (shl1 (global_depth_ t) - 1)%Z in
  Z.to_nat (Z.land (hash key) mask).

(** [dir_[i]]: the pointer and the bucket it points to. *)
Definition bucket_at (t : table) (i : nat) : outcome (nat * Bucket) :=
  p ← at_index (dir_ t) i;
  b ← at_index (heap_ t) p;
  mret (p, b).

Definition GetGlobalDepth (t : table) : nat := global_depth_ t.

Definition GetLocalDepth (t : table) (dir_index : nat) : outcome nat :=
  pb ← bucket_at t dir_index; mret (GetDepth pb.2).

Definition GetNumBuckets (t : table) : Z := num_buckets_ t.

Definition Find (t : table) (key : K) : outcome (option V) :=
  pb ← bucket_at t (IndexOf t key);
  mret (Bucket_Find pb.2 key).

Definition Remove (t : table) (key : K) : outcome (bool * table) :=
  pb ← bucket_at t (IndexOf t key);
  let r := Bucket_Remove pb.2 key in
  mret (r.1, set_heap t (<[pb.1 := r.2]> (heap_ t))).

(** [for (i = 0; i < n; i++) dir_.push_back(dir_[i])], started at [i]. *)
Fixpoint push_copies (i n : nat) (d : list nat) : outcome (list nat) :=
  match n with
  | 0 => Done d
  | S n' => p ← at_index d i; push_copies (S i) n' (d ++ [p])
  end.

(** The last statement of both [InsertInternal]s:
    [dir_[index]->Insert(key, value)], its result only logged. *)
Definition insert_at (t : table) (index : nat) (key : K) (value : V)
  : outcome table :=
  pb ← bucket_at t index;
  mret (set_heap t (<[pb.1 := (Bucket_Insert pb.2 key value).2]> (heap_ t))).

(** *** [InsertInternal], lines 97-144: split while the target is full *)

(** The loop over the items of the target bucket. *)
Fixpoint distribute (mask : Z) (items : list (K * V)) (b0 b1 : Bucket)
  : Bucket * Bucket :=
  match items with
  | [] => (b0, b1)
  | (k, v) :: r =>
      if bool_decide (Z.land (hash k) mask ≠ 0%Z)
      then distribute mask r b0 (Bucket_Insert b1 k v).2
      else distribute mask r (Bucket_Insert b0 k v).2 b1
  end.

(** The loop over the directory: entries that hold the target pointer are
    redirected by the bit [mask] of their own index. *)
Definition repoint (target p0 p1 : nat) (mask : Z) (d : list nat) : list nat :=
  imap (λ i p,
    if bool_decide (p = target)
    then (if bool_decide (Z.land (Z.of_nat i) mask ≠ 0%Z) then p1 else p0)
    else p) d.

(** One iteration of the [while] loop. *)
Definition loop_body (t : table) (key : K) : outcome table :=
  let index := IndexOf t key in
  pb ← bucket_at t index;
  let target := pb.2 in
  d ← (if bool_decide (GetDepth target = global_depth_ t)
       then push_copies 0 (length (dir_ t)) (dir_ t)
       else mret (dir_ t));
  let g := if bool_decide (GetDepth target = global_depth_ t)
           then S (global_depth_ t) else global_depth_ t in
  let mask := shl1 (GetDepth target) in
  let b0 := mkBucket (bucket_size_ t) (GetDepth target + 1) [] in
  let b1 := mkBucket (bucket_size_ t) (GetDepth target + 1) [] in
  let bs := distribute mask (GetItems target) b0 b1 in
  let p0 := length (heap_ t) in
  let p1 := S (length (heap_ t)) in
  mret (mkTable g (bucket_size_ t) (num_buckets_ t + 1)
          (repoint pb.1 p0 p1 mask d) (heap_ t ++ [bs.1; bs.2])).

Fixpoint InsertInternal_loop (fuel : nat) (t : table) (key : K) (value : V)
  : outcome table :=
  pb ← bucket_at t (IndexOf t key);
  if IsFull pb.2 then
    match fuel with
    | 0 => OutOfFuel
    | S fuel' =>
        t' ← loop_body t key;
        InsertInternal_loop fuel' t' key value
    end
  else insert_at t (IndexOf t key) key value.

(** *** [InsertInternal], lines 335-389: recursive, with
    [RedistributeBucket] (lines 320-332) *)

(** [RedistributeBucket], given the [InsertInternal] it calls back. *)
Definition RedistributeBucket (ins : table → K → V → outcome table)
    (t : table) (bucket : nat) : outcome table :=
  b ← at_index (heap_ t) bucket;
  let tmp_list := GetItems b in
  let t0 := set_heap t (<[bucket := with_items b []]> (heap_ t)) in
  foldl (λ acc p, t' ← acc; ins t' p.1 p.2) (Done t0) tmp_list.

Fixpoint InsertInternal_rec (fuel : nat) (t : table) (key : K) (value : V)
  : outcome table :=
  match fuel with
  | 0 => OutOfFuel
  | S fuel' =>
      let index := IndexOf t key in
      pb ← bucket_at t index;
      match Bucket_Find pb.2 key with
      | Some _ => insert_at t index key value
      | None =>
          if IsFull pb.2 then
            t1 ← (if bool_decide (GetDepth pb.2 = global_depth_ t) then
                    d ← push_copies 0 (Z.to_nat (num_buckets_ t)) (dir_ t);
                    mret (mkTable (S (global_depth_ t)) (bucket_size_ t)
                            (Z.of_nat (length d)) d (heap_ t))
                  else mret t);
            let t2 := set_heap t1 (<[pb.1 := IncrementDepth pb.2]> (heap_ t1)) in
            let full_bucket := pb.1 in
            let new_index := IndexOf t2 key in
            _ ← at_index (dir_ t2) new_index;
            let fresh :=
              mkBucket (bucket_size_ t2) (GetDepth (IncrementDepth pb.2)) [] in
            let t3 := mkTable (global_depth_ t2) (bucket_size_ t2)
                        (num_buckets_ t2)
                        (<[new_index := length (heap_ t2)]> (dir_ t2))
                        (heap_ t2 ++ [fresh]) in
            t4 ← RedistributeBucket (InsertInternal_rec fuel') t3 full_bucket;
            InsertInternal_rec fuel' t4 key value
          else insert_at t index key value
      end
  end.

End ExtendibleHashTable.

Arguments Bucket : clear implicits.
Arguments table : clear implicits.

End EHT.

(** ** LRU-K replacer *)

Module LRUK.

Local Open Scope Z_scope.

(** [(int) x] for a [size_t] [x], and [size_t] arithmetic. *)
Definition to_int (z : Z) : Z := (z + 2 ^ 31) mod 2 ^ 32 - 2 ^ 31.

Definition to_size_t (z : Z) : Z := z mod 2 ^ 64.

Record LRUKNode : Type := mkNode {
  frame_id_ : Z;
  access_count_ : Z;
  evictable_ : bool
}.

(** Modelled from the spec: the node type and its constructors are declared
    in the header, which is absent.  A node made from a frame id alone is
    "placed ... with count 1"; its flag starts cleared, as [Size] counts only
    the nodes that [SetEvictable] has marked. *)
Definition new_node (frame_id : Z) : LRUKNode := mkNode frame_id 1 false.

(** [hash_] maps the frame id of every node of the two lists to its iterator:
    each statement that puts a node into a list sets [hash_[frame_id]], and
    each [erase] is followed by a new node for the frame or by [hash_.erase].
    The embedding keeps the two lists and reads [hash_] off them. *)
Record LRUKReplacer : Type := mkReplacer {
  replacer_size_ : Z;
  k_ : Z;
  curr_size_ : Z;
  inf_list_ : list LRUKNode;
  countable_list_ : list LRUKNode
}.

(** The constructor; [curr_size_] starts at 0. *)
Definition new_replacer (num_frames k : Z) : LRUKReplacer :=
  mkReplacer num_frames k 0 [] [].

Definition has_frame (frame_id : Z) (n : LRUKNode) : bool :=
  bool_decide (frame_id_ n = frame_id).

(** [hash_.find(frame_id)] and [hash_[frame_id]]: the node of the frame. *)
Definition find_node (r : LRUKReplacer) (frame_id : Z) : option LRUKNode :=
  match find (has_frame frame_id) (inf_list_ r) with
  | Some n => Some n
  | None => find (has_frame frame_id) (countable_list_ r)
  end.

(** [l.erase(it)] for the iterator of the frame's node: undefined when the
    node is not in [l]. *)
Fixpoint erase_node (l : list LRUKNode) (frame_id : Z) : outcome (list LRUKNode) :=
  match l with
  | [] => Undefined
  | n :: r =>
      if has_frame frame_id n then Done r
      else r' ← erase_node r frame_id; mret (n :: r')
  end.

(** [it->evictable_ = flag] through the iterator of the frame's node. *)
Fixpoint set_flag (l : list LRUKNode) (frame_id : Z) (flag : bool)
  : option (list LRUKNode) :=
  match l with
  | [] => None
  | n :: r =>
      if has_frame frame_id n
      then Some (mkNode (frame_id_ n) (access_count_ n) flag :: r)
      else option_map (cons n) (set_flag r frame_id flag)
  end.

Definition set_lists (r : LRUKReplacer) (size : Z)
    (inf cnt : list LRUKNode) : LRUKReplacer :=
  mkReplacer (replacer_size_ r) (k_ r) size inf cnt.

Definition RemoveInternal (r : LRUKReplacer) (frame_id : Z)
  : outcome LRUKReplacer :=
  match find_node r frame_id with
  | None => Done r
  | Some n =>
      if negb (evictable_ n) then AssertFail
      else if bool_decide (k_ r ≤ access_count_ n) then
        l ← erase_node (countable_list_ r) frame_id;
        mret (set_lists r (to_size_t (curr_size_ r - 1)) (inf_list_ r) l)
      else
        l ← erase_node (inf_list_ r) frame_id;
        mret (set_lists r (to_size_t (curr_size_ r - 1)) l (countable_list_ r))
  end.

Definition Remove (r : LRUKReplacer) (frame_id : Z) : outcome LRUKReplacer :=
  RemoveInternal r frame_id.

(** [Evict]: the frame written through the out pointer, if the call returns
    true.  (The pointer itself is asserted non-null; callers pass the address
    of a local.) *)
Definition Evict (r : LRUKReplacer) : outcome (LRUKReplacer * option Z) :=
  match find evictable_ (inf_list_ r) with
  | Some n =>
      r' ← RemoveInternal r (frame_id_ n); mret (r', Some (frame_id_ n))
  | None =>
      match find evictable_ (countable_list_ r) with
      | Some n =>
          r' ← RemoveInternal r (frame_id_ n); mret (r', Some (frame_id_ n))
      | None => Done (r, None)
      end
  end.

(** The precondition of [RecordAccess] and [SetEvictable]. *)
Definition frame_id_ok (r : LRUKReplacer) (frame_id : Z) : bool :=
  bool_decide (frame_id ≤ to_int (replacer_size_ r)).

Definition RecordAccess (r : LRUKReplacer) (frame_id : Z)
  : outcome LRUKReplacer :=
  if negb (frame_id_ok r frame_id) then AssertFail
  else
    match find_node r frame_id with
    | None =>
        if bool_decide (k_ r = 1)
        then Done (set_lists r (curr_size_ r) (inf_list_ r)
                     (countable_list_ r ++ [new_node frame_id]))
        else Done (set_lists r (curr_size_ r)
                     (inf_list_ r ++ [new_node frame_id]) (countable_list_ r))
    | Some n =>
        let new_access_count := access_count_ n + 1 in
        let evictable := evictable_ n in
        let moved := mkNode frame_id new_access_count evictable in
        if bool_decide (new_access_count < k_ r) then
          l ← erase_node (inf_list_ r) frame_id;
          mret (set_lists r (curr_size_ r) (l ++ [moved]) (countable_list_ r))
        else if bool_decide (new_access_count = k_ r) then
          l ← erase_node (inf_list_ r) frame_id;
          mret (set_lists r (curr_size_ r) l (countable_list_ r ++ [moved]))
        else
          l ← erase_node (countable_list_ r) frame_id;
          mret (set_lists r (curr_size_ r) (inf_list_ r) (l ++ [moved]))
    end.

(** The assignment [it->evictable_ = flag] on the node of the frame. *)
Definition write_flag (r : LRUKReplacer) (size : Z) (frame_id : Z)
    (flag : bool) : LRUKReplacer :=
  match set_flag (inf_list_ r) frame_id flag with
  | Some l => set_lists r size l (countable_list_ r)
  | None =>
      match set_flag (countable_list_ r) frame_id flag with
      | Some l => set_lists r size (inf_list_ r) l
      | None => set_lists r size (inf_list_ r) (countable_list_ r)
      end
  end.

Definition SetEvictable (r : LRUKReplacer) (frame_id : Z) (set_evictable : bool)
  : outcome LRUKReplacer :=
  if negb (frame_id_ok r frame_id) then AssertFail
  else
    match find_node r frame_id with
    | None => Done r
    | Some n =>
        if negb (evictable_ n) then
          if set_evictable
          then Done (write_flag r (to_size_t (curr_size_ r + 1)) frame_id true)
          else Done r
        else
          if negb set_evictable
          then Done (write_flag r (to_size_t (curr_size_ r - 1)) frame_id false)
          else Done r
    end.

Definition Size (r : LRUKReplacer) : Z := curr_size_ r.

End LRUK.

(** ** Buffer pool manager *)

Module BPM.

Local Open Scope Z_scope.

(** Modelled from the spec: the disk manager is an external collaborator with
    a synchronous [ReadPage(page_id, buffer)] and [WritePage(page_id, buffer)],
    both total.  It is the on-disk image of every page and the log of the
    calls made to it. *)
Inductive io : Type :=
  | IoRead (page_id : Z)
  | IoWrite (page_id : Z) (data : list Z).

Record DiskManager : Type := mkDisk {
  image : Z → list Z;
  io_log : list io
}.

Definition ReadPage (dm : DiskManager) (page_id : Z) : list Z * DiskManager :=
  (image dm page_id, mkDisk (image dm) (io_log dm ++ [IoRead page_id])).

Definition WritePage (dm : DiskManager) (page_id : Z) (data : list Z)
  : DiskManager :=
  mkDisk (λ q, if decide (q = page_id) then data else image dm q)
         (io_log dm ++ [IoWrite page_id data]).

(** Modelled from the spec: the [Page] class is absent.  A frame "owns a
    fixed-size byte buffer plus metadata: bound page_id (or INVALID),
    pin_count, is_dirty". *)
Record Page : Type := mkPage {
  data_ : list Z;
  page_id_ : Z;
  pin_count_ : Z;
  is_dirty_ : bool
}.

Record BufferPoolManagerInstance : Type := mkBPM {
  pool_size_ : nat;
  pages_ : list Page;
  page_table_ : EHT.table Z Z;
  replacer_ : LRUK.LRUKReplacer;
  free_list_ : list Z;
  next_page_id_ : Z;
  disk_manager_ : DiskManager
}.

Definition set_pages (s : BufferPoolManagerInstance) (p : list Page) :=
  mkBPM (pool_size_ s) p (page_table_ s) (replacer_ s) (free_list_ s)
        (next_page_id_ s) (disk_manager_ s).

Definition set_page_table (s : BufferPoolManagerInstance) (t : EHT.table Z Z) :=
  mkBPM (pool_size_ s) (pages_ s) t (replacer_ s) (free_list_ s)
        (next_page_id_ s) (disk_manager_ s).

Definition set_replacer (s : BufferPoolManagerInstance) (r : LRUK.LRUKReplacer) :=
  mkBPM (pool_size_ s) (pages_ s) (page_table_ s) r (free_list_ s)
        (next_page_id_ s) (disk_manager_ s).

Definition set_free_list (s : BufferPoolManagerInstance) (l : list Z) :=
  mkBPM (pool_size_ s) (pages_ s) (page_table_ s) (replacer_ s) l
        (next_page_id_ s) (disk_manager_ s).

Definition set_next_page_id (s : BufferPoolManagerInstance) (n : Z) :=
  mkBPM (pool_size_ s) (pages_ s) (page_table_ s) (replacer_ s) (free_list_ s)
        n (disk_manager_ s).

Definition set_disk_manager (s : BufferPoolManagerInstance) (d : DiskManager) :=
  mkBPM (pool_size_ s) (pages_ s) (page_table_ s) (replacer_ s) (free_list_ s)
        (next_page_id_ s) d.

(** [pages_[frame_id]]: undefined out of the array. *)
Definition frame_at (s : BufferPoolManagerInstance) (frame_id : Z)
  : outcome Page :=
  if bool_decide (0 ≤ frame_id) then at_index (pages_ s) (Z.to_nat frame_id)
  else Undefined.

Definition store_frame (s : BufferPoolManagerInstance) (frame_id : Z)
    (pg : Page) : BufferPoolManagerInstance :=
  set_pages s (<[Z.to_nat frame_id := pg]> (pages_ s)).

Section BufferPool.

(** The constants of [common/config.h], which is absent, the hash of a page
    id, and the [Insert] of the table version the manager is linked with. *)
Variable BUSTUB_PAGE_SIZE : nat.
Variable INVALID_PAGE_ID : Z.
Variable hash : Z → Z.
Variable pt_Insert : EHT.table Z Z → Z → Z → outcome (EHT.table Z Z).

(** [Page::ResetMemory]: the buffer is zeroed. *)
Definition ResetMemory (pg : Page) : Page :=
  mkPage (repeat 0 BUSTUB_PAGE_SIZE) (page_id_ pg) (pin_count_ pg)
         (is_dirty_ pg).

Definition new_page : Page :=
  mkPage (repeat 0 BUSTUB_PAGE_SIZE) INVALID_PAGE_ID 0 false.

(** The constructor.  [bucket_size_] is a constant of the header;
    [next_page_id_] starts at 0. *)
Definition new_instance (pool_size : nat) (dm : DiskManager)
    (replacer_k : Z) (bucket_size : nat) : BufferPoolManagerInstance :=
  mkBPM pool_size (repeat new_page pool_size)
        (EHT.ExtendibleHashTable bucket_size)
        (LRUK.new_replacer (Z.of_nat pool_size) replacer_k)
        (map Z.of_nat (seq 0 pool_size)) 0 dm.

(** [AllocatePage]: [next_page_id_++] on a 32-bit id. *)
Definition AllocatePage (s : BufferPoolManagerInstance)
  : Z * BufferPoolManagerInstance :=
  (next_page_id_ s, set_next_page_id s (LRUK.to_int (next_page_id_ s + 1))).

(** Modelled from the spec: [DeallocatePage] is defined in the header; it
    is a "no-op placeholder". *)
Definition DeallocatePage (s : BufferPoolManagerInstance) (page_id : Z)
  : BufferPoolManagerInstance := s.

(** The frame chosen at the top of [GetNewPage]: [None] stands for the
    early [return INVALID_PAGE_ID]; a failed [Evict] leaves [frame_id] at
    its initial -1. *)
Definition pick_frame (s : BufferPoolManagerInstance)
  : outcome (option (Z * BufferPoolManagerInstance)) :=
  match free_list_ s with
  | f :: rest => Done (Some (f, set_free_list s rest))
  | [] =>
      if bool_decide (0 < LRUK.Size (replacer_ s)) then
        rv ← LRUK.Evict (replacer_ s);
        mret (Some (default (-1) rv.2, set_replacer s rv.1))
      else Done None
  end.

Definition GetNewPage (s : BufferPoolManagerInstance) (page_id : Z)
  : outcome (Z * BufferPoolManagerInstance) :=
  picked ← pick_frame s;
  match picked with
  | None => Done (INVALID_PAGE_ID, s)
  | Some (frame_id, s1) =>
      page ← frame_at s1 frame_id;
      let (page_id, s2) :=
        if bool_decide (page_id = INVALID_PAGE_ID) then AllocatePage s1
        else (page_id, s1) in
      let s3 :=
        if is_dirty_ page
        then set_disk_manager s2
               (WritePage (disk_manager_ s2) (page_id_ page) (data_ page))
        else s2 in
      rm ← EHT.Remove hash (page_table_ s3) (page_id_ page);
      let page' := ResetMemory (mkPage (data_ page) page_id 1 false) in
      let s4 := store_frame (set_page_table s3 rm.2) frame_id page' in
      pt ← pt_Insert (page_table_ s4) page_id frame_id;
      r1 ← LRUK.SetEvictable (replacer_ s4) frame_id false;
      r2 ← LRUK.RecordAccess r1 frame_id;
      mret (page_id, set_replacer (set_page_table s4 pt) r2)
  end.

(** [NewPgImp]: the page id written through the out pointer and the frame
    whose address is returned ([None] for [nullptr]). *)
Definition NewPgImp (s : BufferPoolManagerInstance)
  : outcome (Z * option Z * BufferPoolManagerInstance) :=
  r ← GetNewPage s INVALID_PAGE_ID;
  if bool_decide (r.1 = INVALID_PAGE_ID) then Done (r.1, None, r.2)
  else
    found ← EHT.Find hash (page_table_ r.2) r.1;
    mret (r.1, Some (default (-1) found), r.2).

Definition FetchPgImp (s : BufferPoolManagerInstance) (page_id : Z)
  : outcome (option Z * BufferPoolManagerInstance) :=
  found ← EHT.Find hash (page_table_ s) page_id;
  r ← (match found with
       | None => GetNewPage s page_id
       | Some _ => Done (page_id, s)
       end);
  if bool_decide (found = None ∧ r.1 = INVALID_PAGE_ID) then Done (None, r.2)
  else
    let page_id := r.1 in
    found' ← EHT.Find hash (page_table_ r.2) page_id;
    let frame_id := default (default (-1) found) found' in
    page ← frame_at r.2 frame_id;
    let rd := ReadPage (disk_manager_ r.2) page_id in
    let page' :=
      mkPage rd.1 (page_id_ page) (pin_count_ page) (is_dirty_ page) in
    mret (Some frame_id, set_disk_manager (store_frame r.2 frame_id page') rd.2).

Definition UnpinPgImp (s : BufferPoolManagerInstance) (page_id : Z)
    (is_dirty : bool) : outcome (bool * BufferPoolManagerInstance) :=
  found ← EHT.Find hash (page_table_ s) page_id;
  match found with
  | None => Done (false, s)
  | Some frame_id =>
      page ← frame_at s frame_id;
      if bool_decide (pin_count_ page ≤ 0) then Done (false, s)
      else
        let page' :=
          mkPage (data_ page) (page_id_ page) (pin_count_ page - 1)
                 (is_dirty_ page || is_dirty) in
        let s1 := store_frame s frame_id page' in
        if bool_decide (pin_count_ page' = 0) then
          r ← LRUK.SetEvictable (replacer_ s1) frame_id true;
          mret (true, set_replacer s1 r)
        else Done (true, s1)
  end.

Definition FlushPgImp (s : BufferPoolManagerInstance) (page_id : Z)
  : outcome (bool * BufferPoolManagerInstance) :=
  found ← EHT.Find hash (page_table_ s) page_id;
  match found with
  | None => Done (false, s)
  | Some frame_id =>
      page ← frame_at s frame_id;
      let dm := WritePage (disk_manager_ s) page_id (data_ page) in
      let page' :=
        mkPage (data_ page) (page_id_ page) (pin_count_ page) false in
      mret (true, set_disk_manager (store_frame s frame_id page') dm)
  end.

(** The loop of [FlushAllPgsImp], from frame [i] for [n] frames. *)
Fixpoint flush_frames (i n : nat) (s : BufferPoolManagerInstance)
  : outcome BufferPoolManagerInstance :=
  match n with
  | O => Done s
  | S n' =>
      page ← at_index (pages_ s) i;
      let dm := WritePage (disk_manager_ s) (page_id_ page) (data_ page) in
      let page' :=
        mkPage (data_ page) (page_id_ page) (pin_count_ page) false in
      flush_frames (S i) n'
        (set_disk_manager (set_pages s (<[i := page']> (pages_ s))) dm)
  end.

Definition FlushAllPgsImp (s : BufferPoolManagerInstance)
  : outcome BufferPoolManagerInstance :=
  flush_frames 0 (pool_size_ s) s.

Definition DeletePgImp (s : BufferPoolManagerInstance) (page_id : Z)
  : outcome (bool * BufferPoolManagerInstance) :=
  found ← EHT.Find hash (page_table_ s) page_id;
  match found with
  | None => Done (true, s)
  | Some frame_id =>
      page ← frame_at s frame_id;
      if bool_decide (0 < pin_count_ page) then Done (false, s)
      else
        rm ← EHT.Remove hash (page_table_ s) page_id;
        r ← LRUK.Remove (replacer_ s) frame_id;
        let s1 := set_free_list (set_replacer (set_page_table s rm.2) r)
                    (free_list_ s ++ [frame_id]) in
        let page' :=
          ResetMemory (mkPage (data_ page) INVALID_PAGE_ID 0 false) in
        mret (true, DeallocatePage (store_frame s1 frame_id page') page_id)
  end.

End BufferPool.

End BPM.

(** * Specification vocabulary and example configurations *)

(** ** Vocabulary for the buffer pool *)

(** A frame after a flush: the same frame with the dirty flag cleared. *)
Definition flushed (pg : BPM.Page) : BPM.Page :=
  BPM.mkPage (BPM.data_ pg) (BPM.page_id_ pg) (BPM.pin_count_ pg) false.

(** The write a flush issues for a frame. *)
Definition write_of (pg : BPM.Page) : BPM.io :=
  BPM.IoWrite (BPM.page_id_ pg) (BPM.data_ pg).

(** ** Vocabulary for the hash table *)

(** The low [g] bits of a hash, as a directory index. *)
Definition low (a : Z) (g : nat) : nat := Z.to_nat (a mod 2 ^ Z.of_nat g).

Module TableSpec.

Section TableSpec.
Context {K V : Type}.

Implicit Types (t : EHT.table K V) (b : EHT.Bucket K V).

(** The number of directory entries that hold the pointer [p]. *)
Definition refs t (p : nat) : nat :=
  length (filter (λ q, q = p) (EHT.dir_ t)).

(** Every bucket the directory points to is referenced by
    [2^(global_depth - local_depth)] entries. *)
Definition dir_balanced t : Prop :=
  ∀ p b, p ∈ EHT.dir_ t → EHT.heap_ t !! p = Some b →
         refs t p = 2 ^ (EHT.global_depth_ t - EHT.depth_ b).

(** The shape of the directory: it has [2^global_depth] entries, every entry
    points to a bucket of local depth at most the global depth, and the
    entries that share a bucket of local depth [d] are those whose indexes
    agree on the low [d] bits. *)
Record dir_wf t : Prop := mk_dir_wf {
  dir_len : length (EHT.dir_ t) = 2 ^ EHT.global_depth_ t;
  dir_pat : ∀ i p, EHT.dir_ t !! i = Some p →
    ∃ b, EHT.heap_ t !! p = Some b ∧
         EHT.depth_ b ≤ EHT.global_depth_ t ∧
         ∀ j, j < length (EHT.dir_ t) →
              (EHT.dir_ t !! j = Some p ↔
               j mod 2 ^ EHT.depth_ b = i mod 2 ^ EHT.depth_ b)
}.

(** [dir_wf] on the parts of a table: the global depth, the directory and
    the local depth behind each pointer. *)
Definition shaped (g : nat) (d : list nat) (ld : nat → option nat) : Prop :=
  length d = 2 ^ g ∧
  ∀ i p, d !! i = Some p →
    ∃ e, ld p = Some e ∧ e ≤ g ∧
         ∀ j, j < length d → (d !! j = Some p ↔ j mod 2 ^ e = i mod 2 ^ e).

Definition depth_at t (p : nat) : option nat :=
  EHT.depth_ <$> EHT.heap_ t !! p.

(** A state in which the loop of the first [InsertInternal] cannot end:
    buckets hold one pair and the bucket of the key's index holds the key. *)
Definition stuck_on (hash : K → Z) t (k : K) (v : V) : Prop :=
  dir_wf t ∧ EHT.bucket_size_ t = 1 ∧
  ∃ p b, EHT.bucket_at t (EHT.IndexOf hash t k) = Done (p, b) ∧
         EHT.list_ b = [(k, v)] ∧ EHT.size_ b = 1.

End TableSpec.

Section TableRuns.
Context {K V : Type} `{EqDecision K}.
Variable hash : K → Z.

Implicit Types (t : EHT.table K V).

(** The buckets of the directory were made with the capacity of the table,
    hold no more pairs than that, and hold no key twice. *)
Definition items_ok t : Prop :=
  ∀ p b, p ∈ EHT.dir_ t → EHT.heap_ t !! p = Some b →
         EHT.size_ b = EHT.bucket_size_ t ∧
         length (EHT.list_ b) ≤ EHT.size_ b ∧
         NoDup (EHT.list_ b).*1.

(** The number of distinct buckets the directory points to. *)
Definition distinct_buckets t : nat := length (remove_dups (EHT.dir_ t)).

Definition counted t : Prop :=
  EHT.GetNumBuckets t = Z.of_nat (distinct_buckets t).

(** Runs of the first version: [Insert] (lines 97-150) and [Remove]. *)
Inductive op : Type :=
  | Put (k : K) (v : V)
  | Del (k : K).

Definition apply_op (fuel : nat) t (o : op) : outcome (EHT.table K V) :=
  match o with
  | Put k v => EHT.InsertInternal_loop hash fuel t k v
  | Del k => rt ← EHT.Remove hash t k; mret rt.2
  end.

Fixpoint apply_ops (fuel : nat) t (os : list op) : outcome (EHT.table K V) :=
  match os with
  | [] => Done t
  | o :: os' => t' ← apply_op fuel t o; apply_ops fuel t' os'
  end.

End TableRuns.

Arguments op : clear implicits.

End TableSpec.

(** ** Vocabulary for the replacer *)

Module ReplacerSpec.

Import LRUK.
Local Open Scope Z_scope.

(** The nodes the replacer tracks: History ([inf_list_]) then Cache
    ([countable_list_]). *)
Definition nodes (r : LRUKReplacer) : list LRUKNode :=
  inf_list_ r ++ countable_list_ r.

Definition tracked (r : LRUKReplacer) (frame_id : Z) : Prop :=
  frame_id ∈ map frame_id_ (nodes r).

(** The state the replacer keeps between calls: a node sits in History when
    its count is below k and in Cache otherwise, and no frame has two nodes. *)
Record wf (r : LRUKReplacer) : Prop := mk_wf {
  wf_k : 1 ≤ k_ r;
  wf_inf : Forall (λ n, access_count_ n < k_ r) (inf_list_ r);
  wf_cnt : Forall (λ n, k_ r ≤ access_count_ n) (countable_list_ r);
  wf_nodup : NoDup (map frame_id_ (nodes r))
}.

Definition ev_count (l : list LRUKNode) : nat :=
  length (filter (λ n, evictable_ n = true) l).

Definition count_evictable (r : LRUKReplacer) : nat := ev_count (nodes r).

(** [curr_size_] is the number of evictable nodes, as a [size_t]. *)
Definition size_ok (r : LRUKReplacer) : Prop :=
  curr_size_ r = to_size_t (Z.of_nat (count_evictable r)).

Definition other_frame (frame_id : Z) (n : LRUKNode) : Prop :=
  frame_id_ n ≠ frame_id.

(** [frame_id] belongs to the evictable node nearest the front of [l]. *)
Definition front_evictable (l : list LRUKNode) (frame_id : Z) : Prop :=
  ∃ l1 n l2,
    l = l1 ++ n :: l2 ∧ Forall (λ m, evictable_ m = false) l1 ∧
    evictable_ n = true ∧ frame_id_ n = frame_id.

Definition none_evictable (l : list LRUKNode) : Prop :=
  Forall (λ m, evictable_ m = false) l.

(** Sequences of calls and the time of a frame's first access. *)
Inductive call : Type :=
  | Access (frame_id : Z)
  | Mark (frame_id : Z) (flag : bool)
  | Drop (frame_id : Z)
  | Victim.

Definition step (r : LRUKReplacer) (c : call) : outcome LRUKReplacer :=
  match c with
  | Access f => RecordAccess r f
  | Mark f b => SetEvictable r f b
  | Drop f => Remove r f
  | Victim => rv ← Evict r; mret rv.1
  end.

Fixpoint run (r : LRUKReplacer) (cs : list call) : outcome LRUKReplacer :=
  match cs with
  | [] => Done r
  | c :: cs' => r' ← step r c; run r' cs'
  end.

Fixpoint first_access (cs : list call) (frame_id : Z) : nat :=
  match cs with
  | [] => 0
  | Access f :: cs' =>
      if bool_decide (f = frame_id) then 0%nat else S (first_access cs' frame_id)
  | _ :: cs' => S (first_access cs' frame_id)
  end.

Definition evictable_in_history (r : LRUKReplacer) (frame_id : Z) : Prop :=
  ∃ n, n ∈ inf_list_ r ∧ frame_id_ n = frame_id ∧ evictable_ n = true.

(** [frame_id] is, among the evictable frames of History, the one whose first
    access in [cs] is the earliest. *)
Definition earliest_first_recorded (cs : list call) (r : LRUKReplacer)
    (frame_id : Z) : Prop :=
  evictable_in_history r frame_id ∧
  ∀ g, evictable_in_history r g →
       (first_access cs frame_id ≤ first_access cs g)%nat.

(** The reading of the History rule by first access: after the calls [cs] on
    a new replacer, [Evict] returns the earliest-first-recorded frame. *)
Definition evicts_earliest_first_recorded (num_frames k : Z) (cs : list call)
  : Prop :=
  ∀ r f,
    run (new_replacer num_frames k) cs = Done r →
    earliest_first_recorded cs r f →
    ∃ r', Evict r = Done (r', Some f).

(** The same reading for Cache: the time at which a frame reached [k]
    accesses is the position in [cs] of its [k]-th access. *)
Fixpoint kth_access (k : nat) (cs : list call) (frame_id : Z) : nat :=
  match cs with
  | [] => 0
  | Access f :: cs' =>
      if bool_decide (f = frame_id) then
        match k with
        | O => 0%nat
        | S O => 0%nat
        | S k' => S (kth_access k' cs' frame_id)
        end
      else S (kth_access k cs' frame_id)
  | _ :: cs' => S (kth_access k cs' frame_id)
  end.

Definition evictable_in (l : list LRUKNode) (frame_id : Z) : Prop :=
  ∃ n, n ∈ l ∧ frame_id_ n = frame_id ∧ evictable_ n = true.

Definition earliest_reached_K (k : nat) (cs : list call) (r : LRUKReplacer)
    (frame_id : Z) : Prop :=
  evictable_in (countable_list_ r) frame_id ∧
  ∀ g, evictable_in (countable_list_ r) g →
       (kth_access k cs frame_id ≤ kth_access k cs g)%nat.

Definition evicts_earliest_reached_K (num_frames k : Z) (cs : list call)
  : Prop :=
  ∀ r f,
    run (new_replacer num_frames k) cs = Done r →
    none_evictable (inf_list_ r) →
    earliest_reached_K (Z.to_nat k) cs r f →
    ∃ r', Evict r = Done (r', Some f).

(** What the code orders by.  The number of calls made since the last access
    of [frame_id] in [cs] (the length of [cs] when it was never accessed):
    the larger, the longer ago the frame was accessed. *)
Definition since_access (cs : list call) (frame_id : Z) : nat :=
  first_access (reverse cs) frame_id.

(** [frame_id] is, among the evictable frames of [l], the one that was
    accessed the longest ago. *)
Definition least_recently_accessed (cs : list call) (l : list LRUKNode)
    (frame_id : Z) : Prop :=
  evictable_in l frame_id ∧
  ∀ g, evictable_in l g → g ≠ frame_id →
       (since_access cs g < since_access cs frame_id)%nat.

(** The frames [ids], front to back, were last accessed in that order. *)
Fixpoint by_last_access (cs : list call) (ids : list Z) : Prop :=
  match ids with
  | [] => True
  | f :: rest =>
      Forall (λ g, (since_access cs g < since_access cs f)%nat) rest ∧
      by_last_access cs rest
  end.

End ReplacerSpec.

(** ** Vocabulary for the buffer pool manager *)

Module PoolSpec.

Import BPM.
Local Open Scope Z_scope.

Section PoolSpec.

Variable BUSTUB_PAGE_SIZE : nat.
Variable INVALID_PAGE_ID : Z.
Variable hash : Z → Z.
Variable pt_Insert : EHT.table Z Z → Z → Z → outcome (EHT.table Z Z).

(** Page [p] is bound to frame [f]: the frame holds the page id, its pin
    count is not negative, the replacer has a node for the frame, which is
    evictable exactly when the pin count is zero, and the frame id passes
    the replacer's assertion. *)
Definition bound (s : BufferPoolManagerInstance) (p f : Z) : Prop :=
  ∃ pg n,
    frame_at s f = Done pg ∧ page_id_ pg = p ∧ 0 ≤ pin_count_ pg ∧
    LRUK.find_node (replacer_ s) f = Some n ∧
    LRUK.evictable_ n = bool_decide (pin_count_ pg = 0) ∧
    LRUK.frame_id_ok (replacer_ s) f = true.

(** The state the manager keeps between calls: [pages_] has [pool_size_]
    frames, the page table is shaped and its buckets are in order, the
    replacer is well formed, and every page the page table knows is bound to
    the frame the table gives for it. *)
Record pool_ok (s : BufferPoolManagerInstance) : Prop := mk_pool_ok {
  pool_frames : length (pages_ s) = pool_size_ s;
  pool_dir : TableSpec.dir_wf (page_table_ s);
  pool_items : TableSpec.items_ok (page_table_ s);
  pool_replacer : ReplacerSpec.wf (replacer_ s);
  pool_bound : ∀ p f,
    EHT.Find hash (page_table_ s) p = Done (Some f) → bound s p f
}.

(** What the manager needs of the [Insert] of its page table: on a table
    that is shaped and in order, a call that returns keeps it so, binds the
    key and changes no other key. *)
Definition map_insert : Prop :=
  ∀ t k v t',
    TableSpec.dir_wf t → TableSpec.items_ok t →
    pt_Insert t k v = Done t' →
    TableSpec.dir_wf t' ∧ TableSpec.items_ok t' ∧
    EHT.Find hash t' k = Done (Some v) ∧
    ∀ k', k' ≠ k → EHT.Find hash t' k' = EHT.Find hash t k'.

(** Runs of the manager's public calls. *)
Inductive pool_call : Type :=
  | NewPage
  | FetchPage (page_id : Z)
  | UnpinPage (page_id : Z) (is_dirty : bool)
  | FlushPage (page_id : Z)
  | FlushAllPages
  | DeletePage (page_id : Z).

Definition pool_step (s : BufferPoolManagerInstance) (c : pool_call)
  : outcome BufferPoolManagerInstance :=
  match c with
  | NewPage =>
      r ← NewPgImp BUSTUB_PAGE_SIZE INVALID_PAGE_ID hash pt_Insert s;
      mret r.2
  | FetchPage p =>
      r ← FetchPgImp BUSTUB_PAGE_SIZE INVALID_PAGE_ID hash pt_Insert s p;
      mret r.2
  | UnpinPage p d => r ← UnpinPgImp hash s p d; mret r.2
  | FlushPage p => r ← FlushPgImp hash s p; mret r.2
  | FlushAllPages => FlushAllPgsImp s
  | DeletePage p =>
      r ← DeletePgImp BUSTUB_PAGE_SIZE INVALID_PAGE_ID hash s p; mret r.2
  end.

Fixpoint pool_run (s : BufferPoolManagerInstance) (cs : list pool_call)
  : outcome BufferPoolManagerInstance :=
  match cs with
  | [] => Done s
  | c :: cs' => s' ← pool_step s c; pool_run s' cs'
  end.

End PoolSpec.

End PoolSpec.

(** ** Example configurations

    [std::hash<int>] is the identity in libstdc++; the examples use it, a page
    of two bytes and [INVALID_PAGE_ID = -1]. *)

Module Examples.

Local Open Scope Z_scope.

Definition hash_id (k : Z) : Z := k.

Definition loop_insert : EHT.table Z Z → Z → Z → outcome (EHT.table Z Z) :=
  EHT.InsertInternal_loop hash_id 16.

Definition rec_insert : EHT.table Z Z → Z → Z → outcome (EHT.table Z Z) :=
  EHT.InsertInternal_rec hash_id 16.

(** Inserting the keys of a list, each with the value [key + 100]. *)
Fixpoint insert_all (ins : EHT.table Z Z → Z → Z → outcome (EHT.table Z Z))
    (keys : list Z) (t : EHT.table Z Z) : outcome (EHT.table Z Z) :=
  match keys with
  | [] => Done t
  | k :: r => t' ← ins t k (k + 100); insert_all ins r t'
  end.

(** The table with buckets of one pair that holds key 0 alone, and the new
    table with buckets of two pairs. *)
Definition t_one : EHT.table Z Z :=
  EHT.mkTable 0 1 1 [0%nat] [EHT.mkBucket 1 0 [(0, 100)]].

Definition t_new2 : EHT.table Z Z := EHT.ExtendibleHashTable 2.

(** A replacer for 7 frames with k = 3, after the accesses 1, 2, 1 and with
    both frames marked evictable: History holds frame 2 then frame 1. *)
Definition r_two : LRUK.LRUKReplacer :=
  LRUK.mkReplacer 7 3 2 [LRUK.mkNode 2 1 true; LRUK.mkNode 1 2 true] [].

Definition calls_two : list ReplacerSpec.call :=
  [ReplacerSpec.Access 1; ReplacerSpec.Access 2; ReplacerSpec.Access 1;
   ReplacerSpec.Mark 1 true; ReplacerSpec.Mark 2 true].

(** A disk on which page [p] holds the bytes [p; p]. *)
Definition disk0 : BPM.DiskManager := BPM.mkDisk (λ p, [p; p]) [].

(** [disk0] after one [ReadPage(5)]. *)
Definition disk0_read : BPM.DiskManager := BPM.mkDisk (λ p, [p; p]) [BPM.IoRead 5].

(** A pool of two frames, k = 2, buckets of two pairs. *)
Definition pool0 : BPM.BufferPoolManagerInstance :=
  BPM.new_instance 2 (-1) 2 disk0 2 2.

Definition fetch := BPM.FetchPgImp 2 (-1) hash_id loop_insert.
Definition unpin := BPM.UnpinPgImp hash_id.
Definition delete := BPM.DeletePgImp 2 (-1) hash_id.
Definition flush := BPM.FlushPgImp hash_id.
Definition new_pg := BPM.NewPgImp 2 (-1) hash_id loop_insert.

(** [pool0] after [FetchPage(5)]: page 5 is pinned in frame 0. *)
Definition pool_fetched : outcome BPM.BufferPoolManagerInstance :=
  r ← fetch pool0 5; mret r.2.

(** ... and after the caller wrote [7; 7] into the frame and unpinned it
    dirty: page 5 is resident, unpinned and dirty. *)
Definition pool_dirty : outcome BPM.BufferPoolManagerInstance :=
  s ← pool_fetched;
  pg ← BPM.frame_at s 0;
  let s' := BPM.store_frame s 0
              (BPM.mkPage [7; 7] (BPM.page_id_ pg) (BPM.pin_count_ pg)
                          (BPM.is_dirty_ pg)) in
  r ← unpin s' 5 true; mret r.2.

Definition s_fetched : BPM.BufferPoolManagerInstance := final pool0 pool_fetched.

Definition s_dirty : BPM.BufferPoolManagerInstance := final pool0 pool_dirty.

(** [s_dirty] after a second [FetchPage(5)]. *)
Definition s_refetched : BPM.BufferPoolManagerInstance :=
final pool0 (r ← fetch s_dirty 5; mret r.2).

(** [pool0] with pages 5 and 6 fetched and still pinned: no free frame and
    nothing evictable. *)
Definition s_pinned : BPM.BufferPoolManagerInstance :=
  final pool0 (r ← fetch pool0 5; r' ← fetch r.2 6; mret r'.2).

(** A pool of one frame in which page 5 is resident, unpinned and dirty with
    the bytes [7; 7], and the same pool after [GetNewPage(6)] evicted it. *)
Definition s_victim : BPM.BufferPoolManagerInstance :=
  final pool0
    (r ← BPM.FetchPgImp 2 (-1) hash_id loop_insert
           (BPM.new_instance 2 (-1) 1 disk0 2 2) 5;
     pg ← BPM.frame_at r.2 0;
     r' ← unpin (BPM.store_frame r.2 0
                   (BPM.mkPage [7; 7] (BPM.page_id_ pg) (BPM.pin_count_ pg)
                               (BPM.is_dirty_ pg))) 5 true;
     mret r'.2).

Definition s_rebound : BPM.BufferPoolManagerInstance :=
  final pool0
    (r ← BPM.GetNewPage 2 (-1) hash_id loop_insert s_victim 6; mret r.2).

(** [pool0] after [FetchPage(5)], and after [UnpinPage(5, true)] as well,
    as runs of the public calls. *)
Definition pool_calls :=
  PoolSpec.pool_run 2 (-1) hash_id loop_insert pool0.

Definition s_run_fetched : BPM.BufferPoolManagerInstance :=
  final pool0 (pool_calls [PoolSpec.FetchPage 5]).

Definition s_run_unpinned : BPM.BufferPoolManagerInstance :=
  final pool0 (pool_calls [PoolSpec.FetchPage 5; PoolSpec.UnpinPage 5 true]).

End Examples.

(** * Theorems *)

(** ** Reasoning about outcomes *)

Lemma bind_Done_inv {A B} (m : outcome A) (f : A → outcome B) (b : B) :
  m ≫= f = Done b → ∃ a, m = Done a ∧ f a = Done b.
Proof. destruct m; simpl; intros; eauto; discriminate. Qed.

Lemma at_index_Done {A} (l : list A) (i : nat) (a : A) :
  at_index l i = Done a ↔ l !! i = Some a.
Proof.
  unfold at_index. destruct (l !! i); split; intros E; inversion E; auto.
Qed.

(** Splits a hypothesis [m ≫= f = Done b] into the two calls. *)
Ltac inv_bind H :=
  let a := fresh "a" in
  let Ha := fresh "Ha" in
  apply bind_Done_inv in H; destruct H as (a & Ha & H).


(** ** LRU-K replacer *)

Section ReplacerFacts.

Import LRUK ReplacerSpec.
Local Open Scope Z_scope.

Implicit Types (r : LRUKReplacer) (n : LRUKNode) (l : list LRUKNode) (f : Z).

Lemma has_frame_true f n : has_frame f n = true ↔ frame_id_ n = f.
Proof. unfold has_frame. by rewrite bool_decide_eq_true. Qed.

Lemma find_has_frame_None l f :
  find (has_frame f) l = None ↔ f ∉ map frame_id_ l.
Proof.
  induction l as [|n l IH]; simpl.
  - split; [intros _; apply not_elem_of_nil | done].
  - rewrite not_elem_of_cons. unfold has_frame at 1. case_bool_decide.
    + split; [done | intros [? _]; congruence].
    + rewrite IH. split; [intros; split; congruence | tauto].
Qed.

Lemma find_has_frame_Some l f n :
  find (has_frame f) l = Some n → n ∈ l ∧ frame_id_ n = f.
Proof.
  intros H. apply find_some in H as [Hin Hf].
  split; [by apply list_elem_of_In | by apply has_frame_true].
Qed.

Lemma find_has_frame_NoDup l n :
  NoDup (map frame_id_ l) → n ∈ l → find (has_frame (frame_id_ n)) l = Some n.
Proof.
  induction l as [|m l IH]; simpl; intros Hnd Hin.
  - by apply elem_of_nil in Hin.
  - apply NoDup_cons in Hnd as [Hm Hnd]. unfold has_frame at 1.
    apply elem_of_cons in Hin as [->|Hin].
    + by rewrite bool_decide_eq_true_2.
    + rewrite bool_decide_eq_false_2; [by apply IH|].
      intros E. apply Hm. rewrite E. apply list_elem_of_fmap. eauto.
Qed.

(** [hash_[frame_id]] is the node itself when no frame has two nodes. *)
Lemma find_node_NoDup r n :
  NoDup (map frame_id_ (nodes r)) → n ∈ nodes r →
  find_node r (frame_id_ n) = Some n.
Proof.
  unfold nodes, find_node. rewrite map_app. intros Hnd Hin.
  apply NoDup_app in Hnd as (Hi & Hdisj & Hc).
  apply elem_of_app in Hin as [Hin|Hin].
  - by rewrite find_has_frame_NoDup.
  - destruct (find (has_frame (frame_id_ n)) (inf_list_ r)) eqn:E.
    + apply find_has_frame_Some in E as [Hin' Hf]. exfalso.
      eapply (Hdisj (frame_id_ n)).
      * rewrite <- Hf. apply list_elem_of_fmap. eauto.
      * apply list_elem_of_fmap. eauto.
    + by apply find_has_frame_NoDup.
Qed.

Lemma find_node_Some r f n :
  find_node r f = Some n → n ∈ nodes r ∧ frame_id_ n = f.
Proof.
  unfold find_node, nodes. intros H.
  destruct (find (has_frame f) (inf_list_ r)) eqn:E.
  - inversion H; subst. apply find_has_frame_Some in E as [? ?].
    split; [apply elem_of_app; auto | done].
  - apply find_has_frame_Some in H as [? ?].
    split; [apply elem_of_app; auto | done].
Qed.

Lemma find_node_None r f : find_node r f = None ↔ ¬ tracked r f.
Proof.
  unfold find_node, tracked, nodes. rewrite map_app, elem_of_app.
  destruct (find (has_frame f) (inf_list_ r)) eqn:E.
  - apply find_has_frame_Some in E as [Hin Hf]. split; [done|].
    intros Hn. exfalso. apply Hn. left. rewrite <- Hf.
    apply list_elem_of_fmap. eauto.
  - apply find_has_frame_None in E. rewrite find_has_frame_None. tauto.
Qed.

(** [erase] through the iterator of a frame's node removes the first node of
    the frame, and is defined exactly when the list holds one. *)
Lemma erase_node_Done l f l' :
  erase_node l f = Done l' →
  ∃ l1 n l2, l = l1 ++ n :: l2 ∧ l' = l1 ++ l2 ∧ frame_id_ n = f ∧
             f ∉ map frame_id_ l1.
Proof.
  revert l'. induction l as [|m l IH]; simpl; intros l' H; [done|].
  unfold has_frame in H at 1. case_bool_decide as Hm.
  - inversion H; subst l'. exists [], m, l.
    repeat split; auto. apply not_elem_of_nil.
  - inv_bind H. inversion H; subst l'.
    destruct (IH _ Ha) as (l1 & n & l2 & -> & -> & Hn & Hl1).
    exists (m :: l1), n, l2. repeat split; auto.
    simpl. rewrite not_elem_of_cons. split; [congruence | done].
Qed.

Lemma erase_node_returns l f :
  f ∈ map frame_id_ l → ∃ l', erase_node l f = Done l'.
Proof.
  induction l as [|m l IH]; simpl; intros Hin.
  - by apply elem_of_nil in Hin.
  - unfold has_frame at 1. case_bool_decide as Hm; [eauto|].
    apply elem_of_cons in Hin as [?|Hin]; [congruence|].
    destruct (IH Hin) as [l' ->]. simpl. eauto.
Qed.

Lemma find_evictable_None l : find evictable_ l = None ↔ none_evictable l.
Proof.
  unfold none_evictable. induction l as [|n l IH]; simpl.
  - split; [constructor | done].
  - rewrite Forall_cons. destruct (evictable_ n).
    + split; [done | intros [? _]; done].
    + rewrite IH. tauto.
Qed.

Lemma find_evictable_front l f :
  front_evictable l f ↔ ∃ n, find evictable_ l = Some n ∧ frame_id_ n = f.
Proof.
  split.
  - intros (l1 & n & l2 & -> & Hl1 & Hn & Hf). exists n. split; [|done].
    induction Hl1 as [|m l1 Hm _ IH]; simpl; [by rewrite Hn | by rewrite Hm].
  - intros (n & Hfind & Hf). induction l as [|m l IH]; simpl in *; [done|].
    destruct (evictable_ m) eqn:Em.
    + inversion Hfind; subst m. exists [], n, l. repeat split; auto.
    + destruct (IH Hfind) as (l1 & n' & l2 & -> & Hl1 & Hn' & Hf').
      exists (m :: l1), n', l2. repeat split; auto.
Qed.

(** [RemoveInternal] returns for every evictable node of a well-formed
    replacer. *)
Lemma RemoveInternal_returns r n :
  wf r → n ∈ nodes r → evictable_ n = true →
  ∃ r', RemoveInternal r (frame_id_ n) = Done r'.
Proof.
  intros [Hk Hi Hc Hnd] Hin Hev. unfold RemoveInternal.
  rewrite (find_node_NoDup r n Hnd Hin), Hev. simpl.
  apply elem_of_app in Hin as [Hin|Hin].
  - rewrite Forall_forall in Hi. specialize (Hi n Hin). simpl in Hi.
    rewrite bool_decide_eq_false_2 by lia.
    destruct (erase_node_returns (inf_list_ r) (frame_id_ n)) as [l' ->];
      [apply list_elem_of_fmap; eauto | simpl; eauto].
  - rewrite Forall_forall in Hc. specialize (Hc n Hin). simpl in Hc.
    rewrite bool_decide_eq_true_2 by lia.
    destruct (erase_node_returns (countable_list_ r) (frame_id_ n)) as [l' ->];
      [apply list_elem_of_fmap; eauto | simpl; eauto].
Qed.

Lemma SetEvictable_returns r f b :
  frame_id_ok r f = true → ∃ r', SetEvictable r f b = Done r'.
Proof.
  intros Hok. unfold SetEvictable. rewrite Hok. simpl.
  destruct (find_node r f) as [n|]; [|eauto].
  destruct (evictable_ n), b; simpl; eauto.
Qed.

(** On a well-formed replacer [Evict] returns the evictable frame nearest
    the front of History; when History has no evictable node, the evictable
    frame nearest the front of Cache; and it returns false exactly when no
    tracked node is evictable. *)
Lemma Evict_front_most r :
  wf r →
  (∀ f, front_evictable (inf_list_ r) f →
        ∃ r', Evict r = Done (r', Some f)) ∧
  (none_evictable (inf_list_ r) →
   ∀ f, front_evictable (countable_list_ r) f →
        ∃ r', Evict r = Done (r', Some f)) ∧
  ((∃ r', Evict r = Done (r', None)) ↔ none_evictable (nodes r)).
Proof.
  intros Hwf. split; [|split].
  - intros f Hfront. apply find_evictable_front in Hfront as (n & Hfind & Hf).
    unfold Evict. rewrite Hfind. pose proof (find_some _ _ Hfind) as [Hin Hev].
    destruct (RemoveInternal_returns r n Hwf) as [r' Hr'];
      [apply elem_of_app; left; by apply list_elem_of_In | done |].
    rewrite Hr'. simpl. subst f. eauto.
  - intros Hnone f Hfront.
    apply find_evictable_front in Hfront as (n & Hfind & Hf).
    apply find_evictable_None in Hnone. unfold Evict. rewrite Hnone, Hfind.
    pose proof (find_some _ _ Hfind) as [Hin Hev].
    destruct (RemoveInternal_returns r n Hwf) as [r' Hr'];
      [apply elem_of_app; right; by apply list_elem_of_In | done |].
    rewrite Hr'. simpl. subst f. eauto.
  - unfold none_evictable, nodes. rewrite Forall_app.
    fold (none_evictable (inf_list_ r)).
    fold (none_evictable (countable_list_ r)).
    rewrite <- !find_evictable_None. unfold Evict.
    destruct (find evictable_ (inf_list_ r)) as [n|] eqn:E1.
    + split; [|intros [? _]; done]. intros [r' H]. inv_bind H. done.
    + destruct (find evictable_ (countable_list_ r)) as [n|] eqn:E2.
      * split; [|intros [_ ?]; done]. intros [r' H]. inv_bind H. done.
      * split; eauto.
Qed.

(** *** Erasing and flagging a node *)

Lemma erase_node_first l f n :
  find (has_frame f) l = Some n →
  ∃ l1 l2, l = l1 ++ n :: l2 ∧ erase_node l f = Done (l1 ++ l2) ∧
           f ∉ map frame_id_ l1.
Proof.
  induction l as [|m l IH]; simpl; [done|].
  unfold has_frame at 1 3. case_bool_decide as Hm.
  - intros E. inversion E; subst m. exists [], l.
    repeat split. apply not_elem_of_nil.
  - intros E. destruct (IH E) as (l1 & l2 & -> & -> & Hl1).
    exists (m :: l1), l2. repeat split. simpl.
    rewrite not_elem_of_cons. split; [congruence | done].
Qed.

Lemma erase_node_Forall (P : LRUKNode → Prop) l f l' :
  erase_node l f = Done l' → Forall P l → Forall P l'.
Proof.
  intros H. apply erase_node_Done in H as (l1 & n & l2 & -> & -> & _).
  rewrite !Forall_app, Forall_cons. tauto.
Qed.

Lemma erase_node_ids l f l' :
  erase_node l f = Done l' → map frame_id_ l ≡ₚ (f :: map frame_id_ l').
Proof.
  intros H. apply erase_node_Done in H as (l1 & n & l2 & -> & -> & <- & _).
  rewrite !map_app. simpl. symmetry. apply Permutation_middle.
Qed.

Lemma erase_node_filter l f l' :
  NoDup (map frame_id_ l) → erase_node l f = Done l' →
  l' = filter (other_frame f) l.
Proof.
  intros Hnd H.
  apply erase_node_Done in H as (l1 & n & l2 & -> & -> & Hn & Hl1).
  rewrite map_app in Hnd. simpl in Hnd.
  apply NoDup_app in Hnd as (_ & Hdisj & Hnd2).
  apply NoDup_cons in Hnd2 as [Hn2 _].
  assert (∀ l0, f ∉ map frame_id_ l0 → filter (other_frame f) l0 = l0) as Hid.
  { clear. induction l0 as [|m l0 IH]; simpl; [done|].
    rewrite not_elem_of_cons. intros [Hm Hl0].
    rewrite filter_cons_True by (unfold other_frame; congruence).
    by rewrite IH. }
  rewrite !filter_app, filter_cons_False by (unfold other_frame; tauto).
  rewrite !Hid; [done | by rewrite <- Hn | done].
Qed.

Lemma erase_node_not_abort l f :
  erase_node l f ≠ AssertFail ∧ erase_node l f ≠ OutOfFuel.
Proof.
  induction l as [|m l [IH1 IH2]]; simpl; [done|].
  destruct (has_frame f m); [done|].
  destruct (erase_node l f); simpl; done.
Qed.

Lemma set_flag_find l f n flag :
  find (has_frame f) l = Some n →
  ∃ l1 l2, l = l1 ++ n :: l2 ∧ (f ∉ map frame_id_ l1) ∧
           set_flag l f flag =
             Some (l1 ++ (mkNode (frame_id_ n) (access_count_ n) flag) :: l2).
Proof.
  induction l as [|m l IH]; simpl; [done|].
  unfold has_frame at 1 3. case_bool_decide as Hm.
  - intros E. inversion E; subst m. exists [], l.
    repeat split. apply not_elem_of_nil.
  - intros E. destruct (IH E) as (l1 & l2 & -> & Hl1 & ->).
    exists (m :: l1), l2. repeat split. simpl.
    rewrite not_elem_of_cons. split; [congruence | done].
Qed.

Lemma set_flag_None l f flag :
  find (has_frame f) l = None → set_flag l f flag = None.
Proof.
  induction l as [|m l IH]; simpl; [done|].
  destruct (has_frame f m); [done|]. intros E. by rewrite IH.
Qed.

(** The node of a tracked frame is in History, or in Cache and the frame has
    no node in History. *)
Lemma find_node_cases r f n :
  find_node r f = Some n →
  find (has_frame f) (inf_list_ r) = Some n ∨
  (find (has_frame f) (inf_list_ r) = None ∧
   find (has_frame f) (countable_list_ r) = Some n).
Proof.
  unfold find_node. destruct (find (has_frame f) (inf_list_ r)); auto.
Qed.

Lemma ev_count_app l1 l2 : ev_count (l1 ++ l2) = (ev_count l1 + ev_count l2)%nat.
Proof. unfold ev_count. by rewrite filter_app, length_app. Qed.

Lemma ev_count_cons n l :
  ev_count (n :: l) = ((if evictable_ n then 1 else 0) + ev_count l)%nat.
Proof.
  unfold ev_count. rewrite filter_cons.
  destruct (decide (evictable_ n = true)) as [->|Hn]; simpl; [done|].
  by destruct (evictable_ n).
Qed.

Lemma ev_count_nil : ev_count [] = 0%nat.
Proof. done. Qed.

Lemma to_size_t_add a b : to_size_t (to_size_t a + b) = to_size_t (a + b).
Proof. unfold to_size_t. apply Z.add_mod_idemp_l. lia. Qed.

Lemma to_size_t_sub a b : to_size_t (to_size_t a - b) = to_size_t (a - b).
Proof. unfold to_size_t. apply Zminus_mod_idemp_l. Qed.

Lemma filter_other_frame_id l f :
  f ∉ map frame_id_ l → filter (other_frame f) l = l.
Proof.
  induction l as [|m l IH]; simpl; [done|].
  rewrite not_elem_of_cons. intros [Hm Hl].
  rewrite filter_cons_True by (unfold other_frame; congruence).
  by rewrite IH.
Qed.

Lemma filter_other_frame_mid l1 n l2 :
  NoDup (map frame_id_ (l1 ++ n :: l2)) →
  filter (other_frame (frame_id_ n)) (l1 ++ n :: l2) = l1 ++ l2.
Proof.
  intros Hnd. rewrite filter_app, filter_cons_False
    by (unfold other_frame; tauto).
  rewrite <- filter_app. apply filter_other_frame_id.
  rewrite map_app in Hnd. simpl in Hnd.
  assert (NoDup (frame_id_ n :: map frame_id_ l1 ++ map frame_id_ l2)) as Hnd'.
  { eapply NoDup_Permutation_proper; [|exact Hnd]. solve_Permutation. }
  apply NoDup_cons in Hnd' as [Hn _]. by rewrite map_app.
Qed.

Lemma find_has_frame_app l1 n l2 :
  frame_id_ n ∉ map frame_id_ l1 →
  find (has_frame (frame_id_ n)) (l1 ++ n :: l2) = Some n.
Proof.
  induction l1 as [|m l1 IH]; simpl.
  - intros _. unfold has_frame. by rewrite bool_decide_eq_true_2.
  - rewrite not_elem_of_cons. intros [Hm Hl]. unfold has_frame at 1.
    rewrite bool_decide_eq_false_2 by congruence. by apply IH.
Qed.

(** *** What the calls compute on a well-formed replacer *)

Lemma RecordAccess_tracked r f n r' :
  wf r → find_node r f = Some n → RecordAccess r f = Done r' →
  let moved := mkNode f (access_count_ n + 1) (evictable_ n) in
  ∃ l1 l2,
    (inf_list_ r = l1 ++ n :: l2 ∧
     ((access_count_ n + 1 < k_ r ∧
       r' = set_lists r (curr_size_ r) ((l1 ++ l2) ++ [moved])
              (countable_list_ r)) ∨
      (access_count_ n + 1 = k_ r ∧
       r' = set_lists r (curr_size_ r) (l1 ++ l2)
              (countable_list_ r ++ [moved])))) ∨
    (countable_list_ r = l1 ++ n :: l2 ∧ k_ r < access_count_ n + 1 ∧
     r' = set_lists r (curr_size_ r) (inf_list_ r) ((l1 ++ l2) ++ [moved])).
Proof.
  intros [Hk Hi Hc Hnd] Hfind H. simpl. unfold RecordAccess in H.
  destruct (frame_id_ok r f); simpl in H; [|done]. rewrite Hfind in H.
  destruct (find_node_cases r f n Hfind) as [Ei|[Ei Ec]].
  - destruct (erase_node_first _ _ _ Ei) as (l1 & l2 & Hl & He & _).
    assert (access_count_ n < k_ r) as Hn.
    { rewrite Forall_forall in Hi. apply Hi. rewrite Hl.
      apply elem_of_app. right. by left. }
    exists l1, l2. left. split; [done|]. rewrite He in H. simpl in H.
    case_bool_decide; [left | right].
    + split; [done|]. by inversion H.
    + rewrite bool_decide_eq_true_2 in H by lia. split; [lia|].
      by inversion H.
  - destruct (erase_node_first _ _ _ Ec) as (l1 & l2 & Hl & He & _).
    assert (k_ r ≤ access_count_ n) as Hn.
    { rewrite Forall_forall in Hc. apply Hc. rewrite Hl.
      apply elem_of_app. right. by left. }
    exists l1, l2. right. split; [done|]. split; [lia|].
    rewrite !bool_decide_eq_false_2 in H by lia.
    rewrite He in H. simpl in H. by inversion H.
Qed.

Lemma RecordAccess_untracked r f :
  frame_id_ok r f = true → find_node r f = None →
  RecordAccess r f =
    Done (if bool_decide (k_ r = 1)
          then set_lists r (curr_size_ r) (inf_list_ r)
                 (countable_list_ r ++ [new_node f])
          else set_lists r (curr_size_ r) (inf_list_ r ++ [new_node f])
                 (countable_list_ r)).
Proof.
  intros Hok Hfind. unfold RecordAccess. rewrite Hok, Hfind. simpl.
  by case_bool_decide.
Qed.

Lemma RemoveInternal_tracked r f n :
  wf r → find_node r f = Some n → evictable_ n = true →
  ∃ l1 l2,
    (inf_list_ r = l1 ++ n :: l2 ∧
     RemoveInternal r f =
       Done (set_lists r (to_size_t (curr_size_ r - 1)) (l1 ++ l2)
               (countable_list_ r))) ∨
    (countable_list_ r = l1 ++ n :: l2 ∧
     RemoveInternal r f =
       Done (set_lists r (to_size_t (curr_size_ r - 1)) (inf_list_ r)
               (l1 ++ l2))).
Proof.
  intros [Hk Hi Hc Hnd] Hfind Hev. unfold RemoveInternal.
  rewrite Hfind, Hev. simpl.
  destruct (find_node_cases r f n Hfind) as [Ei|[Ei Ec]].
  - destruct (erase_node_first _ _ _ Ei) as (l1 & l2 & Hl & He & _).
    assert (access_count_ n < k_ r) as Hn.
    { rewrite Forall_forall in Hi. apply Hi. rewrite Hl.
      apply elem_of_app. right. by left. }
    exists l1, l2. left. split; [done|].
    rewrite bool_decide_eq_false_2 by lia. by rewrite He.
  - destruct (erase_node_first _ _ _ Ec) as (l1 & l2 & Hl & He & _).
    assert (k_ r ≤ access_count_ n) as Hn.
    { rewrite Forall_forall in Hc. apply Hc. rewrite Hl.
      apply elem_of_app. right. by left. }
    exists l1, l2. right. split; [done|].
    rewrite bool_decide_eq_true_2 by lia. by rewrite He.
Qed.

Lemma write_flag_tracked r sz f n flag :
  find_node r f = Some n →
  let n' := mkNode (frame_id_ n) (access_count_ n) flag in
  ∃ l1 l2,
    (inf_list_ r = l1 ++ n :: l2 ∧
     write_flag r sz f flag =
       set_lists r sz (l1 ++ n' :: l2) (countable_list_ r)) ∨
    (countable_list_ r = l1 ++ n :: l2 ∧
     write_flag r sz f flag =
       set_lists r sz (inf_list_ r) (l1 ++ n' :: l2)).
Proof.
  intros Hfind. simpl. unfold write_flag.
  destruct (find_node_cases r f n Hfind) as [Ei|[Ei Ec]].
  - destruct (set_flag_find _ _ _ flag Ei) as (l1 & l2 & Hl & _ & ->).
    exists l1, l2. by left.
  - rewrite (set_flag_None _ _ flag Ei).
    destruct (set_flag_find _ _ _ flag Ec) as (l1 & l2 & Hl & _ & ->).
    exists l1, l2. by right.
Qed.

(** [SetEvictable] by cases, on a frame id that passes the assertion. *)
Lemma SetEvictable_spec r f flag :
  frame_id_ok r f = true →
  SetEvictable r f flag =
    Done (match find_node r f with
          | None => r
          | Some n =>
              if bool_decide (evictable_ n = flag) then r
              else write_flag r
                     (to_size_t (curr_size_ r + (if flag then 1 else -1)))
                     f flag
          end).
Proof.
  intros Hok. unfold SetEvictable. rewrite Hok. simpl.
  destruct (find_node r f) as [n|]; [|done].
  destruct (evictable_ n), flag; simpl; done.
Qed.

(** *** The invariants, call by call *)

Lemma wf_set_lists r sz inf cnt :
  1 ≤ k_ r →
  Forall (λ n, access_count_ n < k_ r) inf →
  Forall (λ n, k_ r ≤ access_count_ n) cnt →
  NoDup (map frame_id_ (inf ++ cnt)) →
  wf (set_lists r sz inf cnt).
Proof. intros. by split. Qed.

Lemma wf_RecordAccess r f r' : wf r → RecordAccess r f = Done r' → wf r'.
Proof.
  intros Hwf H. pose proof Hwf as [Hk Hi Hc Hnd]. unfold nodes in Hnd.
  destruct (find_node r f) as [n|] eqn:Hfind.
  - destruct (find_node_Some _ _ _ Hfind) as [_ Hf].
    destruct (RecordAccess_tracked r f n r' Hwf Hfind H)
      as (l1 & l2 & [(Hl & [[Hlt ->]|[Heq ->]])|(Hl & Hgt & ->)]);
      rewrite Hl in Hi, Hnd || rewrite Hl in Hc, Hnd;
      apply wf_set_lists; try done.
    + rewrite ?Forall_app, ?Forall_cons, ?Forall_nil in *. simpl.
      intuition lia.
    + rewrite ?map_app in *. simpl in *. rewrite ?map_app in *.
      rewrite Hf in Hnd. eapply NoDup_Permutation_proper; [|exact Hnd].
      solve_Permutation.
    + rewrite ?Forall_app, ?Forall_cons in *. tauto.
    + rewrite ?Forall_app, ?Forall_cons, ?Forall_nil in *. simpl.
      intuition lia.
    + rewrite ?map_app in *. simpl in *. rewrite ?map_app in *.
      rewrite Hf in Hnd. eapply NoDup_Permutation_proper; [|exact Hnd].
      solve_Permutation.
    + rewrite ?Forall_app, ?Forall_cons, ?Forall_nil in *. simpl.
      intuition lia.
    + rewrite ?map_app in *. simpl in *. rewrite ?map_app in *.
      rewrite Hf in Hnd. eapply NoDup_Permutation_proper; [|exact Hnd].
      solve_Permutation.
  - assert (frame_id_ok r f = true) as Hok.
    { unfold RecordAccess in H. by destruct (frame_id_ok r f). }
    rewrite (RecordAccess_untracked r f Hok Hfind) in H. inversion H.
    apply find_node_None in Hfind. unfold tracked, nodes in Hfind.
    assert (NoDup (f :: map frame_id_ (inf_list_ r ++ countable_list_ r)))
      as Hnd' by (by apply NoDup_cons).
    case_bool_decide; apply wf_set_lists; try done.
    + rewrite ?Forall_app, ?Forall_cons, ?Forall_nil in *. simpl.
      intuition lia.
    + rewrite ?map_app in *. simpl.
      eapply NoDup_Permutation_proper; [|exact Hnd']. solve_Permutation.
    + rewrite ?Forall_app, ?Forall_cons, ?Forall_nil in *. simpl.
      intuition lia.
    + rewrite ?map_app in *. simpl.
      eapply NoDup_Permutation_proper; [|exact Hnd']. solve_Permutation.
Qed.

Lemma wf_SetEvictable r f flag r' :
  wf r → SetEvictable r f flag = Done r' → wf r'.
Proof.
  intros Hwf H. pose proof Hwf as [Hk Hi Hc Hnd]. unfold nodes in Hnd.
  assert (frame_id_ok r f = true) as Hok.
  { unfold SetEvictable in H. by destruct (frame_id_ok r f). }
  rewrite (SetEvictable_spec r f flag Hok) in H. inversion H; clear H.
  destruct (find_node r f) as [n|] eqn:Hfind; [|done].
  case_bool_decide; [done|].
  destruct (write_flag_tracked r
              (to_size_t (curr_size_ r + (if flag then 1 else -1))) f n flag
              Hfind) as (l1 & l2 & [(Hl & ->)|(Hl & ->)]);
    rewrite Hl in Hi, Hnd || rewrite Hl in Hc, Hnd;
    apply wf_set_lists; try done.
  - rewrite ?Forall_app, ?Forall_cons in *. simpl. tauto.
  - rewrite ?map_app in *. simpl in *. done.
  - rewrite ?Forall_app, ?Forall_cons in *. simpl. tauto.
  - rewrite ?map_app in *. simpl in *. done.
Qed.

Lemma wf_RemoveInternal r f r' : wf r → RemoveInternal r f = Done r' → wf r'.
Proof.
  intros Hwf H. pose proof Hwf as [Hk Hi Hc Hnd]. unfold nodes in Hnd.
  destruct (find_node r f) as [n|] eqn:Hfind.
  - destruct (evictable_ n) eqn:Hev.
    + destruct (RemoveInternal_tracked r f n Hwf Hfind Hev)
        as (l1 & l2 & [(Hl & He)|(Hl & He)]);
        rewrite He in H; inversion H;
        rewrite Hl in Hi, Hnd || rewrite Hl in Hc, Hnd;
        apply wf_set_lists; try done.
      * rewrite ?Forall_app, ?Forall_cons in *. tauto.
      * rewrite ?map_app in *. simpl in *.
        assert (NoDup (frame_id_ n ::
                         (map frame_id_ l1 ++ map frame_id_ l2) ++
                         map frame_id_ (countable_list_ r))) as Hnd'.
        { eapply NoDup_Permutation_proper; [|exact Hnd]. solve_Permutation. }
        by apply NoDup_cons in Hnd' as [_ ?].
      * rewrite ?Forall_app, ?Forall_cons in *. tauto.
      * rewrite ?map_app in *. simpl in *.
        assert (NoDup (frame_id_ n ::
                         map frame_id_ (inf_list_ r) ++
                         (map frame_id_ l1 ++ map frame_id_ l2))) as Hnd'.
        { eapply NoDup_Permutation_proper; [|exact Hnd]. solve_Permutation. }
        by apply NoDup_cons in Hnd' as [_ ?].
    + unfold RemoveInternal in H. by rewrite Hfind, Hev in H.
  - unfold RemoveInternal in H. rewrite Hfind in H. inversion H. by subst.
Qed.

Lemma wf_Evict r r' o : wf r → Evict r = Done (r', o) → wf r'.
Proof.
  intros Hwf H. unfold Evict in H.
  destruct (find evictable_ (inf_list_ r)) as [n|].
  - inv_bind H. inversion H; subst. by eapply wf_RemoveInternal.
  - destruct (find evictable_ (countable_list_ r)) as [n|].
    + inv_bind H. inversion H; subst. by eapply wf_RemoveInternal.
    + by inversion H; subst.
Qed.

Lemma wf_step r c r' : wf r → step r c = Done r' → wf r'.
Proof.
  destruct c as [f|f b|f|]; simpl; intros Hwf H.
  - by eapply wf_RecordAccess.
  - by eapply wf_SetEvictable.
  - by eapply wf_RemoveInternal.
  - inv_bind H. inversion H; subst. destruct a. by eapply wf_Evict.
Qed.

Lemma size_ok_RecordAccess r f r' :
  wf r → size_ok r → RecordAccess r f = Done r' → size_ok r'.
Proof.
  intros Hwf Hsz H. unfold size_ok, count_evictable, nodes in *.
  destruct (find_node r f) as [n|] eqn:Hfind.
  - destruct (RecordAccess_tracked r f n r' Hwf Hfind H)
      as (l1 & l2 & [(Hl & [[Hlt ->]|[Heq ->]])|(Hl & Hgt & ->)]);
      simpl; rewrite Hsz, Hl; f_equal; f_equal;
      rewrite ?ev_count_app, ?ev_count_cons, ?ev_count_nil; simpl; lia.
  - assert (frame_id_ok r f = true) as Hok.
    { unfold RecordAccess in H. by destruct (frame_id_ok r f). }
    rewrite (RecordAccess_untracked r f Hok Hfind) in H. inversion H.
    case_bool_decide; simpl; rewrite Hsz; f_equal; f_equal;
      rewrite ?ev_count_app, ?ev_count_cons, ?ev_count_nil; simpl; lia.
Qed.

Lemma ev_count_pos l1 n l2 :
  evictable_ n = true → (1 ≤ ev_count (l1 ++ n :: l2))%nat.
Proof.
  intros Hn. rewrite ev_count_app, ev_count_cons, Hn. lia.
Qed.

Lemma size_ok_SetEvictable r f flag r' :
  wf r → size_ok r → SetEvictable r f flag = Done r' → size_ok r'.
Proof.
  intros Hwf Hsz H. unfold size_ok, count_evictable, nodes in *.
  assert (frame_id_ok r f = true) as Hok.
  { unfold SetEvictable in H. by destruct (frame_id_ok r f). }
  rewrite (SetEvictable_spec r f flag Hok) in H. inversion H; clear H.
  destruct (find_node r f) as [n|] eqn:Hfind; [|done].
  case_bool_decide as Hflag; [done|].
  destruct (write_flag_tracked r
              (to_size_t (curr_size_ r + (if flag then 1 else -1))) f n flag
              Hfind) as (l1 & l2 & [(Hl & ->)|(Hl & ->)]);
    simpl; rewrite Hsz, Hl, to_size_t_add; f_equal;
    rewrite ?ev_count_app, ?ev_count_cons; simpl;
    destruct (evictable_ n), flag; try done; lia.
Qed.

Lemma size_ok_RemoveInternal r f r' :
  wf r → size_ok r → RemoveInternal r f = Done r' → size_ok r'.
Proof.
  intros Hwf Hsz H. unfold size_ok, count_evictable, nodes in *.
  destruct (find_node r f) as [n|] eqn:Hfind.
  - destruct (evictable_ n) eqn:Hev.
    + destruct (RemoveInternal_tracked r f n Hwf Hfind Hev)
        as (l1 & l2 & [(Hl & He)|(Hl & He)]);
        rewrite He in H; inversion H; simpl;
        rewrite Hsz, Hl, to_size_t_sub; f_equal;
        rewrite ?ev_count_app, ?ev_count_cons, Hev; lia.
    + unfold RemoveInternal in H. by rewrite Hfind, Hev in H.
  - unfold RemoveInternal in H. rewrite Hfind in H. inversion H. by subst.
Qed.

Lemma size_ok_step r c r' : wf r → size_ok r → step r c = Done r' → size_ok r'.
Proof.
  destruct c as [f|f b|f|]; simpl; intros Hwf Hsz H.
  - by eapply size_ok_RecordAccess.
  - by eapply size_ok_SetEvictable.
  - by eapply size_ok_RemoveInternal.
  - inv_bind H. inversion H; subst. destruct a as [r1 o]. simpl.
    unfold Evict in Ha.
    destruct (find evictable_ (inf_list_ r)) as [n|].
    + inv_bind Ha. inversion Ha; subst. by eapply size_ok_RemoveInternal.
    + destruct (find evictable_ (countable_list_ r)) as [n|].
      * inv_bind Ha. inversion Ha; subst. by eapply size_ok_RemoveInternal.
      * by inversion Ha; subst.
Qed.

Lemma run_invariant r cs r' :
  wf r → size_ok r → run r cs = Done r' → wf r' ∧ size_ok r'.
Proof.
  revert r. induction cs as [|c cs IH]; simpl; intros r Hwf Hsz H.
  - by inversion H; subst.
  - inv_bind H. apply (IH a); [by eapply wf_step | by eapply size_ok_step | done].
Qed.

Lemma new_replacer_invariant num_frames k :
  1 ≤ k → wf (new_replacer num_frames k) ∧ size_ok (new_replacer num_frames k).
Proof.
  intros Hk. split; [|done]. split; simpl; try done; constructor.
Qed.

End ReplacerFacts.

(** ** LRU-K replacer: properties of the operations *)

Section ReplacerProperties.

Import LRUK ReplacerSpec.
Local Open Scope Z_scope.

Implicit Types (r : LRUKReplacer) (n : LRUKNode) (l : list LRUKNode) (f : Z).

(** In every state reached from the constructor (k at least 1) through calls
    of [RecordAccess], [SetEvictable], [Remove] and [Evict] that return,
    History holds the nodes with fewer than k accesses, Cache the others, and
    no frame has two nodes. *)
Theorem reachable_wf num_frames k cs r :
  1 ≤ k → run (new_replacer num_frames k) cs = Done r → wf r.
Proof.
  intros Hk H. destruct (new_replacer_invariant num_frames k Hk) as [Hwf Hsz].
  by destruct (run_invariant _ _ _ Hwf Hsz H).
Qed.

(** In every such state [Size] is the number of evictable nodes (as a
    [size_t]). *)
Theorem reachable_Size num_frames k cs r :
  1 ≤ k → run (new_replacer num_frames k) cs = Done r →
  Size r = to_size_t (Z.of_nat (count_evictable r)).
Proof.
  intros Hk H. destruct (new_replacer_invariant num_frames k Hk) as [Hwf Hsz].
  by destruct (run_invariant _ _ _ Hwf Hsz H).
Qed.

(** The assertion of [RecordAccess] and of [SetEvictable] fails exactly for
    the frame ids above [(int) replacer_size_]. *)
Theorem frame_id_assertion r f flag :
  (RecordAccess r f = AssertFail ↔ to_int (replacer_size_ r) < f) ∧
  (SetEvictable r f flag = AssertFail ↔ to_int (replacer_size_ r) < f).
Proof.
  unfold RecordAccess, SetEvictable, frame_id_ok.
  case_bool_decide as Hok; simpl.
  - split; (split; [|lia]); intros H; exfalso.
    + destruct (find_node r f) as [n|].
      * repeat case_bool_decide;
          match type of H with
          | context [erase_node ?l ?g] =>
              pose proof (erase_node_not_abort l g) as [? ?];
              destruct (erase_node l g); simpl in H; done
          end.
      * by case_bool_decide.
    + destruct (find_node r f) as [n|]; [|done].
      by destruct (evictable_ n), flag.
  - split; (split; [lia | done]).
Qed.


(** [Evict] on a well-formed replacer: the victim had an evictable node; that
    node is erased and every other node keeps its list and its order; the
    victim is no longer tracked and [Size] goes down by one. *)
Theorem Evict_removes_victim r r' f :
  wf r → Evict r = Done (r', Some f) →
  (∃ n, find_node r f = Some n ∧ evictable_ n = true) ∧
  inf_list_ r' = filter (other_frame f) (inf_list_ r) ∧
  countable_list_ r' = filter (other_frame f) (countable_list_ r) ∧
  ¬ tracked r' f ∧
  curr_size_ r' = to_size_t (curr_size_ r - 1).
Proof.
  intros Hwf H. pose proof Hwf as [Hk Hi Hc Hnd].
  assert (∃ n, n ∈ nodes r ∧ evictable_ n = true ∧ frame_id_ n = f ∧
               RemoveInternal r f = Done r') as (n & Hin & Hev & Hf & Hrm).
  { unfold Evict in H.
    destruct (find evictable_ (inf_list_ r)) as [n|] eqn:E1.
    - inv_bind H. inversion H; subst. apply find_some in E1 as [Hin Hev].
      exists n. repeat split; try done. apply elem_of_app. left.
      by apply list_elem_of_In.
    - destruct (find evictable_ (countable_list_ r)) as [n|] eqn:E2; [|done].
      inv_bind H. inversion H; subst. apply find_some in E2 as [Hin Hev].
      exists n. repeat split; try done. apply elem_of_app. right.
      by apply list_elem_of_In. }
  pose proof (find_node_NoDup r n Hnd Hin) as Hfind. rewrite Hf in Hfind.
  split; [eauto|].
  assert (inf_list_ r' = filter (other_frame f) (inf_list_ r) ∧
          countable_list_ r' = filter (other_frame f) (countable_list_ r) ∧
          curr_size_ r' = to_size_t (curr_size_ r - 1)) as (Hi' & Hc' & Hs').
  { unfold nodes in Hnd. rewrite map_app in Hnd.
    apply NoDup_app in Hnd as (Hni & Hdisj & Hnc).
    destruct (RemoveInternal_tracked r f n Hwf Hfind Hev)
      as (l1 & l2 & [(Hl & He)|(Hl & He)]);
      rewrite He in Hrm; inversion Hrm; simpl; (split; [|split; [|done]]).
    - rewrite Hl, <- Hf. symmetry. apply filter_other_frame_mid.
      by rewrite <- Hl.
    - symmetry. apply filter_other_frame_id. apply Hdisj.
      rewrite Hl, map_app, <- Hf. simpl. apply elem_of_app. right. by left.
    - symmetry. apply filter_other_frame_id. intros Hfi.
      apply (Hdisj f Hfi). rewrite Hl, map_app, <- Hf. simpl.
      apply elem_of_app. right. by left.
    - rewrite Hl, <- Hf. symmetry. apply filter_other_frame_mid.
      by rewrite <- Hl. }
  split; [done|]. split; [done|]. split; [|done].
  unfold tracked, nodes. rewrite Hi', Hc', map_app, elem_of_app.
  intros [Hin'|Hin']; apply list_elem_of_fmap in Hin' as (m & Hm & Hmin);
    apply list_elem_of_filter in Hmin as [Ho _]; unfold other_frame in Ho;
    congruence.
Qed.

(** [Remove]: no effect on an untracked frame; the assertion fails on a node
    that is not evictable; an evictable node of a well-formed replacer is
    erased, after which the frame is untracked and [Size] is one less. *)
Theorem Remove_replacer_cases r f :
  (find_node r f = None → Remove r f = Done r) ∧
  (∀ n, find_node r f = Some n → evictable_ n = false →
        Remove r f = AssertFail) ∧
  (∀ n, wf r → find_node r f = Some n → evictable_ n = true →
        ∃ r', Remove r f = Done r' ∧ find_node r' f = None ∧
              curr_size_ r' = to_size_t (curr_size_ r - 1)).
Proof.
  unfold Remove. split; [|split].
  - intros E. unfold RemoveInternal. by rewrite E.
  - intros n E Hev. unfold RemoveInternal. by rewrite E, Hev.
  - intros n Hwf E Hev. pose proof Hwf as [Hk Hi Hc Hnd].
    destruct (find_node_Some _ _ _ E) as [_ Hf].
    unfold nodes in Hnd. rewrite map_app in Hnd.
    destruct (RemoveInternal_tracked r f n Hwf E Hev)
      as (l1 & l2 & [(Hl & ->)|(Hl & ->)]); eexists; (split; [done|]);
      (split; [|done]); apply find_node_None; unfold tracked, nodes; simpl;
      rewrite Hl, ?map_app in Hnd; simpl in Hnd; rewrite ?map_app;
      intros Hin.
    + assert (NoDup (f :: (map frame_id_ l1 ++ map frame_id_ l2) ++
                          map frame_id_ (countable_list_ r))) as Hnd'.
      { rewrite <- Hf. eapply NoDup_Permutation_proper; [|exact Hnd].
        solve_Permutation. }
      apply NoDup_cons in Hnd' as [Hn _]. done.
    + assert (NoDup (f :: map frame_id_ (inf_list_ r) ++
                          (map frame_id_ l1 ++ map frame_id_ l2))) as Hnd'.
      { rewrite <- Hf. eapply NoDup_Permutation_proper; [|exact Hnd].
        solve_Permutation. }
      apply NoDup_cons in Hnd' as [Hn _]. done.
Qed.

(** [SetEvictable] with a frame id that passes the assertion: no effect on an
    untracked frame or when the flag is already set that way; otherwise the
    flag of the frame's node is overwritten, [Size] moves by one, and the
    nodes keep their places. *)
Theorem SetEvictable_cases r f flag :
  frame_id_ok r f = true →
  (find_node r f = None → SetEvictable r f flag = Done r) ∧
  (∀ n, find_node r f = Some n → evictable_ n = flag →
        SetEvictable r f flag = Done r) ∧
  (∀ n, find_node r f = Some n → evictable_ n ≠ flag →
        ∃ r', SetEvictable r f flag = Done r' ∧
              find_node r' f =
                Some (mkNode (frame_id_ n) (access_count_ n) flag) ∧
              curr_size_ r' =
                to_size_t (curr_size_ r + (if flag then 1 else -1)) ∧
              map frame_id_ (inf_list_ r') = map frame_id_ (inf_list_ r) ∧
              map frame_id_ (countable_list_ r')
                = map frame_id_ (countable_list_ r)).
Proof.
  intros Hok. rewrite (SetEvictable_spec r f flag Hok).
  split; [|split].
  - by intros ->.
  - intros n -> Hn. by rewrite bool_decide_eq_true_2.
  - intros n Hfind Hn. rewrite Hfind, bool_decide_eq_false_2 by done.
    eexists. split; [done|].
    destruct (find_node_Some _ _ _ Hfind) as [_ Hf].
    destruct (find_node_cases r f n Hfind) as [Ei|[Ei Ec]].
    + destruct (set_flag_find _ _ _ flag Ei) as (l1 & l2 & Hl & Hl1 & Hs).
      unfold write_flag. rewrite Hs. simpl. rewrite Hl.
      split; [|split; [done|split; [|done]]].
      * unfold find_node. simpl. rewrite <- Hf in Hl1 |- *.
        pose proof (find_has_frame_app l1
                      (mkNode (frame_id_ n) (access_count_ n) flag) l2 Hl1)
          as Hx.
        simpl in Hx. by rewrite Hx.
      * rewrite !map_app. done.
    + destruct (set_flag_find _ _ _ flag Ec) as (l1 & l2 & Hl & Hl1 & Hs).
      unfold write_flag. rewrite (set_flag_None _ _ flag Ei), Hs. simpl.
      rewrite Hl. split; [|split; [done|split; [done|]]].
      * unfold find_node. simpl. rewrite Ei. rewrite <- Hf in Hl1 |- *.
        pose proof (find_has_frame_app l1
                      (mkNode (frame_id_ n) (access_count_ n) flag) l2 Hl1)
          as Hx.
        simpl in Hx. by rewrite Hx.
      * rewrite !map_app. done.
Qed.

(** On a well-formed replacer no iterator is erased from a list it is not
    in: [RecordAccess] and [SetEvictable] return for every frame id that
    passes the assertion, and [Evict] always returns. *)
Theorem wf_calls_return r f flag :
  wf r → frame_id_ok r f = true →
  (∃ r', RecordAccess r f = Done r' ∧ wf r') ∧
  (∃ r', SetEvictable r f flag = Done r' ∧ wf r') ∧
  (∃ r' o, Evict r = Done (r', o) ∧ wf r').
Proof.
  intros Hwf Hok. pose proof Hwf as [Hk Hi Hc Hnd].
  assert (∃ r', RecordAccess r f = Done r') as [r1 H1].
  { destruct (find_node r f) as [n|] eqn:Hfind.
    - unfold RecordAccess. rewrite Hok, Hfind. simpl.
      destruct (find_node_cases r f n Hfind) as [Ei|[Ei Ec]].
      + destruct (erase_node_first _ _ _ Ei) as (l1 & l2 & Hl & -> & _).
        assert (access_count_ n < k_ r) as Hn.
        { rewrite Forall_forall in Hi. apply Hi. rewrite Hl.
          apply elem_of_app. right. by left. }
        case_bool_decide; simpl; [eauto|].
        rewrite bool_decide_eq_true_2 by lia. simpl. eauto.
      + destruct (erase_node_first _ _ _ Ec) as (l1 & l2 & Hl & -> & _).
        assert (k_ r ≤ access_count_ n) as Hn.
        { rewrite Forall_forall in Hc. apply Hc. rewrite Hl.
          apply elem_of_app. right. by left. }
        rewrite !bool_decide_eq_false_2 by lia. simpl. eauto.
    - rewrite (RecordAccess_untracked r f Hok Hfind). eauto. }
  split; [|split].
  - exists r1. split; [done|]. by eapply wf_RecordAccess.
  - rewrite (SetEvictable_spec r f flag Hok). eexists. split; [done|].
    eapply wf_SetEvictable; [done|]. apply (SetEvictable_spec r f flag Hok).
  - destruct (Evict r) as [[r' o]| | |] eqn:E.
    + exists r', o. split; [done|]. by eapply wf_Evict.
    + exfalso. unfold Evict in E.
      destruct (find evictable_ (inf_list_ r)) as [n|] eqn:E1.
      * apply find_some in E1 as [Hin Hev].
        destruct (RemoveInternal_returns r n Hwf) as [r' Hr'];
          [apply elem_of_app; left; by apply list_elem_of_In | done |].
        by rewrite Hr' in E.
      * destruct (find evictable_ (countable_list_ r)) as [n|] eqn:E2; [|done].
        apply find_some in E2 as [Hin Hev].
        destruct (RemoveInternal_returns r n Hwf) as [r' Hr'];
          [apply elem_of_app; right; by apply list_elem_of_In | done |].
        by rewrite Hr' in E.
    + exfalso. unfold Evict in E.
      destruct (find evictable_ (inf_list_ r)) as [n|] eqn:E1.
      * apply find_some in E1 as [Hin Hev].
        destruct (RemoveInternal_returns r n Hwf) as [r' Hr'];
          [apply elem_of_app; left; by apply list_elem_of_In | done |].
        by rewrite Hr' in E.
      * destruct (find evictable_ (countable_list_ r)) as [n|] eqn:E2; [|done].
        apply find_some in E2 as [Hin Hev].
        destruct (RemoveInternal_returns r n Hwf) as [r' Hr'];
          [apply elem_of_app; right; by apply list_elem_of_In | done |].
        by rewrite Hr' in E.
    + exfalso. unfold Evict in E.
      destruct (find evictable_ (inf_list_ r)) as [n|] eqn:E1.
      * apply find_some in E1 as [Hin Hev].
        destruct (RemoveInternal_returns r n Hwf) as [r' Hr'];
          [apply elem_of_app; left; by apply list_elem_of_In | done |].
        by rewrite Hr' in E.
      * destruct (find evictable_ (countable_list_ r)) as [n|] eqn:E2; [|done].
        apply find_some in E2 as [Hin Hev].
        destruct (RemoveInternal_returns r n Hwf) as [r' Hr'];
          [apply elem_of_app; right; by apply list_elem_of_In | done |].
        by rewrite Hr' in E.
Qed.

End ReplacerProperties.

Section ReplacerExamples.

Import LRUK ReplacerSpec.
Local Open Scope Z_scope.

(** History is not kept in order of first access.  With k = 3 and the
    accesses 1, 2, 1, both frames are in History and evictable, frame 1 was
    first recorded before frame 2, and [Evict] returns frame 2: the second
    access moved frame 1 behind it. *)
Lemma Evict_not_earliest_first_recorded :
  ¬ evicts_earliest_first_recorded 7 3
      [Access 1; Access 2; Access 1; Mark 1 true; Mark 2 true].
Proof.
  intros H.
  destruct (H (mkReplacer 7 3 2 [mkNode 2 1 true; mkNode 1 2 true] []) 1)
    as [r' Hr'].
  - vm_compute. reflexivity.
  - split.
    + exists (mkNode 1 2 true). split; [|done]. simpl.
      apply elem_of_cons. right. apply elem_of_cons. by left.
    + intros g (n & Hin & <- & _). simpl in Hin.
      apply elem_of_cons in Hin as [->|Hin]; [simpl; lia|].
      apply elem_of_cons in Hin as [->|Hin]; [simpl; lia|].
      by apply elem_of_nil in Hin.
  - vm_compute in Hr'. discriminate.
Qed.

(** C6 (the code at the failing input).  On a replacer for 7 frames,
    [RecordAccess] and [SetEvictable] with frame id 7, and with frame id -1,
    pass the assertion [frame_id <= (int)replacer_size_] and return;
    [RecordAccess] starts tracking the frame. *)
Theorem RecordAccess_accepts_pool_size :
  RecordAccess (new_replacer 7 2) 7
    = Done (mkReplacer 7 2 0 [mkNode 7 1 false] []) ∧
  SetEvictable (new_replacer 7 2) 7 true = Done (new_replacer 7 2) ∧
  RecordAccess (new_replacer 7 2) (-1)
    = Done (mkReplacer 7 2 0 [mkNode (-1) 1 false] []) ∧
  SetEvictable (new_replacer 7 2) (-1) true = Done (new_replacer 7 2).
Proof. repeat split; vm_compute; reflexivity. Qed.

End ReplacerExamples.

(** ** LRU-K replacer: the order of eviction *)

Section ReplacerOrder.

Import LRUK ReplacerSpec.
Local Open Scope Z_scope.

Implicit Types (r : LRUKReplacer) (f g : Z) (n : LRUKNode)
  (l : list LRUKNode) (cs : list call) (ids : list Z).

Lemma run_snoc r cs c :
  run r (cs ++ [c]) = (r' ← run r cs; step r' c).
Proof.
  revert r. induction cs as [|c0 cs IH]; intros r; simpl.
  - by destruct (step r c).
  - destruct (step r c0) as [r0| | |]; simpl; [apply IH | done..].
Qed.

Lemma since_access_snoc cs c g :
  since_access (cs ++ [c]) g =
  match c with
  | Access f => if bool_decide (f = g) then 0%nat else S (since_access cs g)
  | _ => S (since_access cs g)
  end.
Proof.
  unfold since_access. rewrite reverse_app. simpl. by destruct c.
Qed.

Lemma by_last_access_app cs ids1 ids2 :
  by_last_access cs (ids1 ++ ids2) ↔
  by_last_access cs ids1 ∧ by_last_access cs ids2 ∧
  ∀ a b, a ∈ ids1 → b ∈ ids2 →
         (since_access cs b < since_access cs a)%nat.
Proof.
  induction ids1 as [|f ids1 IH]; simpl.
  - split; [|tauto]. intros H. repeat split; [done|].
    intros a b Ha. by apply elem_of_nil in Ha.
  - rewrite Forall_app, IH. split.
    + intros ((Hf1 & Hf2) & H1 & H2 & H12). repeat split; try done.
      intros a b Ha Hb. apply elem_of_cons in Ha as [->|Ha]; [|by apply H12].
      rewrite Forall_forall in Hf2. by apply Hf2.
    + intros ((Hf1 & H1) & H2 & H12). repeat split; try done.
      * apply Forall_forall. intros b Hb. apply H12; [by left | done].
      * intros a b Ha Hb. apply H12; [by right | done].
Qed.

(** One more call that is not an access of a frame of [ids] keeps the
    order. *)
Lemma by_last_access_shift cs cs' ids :
  (∀ g, g ∈ ids → since_access cs' g = S (since_access cs g)) →
  by_last_access cs ids → by_last_access cs' ids.
Proof.
  induction ids as [|f ids IH]; simpl; [done|].
  intros Hs [Hf Hrest]. split.
  - rewrite Forall_forall in Hf |- *. intros g Hg.
    rewrite (Hs f), (Hs g); [|by right|by left].
    apply Hf in Hg. lia.
  - apply IH; [|done]. intros g Hg. apply Hs. by right.
Qed.

(** The frame that was just accessed goes to the back. *)
Lemma by_last_access_snoc cs ids f :
  f ∉ ids → by_last_access cs ids →
  by_last_access (cs ++ [Access f]) (ids ++ [f]).
Proof.
  intros Hf Hs. apply by_last_access_app. split; [|split].
  - eapply by_last_access_shift; [|exact Hs].
    intros g Hg. rewrite since_access_snoc.
    rewrite bool_decide_eq_false_2; [done|]. by intros ->.
  - simpl. split; [apply Forall_nil_2 | done].
  - intros a b Ha Hb. apply list_elem_of_singleton in Hb. subst b.
    rewrite !since_access_snoc.
    rewrite bool_decide_eq_true_2 by done.
    rewrite bool_decide_eq_false_2; [lia|]. by intros ->.
Qed.

Lemma by_last_access_remove cs ids1 f ids2 :
  by_last_access cs (ids1 ++ f :: ids2) → by_last_access cs (ids1 ++ ids2).
Proof.
  rewrite !by_last_access_app. simpl.
  intros (H1 & (_ & H2) & H12). repeat split; try done.
  intros a b Ha Hb. apply H12; [done | by right].
Qed.

(** [SetEvictable] leaves every node where it is. *)
Lemma set_flag_ids l f flag l' :
  set_flag l f flag = Some l' → map frame_id_ l' = map frame_id_ l.
Proof.
  revert l'. induction l as [|n l IH]; intros l' H; simpl in H; [done|].
  destruct (has_frame f n).
  - by inversion H.
  - destruct (set_flag l f flag) as [l0|]; simpl in H; [|done].
    inversion H. simpl. f_equal. by apply IH.
Qed.

Lemma write_flag_ids r sz f flag :
  map frame_id_ (inf_list_ (write_flag r sz f flag))
    = map frame_id_ (inf_list_ r) ∧
  map frame_id_ (countable_list_ (write_flag r sz f flag))
    = map frame_id_ (countable_list_ r).
Proof.
  unfold write_flag.
  destruct (set_flag (inf_list_ r) f flag) as [l|] eqn:E1; simpl.
  - split; [by eapply set_flag_ids | done].
  - destruct (set_flag (countable_list_ r) f flag) as [l|] eqn:E2; simpl.
    + split; [done | by eapply set_flag_ids].
    + done.
Qed.

Lemma SetEvictable_ids r f flag r' :
  SetEvictable r f flag = Done r' →
  map frame_id_ (inf_list_ r') = map frame_id_ (inf_list_ r) ∧
  map frame_id_ (countable_list_ r') = map frame_id_ (countable_list_ r).
Proof.
  unfold SetEvictable. intros H.
  destruct (negb (frame_id_ok r f)); [done|].
  destruct (find_node r f) as [n|]; [|by inversion H].
  destruct (negb (evictable_ n)), flag; simpl in H; inversion H;
    try done; apply write_flag_ids.
Qed.

(** [RemoveInternal] erases at most one node and keeps the others in
    order. *)
Lemma RemoveInternal_ids r f r' :
  wf r → RemoveInternal r f = Done r' →
  (r' = r) ∨
  (∃ ids1 ids2,
     map frame_id_ (inf_list_ r) = ids1 ++ f :: ids2 ∧
     map frame_id_ (inf_list_ r') = ids1 ++ ids2 ∧
     countable_list_ r' = countable_list_ r) ∨
  (∃ ids1 ids2,
     map frame_id_ (countable_list_ r) = ids1 ++ f :: ids2 ∧
     map frame_id_ (countable_list_ r') = ids1 ++ ids2 ∧
     inf_list_ r' = inf_list_ r).
Proof.
  intros Hwf H. destruct (find_node r f) as [n|] eqn:E.
  - destruct (evictable_ n) eqn:Hev.
    + destruct (find_node_Some _ _ _ E) as [_ Hf].
      destruct (RemoveInternal_tracked r f n Hwf E Hev)
        as (l1 & l2 & [(Hl & He)|(Hl & He)]);
        rewrite He in H; inversion H; simpl.
      * right. left. exists (map frame_id_ l1), (map frame_id_ l2).
        rewrite Hl, !map_app. simpl. by rewrite Hf.
      * right. right. exists (map frame_id_ l1), (map frame_id_ l2).
        rewrite Hl, !map_app. simpl. by rewrite Hf.
    + unfold RemoveInternal in H. by rewrite E, Hev in H.
  - unfold RemoveInternal in H. rewrite E in H. left. by inversion H.
Qed.

Lemma RemoveInternal_by_last_access cs c r f r' :
  (∀ g, since_access (cs ++ [c]) g = S (since_access cs g)) →
  wf r →
  by_last_access cs (map frame_id_ (inf_list_ r)) →
  by_last_access cs (map frame_id_ (countable_list_ r)) →
  RemoveInternal r f = Done r' →
  by_last_access (cs ++ [c]) (map frame_id_ (inf_list_ r')) ∧
  by_last_access (cs ++ [c]) (map frame_id_ (countable_list_ r')).
Proof.
  intros Hs Hwf Hi Hc H.
  assert (∀ ids, by_last_access cs ids → by_last_access (cs ++ [c]) ids)
    as Hshift.
  { intros ids. apply by_last_access_shift. intros g _. apply Hs. }
  destruct (RemoveInternal_ids r f r' Hwf H)
    as [->|[(i1 & i2 & E1 & E2 & E3)|(i1 & i2 & E1 & E2 & E3)]].
  - split; by apply Hshift.
  - rewrite E2, E3. split; [|by apply Hshift].
    apply Hshift. rewrite E1 in Hi. by eapply by_last_access_remove.
  - rewrite E2, E3. split; [by apply Hshift|].
    apply Hshift. rewrite E1 in Hc. by eapply by_last_access_remove.
Qed.

(** Each call keeps both lists in the order of the last accesses. *)
Lemma step_by_last_access cs r c r' :
  wf r →
  by_last_access cs (map frame_id_ (inf_list_ r)) →
  by_last_access cs (map frame_id_ (countable_list_ r)) →
  step r c = Done r' →
  by_last_access (cs ++ [c]) (map frame_id_ (inf_list_ r')) ∧
  by_last_access (cs ++ [c]) (map frame_id_ (countable_list_ r')).
Proof.
  intros Hwf Hi Hc H. pose proof Hwf as [Hk _ _ Hnd].
  unfold nodes in Hnd. rewrite map_app in Hnd.
  destruct c as [f|f flag|f|]; simpl in H.
  - (* RecordAccess *)
    assert (∀ ids, f ∉ ids → by_last_access cs ids →
                   by_last_access (cs ++ [Access f]) ids) as Hshift.
    { intros ids Hf. apply by_last_access_shift. intros g Hg.
      rewrite since_access_snoc. rewrite bool_decide_eq_false_2; [done|].
      by intros ->. }
    destruct (find_node r f) as [n|] eqn:E.
    + destruct (find_node_Some _ _ _ E) as [_ Hf].
      destruct (RecordAccess_tracked r f n r' Hwf E H)
        as (l1 & l2 & [(Hl & [(_ & ->)|(_ & ->)])|(Hl & _ & ->)]); simpl.
      * rewrite Hl in Hnd, Hi. rewrite !map_app in Hnd. rewrite map_app in Hi.
        rewrite !map_app. simpl in Hnd, Hi |- *. rewrite Hf in Hnd, Hi.
        assert (NoDup (f :: (map frame_id_ l1 ++ map frame_id_ l2) ++
                            map frame_id_ (countable_list_ r))) as Hnd'.
        { eapply NoDup_Permutation_proper; [|exact Hnd]. solve_Permutation. }
        apply NoDup_cons in Hnd' as [Hn _].
        rewrite not_elem_of_app in Hn. destruct Hn as [Hn1 Hn2].
        split.
        -- apply by_last_access_snoc; [done|].
           by eapply by_last_access_remove.
        -- by apply Hshift.
      * rewrite Hl in Hnd, Hi. rewrite !map_app in Hnd. rewrite map_app in Hi.
        rewrite !map_app. simpl in Hnd, Hi |- *. rewrite Hf in Hnd, Hi.
        assert (NoDup (f :: (map frame_id_ l1 ++ map frame_id_ l2) ++
                            map frame_id_ (countable_list_ r))) as Hnd'.
        { eapply NoDup_Permutation_proper; [|exact Hnd]. solve_Permutation. }
        apply NoDup_cons in Hnd' as [Hn _].
        rewrite not_elem_of_app in Hn. destruct Hn as [Hn1 Hn2].
        split.
        -- apply Hshift; [done|]. by eapply by_last_access_remove.
        -- by apply by_last_access_snoc.
      * rewrite Hl in Hnd, Hc. rewrite !map_app in Hnd. rewrite map_app in Hc.
        rewrite !map_app. simpl in Hnd, Hc |- *. rewrite Hf in Hnd, Hc.
        assert (NoDup (f :: map frame_id_ (inf_list_ r) ++
                            (map frame_id_ l1 ++ map frame_id_ l2))) as Hnd'.
        { eapply NoDup_Permutation_proper; [|exact Hnd]. solve_Permutation. }
        apply NoDup_cons in Hnd' as [Hn _].
        rewrite not_elem_of_app in Hn. destruct Hn as [Hn1 Hn2].
        split.
        -- by apply Hshift.
        -- apply by_last_access_snoc; [done|].
           by eapply by_last_access_remove.
    + assert (frame_id_ok r f = true) as Hok.
      { unfold RecordAccess in H. by destruct (frame_id_ok r f). }
      rewrite (RecordAccess_untracked r f Hok E) in H.
      apply find_node_None in E. unfold tracked, nodes in E.
      rewrite map_app, not_elem_of_app in E. destruct E as [E1 E2].
      inversion H. case_bool_decide; simpl; rewrite map_app; simpl.
      * split; [by apply Hshift | by apply by_last_access_snoc].
      * split; [by apply by_last_access_snoc | by apply Hshift].
  - (* SetEvictable *)
    destruct (SetEvictable_ids r f flag r' H) as [-> ->].
    split; (eapply by_last_access_shift; [|eassumption]);
      intros g _; by rewrite since_access_snoc.
  - (* Remove *)
    eapply RemoveInternal_by_last_access; eauto.
    intros g. by rewrite since_access_snoc.
  - (* Evict *)
    inv_bind H. destruct a as [r0 o]. inversion H; subst r'. simpl.
    assert (r0 = r ∨ ∃ f, RemoveInternal r f = Done r0) as [->|[f Hrm]].
    { unfold Evict in Ha.
      destruct (find evictable_ (inf_list_ r)) as [n|].
      - inv_bind Ha. inversion Ha; subst. eauto.
      - destruct (find evictable_ (countable_list_ r)) as [n|].
        + inv_bind Ha. inversion Ha; subst. eauto.
        + inversion Ha. auto. }
    + split; (eapply by_last_access_shift; [|eassumption]);
        intros g _; by rewrite since_access_snoc.
    + eapply RemoveInternal_by_last_access; eauto.
      intros g. by rewrite since_access_snoc.
Qed.

Lemma run_by_last_access num_frames k cs r :
  1 ≤ k → run (new_replacer num_frames k) cs = Done r →
  wf r ∧
  by_last_access cs (map frame_id_ (inf_list_ r)) ∧
  by_last_access cs (map frame_id_ (countable_list_ r)).
Proof.
  intros Hk. revert r. induction cs as [|c cs IH] using rev_ind; intros r H.
  - inversion H. split; [by apply new_replacer_invariant | done].
  - rewrite run_snoc in H. inv_bind H.
    destruct (IH a Ha) as (Hwf & Hi & Hc).
    split; [by eapply wf_step|]. by eapply step_by_last_access.
Qed.

(** In a list kept in the order of the last accesses, the evictable frame
    nearest the front is the one accessed the longest ago. *)
Lemma front_least_recently_accessed cs l f :
  by_last_access cs (map frame_id_ l) → front_evictable l f →
  least_recently_accessed cs l f.
Proof.
  intros Hs (l1 & n & l2 & -> & Hl1 & Hev & Hf). split.
  - exists n. split; [|done]. apply elem_of_app. right. by left.
  - intros g (m & Hm & Hg & Hmev) Hne.
    rewrite map_app in Hs. simpl in Hs.
    apply by_last_access_app in Hs as (_ & (Hn & _) & _).
    apply elem_of_app in Hm as [Hm|Hm].
    + rewrite Forall_forall in Hl1. apply Hl1 in Hm. congruence.
    + apply elem_of_cons in Hm as [->|Hm]; [congruence|].
      rewrite Forall_forall in Hn. rewrite <- Hg, <- Hf. apply Hn.
      apply list_elem_of_fmap. by exists m.
Qed.

End ReplacerOrder.

Section ReplacerOrderProperties.

Import LRUK ReplacerSpec.
Local Open Scope Z_scope.

(** C5 (amended).  On a replacer made with k at least 1 and driven by calls
    that return, History holds the frames with fewer than k accesses and
    Cache the others, and [Evict] returns; when it yields a frame, that frame
    is the evictable frame of History that was accessed the longest ago, or,
    History holding no evictable frame, the evictable frame of Cache that was
    accessed the longest ago; and it yields none exactly when no tracked
    frame is evictable. *)
Theorem Evict_least_recently_accessed num_frames k cs r :
  1 ≤ k → run (new_replacer num_frames k) cs = Done r →
  wf r ∧
  ∃ r' o,
    Evict r = Done (r', o) ∧
    (o = None ↔ none_evictable (nodes r)) ∧
    match o with
    | Some f =>
        least_recently_accessed cs (inf_list_ r) f ∨
        (none_evictable (inf_list_ r) ∧
         least_recently_accessed cs (countable_list_ r) f)
    | None => none_evictable (nodes r)
    end.
Proof.
  intros Hk Hrun.
  destruct (run_by_last_access num_frames k cs r Hk Hrun) as (Hwf & Hi & Hc).
  split; [exact Hwf|].
  destruct (Evict_front_most r Hwf) as (H1 & H2 & H3).
  assert (∀ l n, find evictable_ l = Some n →
                 ¬ none_evictable (inf_list_ r ++ l)) as Hsome.
  { intros l n Hn Hnone. apply Forall_app in Hnone as [_ Hnone].
    apply find_evictable_None in Hnone. congruence. }
  destruct (find evictable_ (inf_list_ r)) as [n|] eqn:E1.
  - assert (front_evictable (inf_list_ r) (frame_id_ n)) as Hfront.
    { apply find_evictable_front. eauto. }
    destruct (H1 _ Hfront) as [r' Hr']. exists r', (Some (frame_id_ n)).
    split; [done|]. split.
    + split; [done|]. intros Hnone. exfalso.
      unfold nodes in Hnone. apply Forall_app in Hnone as [Hnone _].
      apply find_evictable_None in Hnone. congruence.
    + left. by apply front_least_recently_accessed.
  - apply find_evictable_None in E1.
    destruct (find evictable_ (countable_list_ r)) as [n|] eqn:E2.
    + assert (front_evictable (countable_list_ r) (frame_id_ n)) as Hfront.
      { apply find_evictable_front. eauto. }
      destruct (H2 E1 _ Hfront) as [r' Hr']. exists r', (Some (frame_id_ n)).
      split; [done|]. split.
      * split; [done|]. intros Hnone. exfalso. by eapply Hsome.
      * right. split; [done|]. by apply front_least_recently_accessed.
    + apply find_evictable_None in E2.
      assert (none_evictable (nodes r)) as Hnone.
      { unfold none_evictable, nodes. by apply Forall_app. }
      destruct (proj2 H3 Hnone) as [r' Hr']. exists r', None. done.
Qed.

(** Cache is not kept in the order in which the frames reached k accesses.
    With k = 2 and the accesses 1, 1, 2, 2, 1, both frames are in Cache and
    evictable, frame 1 reached 2 accesses before frame 2, and [Evict] returns
    frame 2: the third access of frame 1 moved it behind frame 2. *)
Lemma Evict_not_earliest_reached_K :
  ¬ evicts_earliest_reached_K 7 2
      [Access 1; Access 1; Access 2; Access 2; Access 1;
       Mark 1 true; Mark 2 true].
Proof.
  intros H.
  destruct (H (mkReplacer 7 2 2 [] [mkNode 2 2 true; mkNode 1 3 true]) 1)
    as [r' Hr'].
  - vm_compute. reflexivity.
  - constructor.
  - split.
    + exists (mkNode 1 3 true). split; [|done]. simpl.
      apply elem_of_cons. right. apply elem_of_cons. by left.
    + intros g (n & Hin & <- & _). simpl in Hin.
      apply elem_of_cons in Hin as [->|Hin]; [simpl; lia|].
      apply elem_of_cons in Hin as [->|Hin]; [simpl; lia|].
      by apply elem_of_nil in Hin.
  - vm_compute in Hr'. discriminate.
Qed.

(** C5 (counterexample).  Neither list is kept in order of arrival: History
    is not in the order of the first accesses, and Cache is not in the order
    in which the frames reached k accesses. *)
Theorem Evict_not_in_arrival_order :
  ¬ evicts_earliest_first_recorded 7 3
      [Access 1; Access 2; Access 1; Mark 1 true; Mark 2 true] ∧
  ¬ evicts_earliest_reached_K 7 2
      [Access 1; Access 1; Access 2; Access 2; Access 1;
       Mark 1 true; Mark 2 true].
Proof.
  split; [apply Evict_not_earliest_first_recorded
         | apply Evict_not_earliest_reached_K].
Qed.

Lemma Evict_least_recently_accessed_witness :
  wf Examples.r_two ∧
  ∃ r' o,
    Evict Examples.r_two = Done (r', o) ∧
    (o = None ↔ none_evictable (nodes Examples.r_two)) ∧
    match o with
    | Some f =>
        least_recently_accessed Examples.calls_two
          (inf_list_ Examples.r_two) f ∨
        (none_evictable (inf_list_ Examples.r_two) ∧
         least_recently_accessed Examples.calls_two
           (countable_list_ Examples.r_two) f)
    | None => none_evictable (nodes Examples.r_two)
    end.
Proof.
  apply (Evict_least_recently_accessed 7 3 Examples.calls_two Examples.r_two).
  - lia.
  - vm_compute. reflexivity.
Defined.

End ReplacerOrderProperties.

(** ** LRU-K replacer: the node of one frame across the calls *)

Section ReplacerNodes.

Import LRUK ReplacerSpec.
Local Open Scope Z_scope.

Implicit Types (r : LRUKReplacer) (f g : Z) (n : LRUKNode)
  (l : list LRUKNode).

Lemma has_frame_false g n : frame_id_ n ≠ g → has_frame g n = false.
Proof. intros H. unfold has_frame. by apply bool_decide_eq_false. Qed.

Lemma find_erase_node_ne l f l' g :
  erase_node l f = Done l' → g ≠ f →
  find (has_frame g) l' = find (has_frame g) l.
Proof.
  revert l'. induction l as [|n l IH]; intros l' H Hne; simpl in H; [done|].
  destruct (has_frame f n) eqn:Hn.
  - inversion H; subst l'. simpl. apply has_frame_true in Hn.
    rewrite has_frame_false; [done | congruence].
  - inv_bind H. inversion H; subst l'. simpl.
    destruct (has_frame g n); [done|]. by apply IH.
Qed.

Lemma find_snoc_ne l n g :
  frame_id_ n ≠ g → find (has_frame g) (l ++ [n]) = find (has_frame g) l.
Proof.
  intros Hne. induction l as [|m l IH]; simpl.
  - by rewrite has_frame_false.
  - by destruct (has_frame g m).
Qed.

Lemma find_set_flag_ne l f flag l' g :
  set_flag l f flag = Some l' → g ≠ f →
  find (has_frame g) l' = find (has_frame g) l.
Proof.
  revert l'. induction l as [|n l IH]; intros l' H Hne; simpl in H; [done|].
  destruct (has_frame f n) eqn:Hn.
  - inversion H; subst l'. simpl. apply has_frame_true in Hn.
    rewrite !has_frame_false; [done | congruence | simpl; congruence].
  - destruct (set_flag l f flag) as [l0|]; simpl in H; [|done].
    inversion H; subst l'. simpl.
    destruct (has_frame g n); [done|]. by apply IH.
Qed.

(** *** The calls leave the nodes of the other frames alone *)

Lemma RecordAccess_other r f r' g :
  RecordAccess r f = Done r' → g ≠ f →
  find_node r' g = find_node r g ∧ replacer_size_ r' = replacer_size_ r.
Proof.
  unfold RecordAccess. intros H Hne.
  destruct (negb (frame_id_ok r f)); [done|].
  destruct (find_node r f) as [n|].
  - repeat case_bool_decide; inv_bind H; inversion H; subst r';
      unfold find_node; simpl; (split; [|done]);
      rewrite ?find_snoc_ne by (simpl; congruence);
      by rewrite (find_erase_node_ne _ _ _ g Ha Hne).
  - case_bool_decide; inversion H; subst r'; unfold find_node; simpl;
      (split; [|done]); by rewrite find_snoc_ne by (simpl; congruence).
Qed.

Lemma write_flag_other r sz f flag g :
  g ≠ f →
  find_node (write_flag r sz f flag) g = find_node r g ∧
  replacer_size_ (write_flag r sz f flag) = replacer_size_ r.
Proof.
  intros Hne. unfold write_flag.
  destruct (set_flag (inf_list_ r) f flag) as [l|] eqn:E1.
  - unfold find_node. simpl.
    by rewrite (find_set_flag_ne _ _ _ _ g E1 Hne).
  - destruct (set_flag (countable_list_ r) f flag) as [l|] eqn:E2.
    + unfold find_node. simpl.
      by rewrite (find_set_flag_ne _ _ _ _ g E2 Hne).
    + done.
Qed.

Lemma SetEvictable_other r f flag r' g :
  SetEvictable r f flag = Done r' → g ≠ f →
  find_node r' g = find_node r g ∧ replacer_size_ r' = replacer_size_ r.
Proof.
  unfold SetEvictable. intros H Hne.
  destruct (negb (frame_id_ok r f)); [done|].
  destruct (find_node r f) as [n|]; [|by inversion H].
  destruct (negb (evictable_ n)), flag; simpl in H; inversion H;
    try done; by apply write_flag_other.
Qed.

Lemma RemoveInternal_other r f r' g :
  RemoveInternal r f = Done r' → g ≠ f →
  find_node r' g = find_node r g ∧ replacer_size_ r' = replacer_size_ r.
Proof.
  unfold RemoveInternal. intros H Hne.
  destruct (find_node r f) as [n|]; [|by inversion H].
  destruct (negb (evictable_ n)); [done|].
  case_bool_decide; inv_bind H; inversion H; subst r'; unfold find_node;
    simpl; (split; [|done]); by rewrite (find_erase_node_ne _ _ _ g Ha Hne).
Qed.

Lemma Evict_other r r' o g :
  Evict r = Done (r', o) → o ≠ Some g →
  find_node r' g = find_node r g ∧ replacer_size_ r' = replacer_size_ r.
Proof.
  unfold Evict. intros H Hne.
  destruct (find evictable_ (inf_list_ r)) as [n|].
  - inv_bind H. inversion H; subst. eapply RemoveInternal_other; eauto.
    congruence.
  - destruct (find evictable_ (countable_list_ r)) as [n|].
    + inv_bind H. inversion H; subst. eapply RemoveInternal_other; eauto.
      congruence.
    + by inversion H.
Qed.

Lemma RecordAccess_size r f r' :
  RecordAccess r f = Done r' →
  replacer_size_ r' = replacer_size_ r ∧ frame_id_ok r f = true.
Proof.
  unfold RecordAccess. intros H.
  destruct (frame_id_ok r f); [|done]. simpl in H. split; [|done].
  destruct (find_node r f) as [n|].
  - repeat case_bool_decide; inv_bind H; by inversion H.
  - case_bool_decide; by inversion H.
Qed.

Lemma SetEvictable_size r f flag r' :
  SetEvictable r f flag = Done r' →
  replacer_size_ r' = replacer_size_ r ∧ frame_id_ok r f = true.
Proof.
  unfold SetEvictable. intros H.
  destruct (frame_id_ok r f); [|done]. simpl in H. split; [|done].
  destruct (find_node r f) as [n|]; [|by inversion H].
  destruct (negb (evictable_ n)), flag; simpl in H; inversion H;
    try done; unfold write_flag;
    destruct (set_flag (inf_list_ r) f _); try done;
    by destruct (set_flag (countable_list_ r) f _).
Qed.

Lemma frame_id_ok_size r r' f :
  replacer_size_ r' = replacer_size_ r → frame_id_ok r' f = frame_id_ok r f.
Proof. unfold frame_id_ok. by intros ->. Qed.

(** *** The node of the frame of the call *)

Lemma SetEvictable_self r f flag r' :
  SetEvictable r f flag = Done r' →
  match find_node r f with
  | Some n =>
      find_node r' f = Some (mkNode (frame_id_ n) (access_count_ n) flag)
  | None => r' = r
  end.
Proof.
  intros H. destruct (SetEvictable_size _ _ _ _ H) as [_ Hok].
  rewrite (SetEvictable_spec r f flag Hok) in H.
  destruct (find_node r f) as [n|] eqn:Hfind; [|by inversion H].
  case_bool_decide as Hflag.
  - inversion H; subst r'. rewrite Hfind. f_equal. destruct n. simpl in *.
    by subst.
  - inversion H; subst r'. clear H.
    destruct (find_node_Some _ _ _ Hfind) as [_ Hf].
    destruct (find_node_cases r f n Hfind) as [Ei|[Ei Ec]].
    + destruct (set_flag_find _ _ _ flag Ei) as (l1 & l2 & Hl & Hl1 & Hs).
      unfold write_flag. rewrite Hs. unfold find_node. simpl.
      rewrite <- Hf in Hl1 |- *.
      pose proof (find_has_frame_app l1
                    (mkNode (frame_id_ n) (access_count_ n) flag) l2 Hl1)
        as Hx.
      simpl in Hx. by rewrite Hx.
    + destruct (set_flag_find _ _ _ flag Ec) as (l1 & l2 & Hl & Hl1 & Hs).
      unfold write_flag. rewrite (set_flag_None _ _ flag Ei), Hs.
      unfold find_node. simpl. rewrite Ei. rewrite <- Hf in Hl1 |- *.
      pose proof (find_has_frame_app l1
                    (mkNode (frame_id_ n) (access_count_ n) flag) l2 Hl1)
        as Hx.
      simpl in Hx. by rewrite Hx.
Qed.

Lemma RecordAccess_self r f r' :
  wf r → RecordAccess r f = Done r' →
  ∃ n', find_node r' f = Some n' ∧
        evictable_ n' = match find_node r f with
                        | Some n => evictable_ n
                        | None => false
                        end.
Proof.
  intros Hwf H. pose proof (wf_RecordAccess r f r' Hwf H) as [_ _ _ Hnd'].
  assert (∀ n', frame_id_ n' = f → n' ∈ nodes r' →
                find_node r' f = Some n') as Hfind.
  { intros n' <- Hin. by apply find_node_NoDup. }
  destruct (find_node r f) as [n|] eqn:E.
  - destruct (RecordAccess_tracked r f n r' Hwf E H)
      as (l1 & l2 & [(_ & [(_ & ->)|(_ & ->)])|(_ & _ & ->)]);
      exists (mkNode f (access_count_ n + 1) (evictable_ n));
      (split; [apply Hfind; [reflexivity|]|reflexivity]);
      unfold nodes; simpl; rewrite !elem_of_app, !elem_of_cons; tauto.
  - destruct (RecordAccess_size _ _ _ H) as [_ Hok].
    rewrite (RecordAccess_untracked r f Hok E) in H. inversion H; subst r'.
    exists (new_node f). split; [|done]. apply Hfind; [done|].
    case_bool_decide; unfold nodes; simpl;
      rewrite !elem_of_app, !elem_of_cons; tauto.
Qed.

Lemma Remove_self r f n :
  wf r → find_node r f = Some n → evictable_ n = true →
  ∃ r', Remove r f = Done r' ∧ find_node r' f = None ∧ wf r'.
Proof.
  intros Hwf E Hev. pose proof Hwf as [Hk Hi Hc Hnd].
  destruct (find_node_Some _ _ _ E) as [_ Hf].
  unfold nodes in Hnd. rewrite map_app in Hnd. unfold Remove.
  destruct (RemoveInternal_tracked r f n Hwf E Hev)
    as (l1 & l2 & [(Hl & Hrm)|(Hl & Hrm)]);
    pose proof (wf_RemoveInternal r f _ Hwf Hrm) as Hwf';
    rewrite Hrm; eexists; (split; [done|]); (split; [|done]);
    apply find_node_None; unfold tracked, nodes; simpl;
    rewrite Hl, ?map_app in Hnd; simpl in Hnd; rewrite ?map_app;
    intros Hin.
  - assert (NoDup (f :: (map frame_id_ l1 ++ map frame_id_ l2) ++
                        map frame_id_ (countable_list_ r))) as Hnd'.
    { rewrite <- Hf. eapply NoDup_Permutation_proper; [|exact Hnd].
      solve_Permutation. }
    apply NoDup_cons in Hnd' as [Hn _]. done.
  - assert (NoDup (f :: map frame_id_ (inf_list_ r) ++
                        (map frame_id_ l1 ++ map frame_id_ l2))) as Hnd'.
    { rewrite <- Hf. eapply NoDup_Permutation_proper; [|exact Hnd].
      solve_Permutation. }
    apply NoDup_cons in Hnd' as [Hn _]. done.
Qed.

(** The victim of [Evict] has no node afterwards. *)
Lemma Evict_self r r' f :
  wf r → Evict r = Done (r', Some f) → find_node r' f = None ∧ wf r'.
Proof.
  intros Hwf H. split; [|by eapply wf_Evict].
  assert (∃ n, n ∈ nodes r ∧ evictable_ n = true ∧ frame_id_ n = f ∧
               RemoveInternal r f = Done r') as (n & Hin & Hev & Hf & Hrm).
  { unfold Evict in H.
    destruct (find evictable_ (inf_list_ r)) as [n|] eqn:E1.
    - inv_bind H. inversion H; subst. apply find_some in E1 as [Hin Hev].
      exists n. repeat split; try done. apply elem_of_app. left.
      by apply list_elem_of_In.
    - destruct (find evictable_ (countable_list_ r)) as [n|] eqn:E2; [|done].
      inv_bind H. inversion H; subst. apply find_some in E2 as [Hin Hev].
      exists n. repeat split; try done. apply elem_of_app. right.
      by apply list_elem_of_In. }
  pose proof Hwf as [_ _ _ Hnd].
  pose proof (find_node_NoDup r n Hnd Hin) as Hfind. rewrite Hf in Hfind.
  destruct (Remove_self r f n Hwf Hfind Hev) as (r0 & Hr0 & Hnone & _).
  unfold Remove in Hr0. rewrite Hrm in Hr0. by inversion Hr0; subst.
Qed.

End ReplacerNodes.

Section ReplacerWitnesses.

Import LRUK ReplacerSpec Examples.
Local Open Scope Z_scope.

Lemma r_two_wf : wf r_two.
Proof.
  split; simpl.
  - lia.
  - repeat constructor; simpl; lia.
  - constructor.
  - unfold nodes. simpl. compute_done.
Qed.

Lemma reachable_wf_witness :
  run (new_replacer 7 3) calls_two = Done r_two ∧ wf r_two.
Proof.
  split; [vm_compute; reflexivity|].
  apply (reachable_wf 7 3 calls_two r_two); [lia | vm_compute; reflexivity].
Defined.

Lemma reachable_Size_witness :
  Size r_two = to_size_t (Z.of_nat (count_evictable r_two)).
Proof.
  apply (reachable_Size 7 3 calls_two r_two); [lia | vm_compute; reflexivity].
Defined.


Lemma Evict_removes_victim_witness :
  Evict r_two = Done (mkReplacer 7 3 1 [mkNode 1 2 true] [], Some 2) ∧
  ¬ tracked (mkReplacer 7 3 1 [mkNode 1 2 true] []) 2.
Proof.
  split; [vm_compute; reflexivity|].
  destruct (Evict_removes_victim r_two
              (mkReplacer 7 3 1 [mkNode 1 2 true] []) 2 r_two_wf)
    as (_ & _ & _ & H & _).
  - vm_compute. reflexivity.
  - exact H.
Defined.

Lemma Remove_replacer_cases_witness :
  Remove r_two 5 = Done r_two ∧
  ∃ r', Remove r_two 1 = Done r' ∧ find_node r' 1 = None ∧
        curr_size_ r' = to_size_t (curr_size_ r_two - 1).
Proof.
  split.
  - apply (proj1 (Remove_replacer_cases r_two 5)). vm_compute. reflexivity.
  - apply (proj2 (proj2 (Remove_replacer_cases r_two 1)) (mkNode 1 2 true)
             r_two_wf).
    + vm_compute. reflexivity.
    + reflexivity.
Defined.

Lemma SetEvictable_cases_witness :
  ∃ r', SetEvictable r_two 1 false = Done r' ∧
        find_node r' 1 = Some (mkNode 1 2 false) ∧
        curr_size_ r' = to_size_t (curr_size_ r_two + -1) ∧
        map frame_id_ (inf_list_ r') = map frame_id_ (inf_list_ r_two) ∧
        map frame_id_ (countable_list_ r')
          = map frame_id_ (countable_list_ r_two).
Proof.
  refine (proj2 (proj2 (SetEvictable_cases r_two 1 false _))
            (mkNode 1 2 true) _ _).
  - vm_compute. reflexivity.
  - vm_compute. reflexivity.
  - simpl. discriminate.
Defined.

Lemma wf_calls_return_witness :
  (∃ r', RecordAccess r_two 7 = Done r' ∧ wf r') ∧
  (∃ r', SetEvictable r_two 7 true = Done r' ∧ wf r') ∧
  (∃ r' o, Evict r_two = Done (r', o) ∧ wf r').
Proof.
  apply (wf_calls_return r_two 7 true r_two_wf). vm_compute. reflexivity.
Defined.

End ReplacerWitnesses.

(** ** Index arithmetic *)

Section IndexArithmetic.

(** The test [(x & (1 << d)) != 0] reads bit [d]. *)
Lemma land_shl1_testbit (a : Z) (d : nat) :
  Z.land a (EHT.shl1 d) ≠ 0%Z ↔ Z.testbit a (Z.of_nat d) = true.
Proof.
  unfold EHT.shl1. rewrite Z.shiftl_1_l.
  destruct (Z.testbit a (Z.of_nat d)) eqn:E; split; intros H; try done.
  - intros H0.
    assert (Z.testbit (Z.land a (2 ^ Z.of_nat d)) (Z.of_nat d) = true) as Hb.
    { rewrite Z.land_spec, E, Z.pow2_bits_true by lia. done. }
    rewrite H0, Z.bits_0 in Hb. done.
  - exfalso. apply H. apply Z.bits_inj'. intros m Hm.
    rewrite Z.land_spec, Z.bits_0.
    destruct (decide (m = Z.of_nat d)) as [->|Hne].
    + by rewrite E.
    + rewrite Z.pow2_bits_false by lia. apply andb_false_r.
Qed.

(** [x & ((1 << g) - 1)] is [x mod 2^g]. *)
Lemma land_mask (a : Z) (g : nat) :
  Z.land a (EHT.shl1 g - 1) = (a mod 2 ^ Z.of_nat g)%Z.
Proof.
  unfold EHT.shl1. rewrite Z.shiftl_1_l, Z.sub_1_r, <- Z.ones_equiv.
  apply Z.land_ones. lia.
Qed.

Lemma low_lt a g : low a g < 2 ^ g.
Proof.
  unfold low. pose proof (Z.mod_pos_bound a (2 ^ Z.of_nat g)) as H.
  assert (0 < 2 ^ Z.of_nat g)%Z by (apply Z.pow_pos_nonneg; lia).
  apply Nat2Z.inj_lt. rewrite Z2Nat.id, Nat2Z.inj_pow by lia. simpl. lia.
Qed.

Lemma low_mod a g d : d ≤ g → low a g mod 2 ^ d = low a d.
Proof.
  intros Hd. unfold low.
  assert (0 < 2 ^ Z.of_nat g)%Z by (apply Z.pow_pos_nonneg; lia).
  assert (0 < 2 ^ Z.of_nat d)%Z by (apply Z.pow_pos_nonneg; lia).
  pose proof (Z.mod_pos_bound a (2 ^ Z.of_nat g)).
  apply Nat2Z.inj. rewrite Nat2Z.inj_mod, Nat2Z.inj_pow, !Z2Nat.id; simpl.
  - apply Z.mod_mod_divide.
    exists (2 ^ Z.of_nat (g - d))%Z. rewrite <- Z.pow_add_r by lia.
    f_equal. lia.
  - apply Z.mod_pos_bound. lia.
  - lia.
Qed.

Lemma low_testbit a g d :
  d < g → Z.testbit (Z.of_nat (low a g)) (Z.of_nat d) = Z.testbit a (Z.of_nat d).
Proof.
  intros Hd. unfold low. rewrite Z2Nat.id.
  - apply Z.mod_pow2_bits_low. lia.
  - apply Z.mod_pos_bound. apply Z.pow_pos_nonneg; lia.
Qed.

(** Two indexes agree on their low [d+1] bits when they agree on the low
    [d] bits and on bit [d]. *)
Lemma mod_pow2_succ (i j d : nat) :
  i mod 2 ^ S d = j mod 2 ^ S d ↔
  i mod 2 ^ d = j mod 2 ^ d ∧
  Z.testbit (Z.of_nat i) (Z.of_nat d) = Z.testbit (Z.of_nat j) (Z.of_nat d).
Proof.
  assert (∀ x : nat,
            Z.of_nat (x mod 2 ^ S d) =
            (Z.of_nat (x mod 2 ^ d) +
             2 ^ Z.of_nat d * Z.b2z (Z.testbit (Z.of_nat x) (Z.of_nat d)))%Z)
    as Hdec.
  { intros x. rewrite Z.testbit_spec' by lia.
    rewrite !Nat2Z.inj_mod, !Nat2Z.inj_pow.
    change (Z.of_nat 2) with 2%Z. rewrite Nat2Z.inj_succ.
    rewrite Z.pow_succ_r, (Z.mul_comm 2) by lia.
    apply Z.rem_mul_r; [|lia].
    apply Z.pow_nonzero; lia. }
  assert (2 ^ d ≠ 0) as Hpos by (apply Nat.pow_nonzero; lia).
  pose proof (Nat.mod_upper_bound i (2 ^ d) Hpos) as Hi.
  pose proof (Nat.mod_upper_bound j (2 ^ d) Hpos) as Hj.
  apply Nat2Z.inj_lt in Hi, Hj. rewrite Nat2Z.inj_pow in Hi, Hj. simpl in *.
  rewrite <- (Nat2Z.inj_iff (i mod 2 ^ S d)), !Hdec.
  rewrite <- (Nat2Z.inj_iff (i mod 2 ^ d)).
  destruct (Z.testbit (Z.of_nat i) (Z.of_nat d)),
           (Z.testbit (Z.of_nat j) (Z.of_nat d)); simpl; split;
    try (intros [-> _]; done); intros; try (split; [lia|done]); exfalso; lia.
Qed.

Lemma mod_pow2_le (i j d e : nat) :
  d ≤ e → i mod 2 ^ e = j mod 2 ^ e → i mod 2 ^ d = j mod 2 ^ d.
Proof.
  intros Hle Heq.
  replace e with (d + (e - d)) in Heq by lia.
  rewrite Nat.pow_add_r in Heq.
  rewrite !Nat.Div0.mod_mul_r in Heq.
  assert (2 ^ d ≠ 0) as Hpos by (apply Nat.pow_nonzero; lia).
  pose proof (Nat.mod_upper_bound i (2 ^ d) Hpos).
  pose proof (Nat.mod_upper_bound j (2 ^ d) Hpos).
  assert (∀ a b x y, a < 2 ^ d → b < 2 ^ d →
            a + 2 ^ d * x = b + 2 ^ d * y → a = b) as Hu.
  { intros a b x y Ha Hb Hab.
    rewrite <- (Nat.mod_small a (2 ^ d)), <- (Nat.mod_small b (2 ^ d)) by done.
    rewrite <- (Nat.Div0.mod_add a x), <- (Nat.Div0.mod_add b y).
    f_equal. lia. }
  eapply Hu; eauto.
Qed.

Lemma low_mod_nat (j g e : nat) :
  e ≤ g → (j mod 2 ^ g) mod 2 ^ e = j mod 2 ^ e.
Proof.
  intros Hle. apply (mod_pow2_le _ _ e g Hle).
  apply Nat.Div0.mod_mod.
Qed.

Lemma filter_length_ext {A} (P Q : A → Prop)
    `{!∀ x, Decision (P x)} `{!∀ x, Decision (Q x)} (l : list A) :
  (∀ x, x ∈ l → P x ↔ Q x) → length (filter P l) = length (filter Q l).
Proof.
  induction l as [|x l IH]; intros Hext; [done|].
  rewrite !filter_cons.
  assert (P x ↔ Q x) as Hx by (apply Hext; left).
  assert (length (filter P l) = length (filter Q l)) as Hl.
  { apply IH. intros y Hy. apply Hext. by right. }
  destruct (decide (P x)), (decide (Q x)); simpl; try tauto; by rewrite Hl.
Qed.

Lemma filter_length_fmap {A B} (f : A → B) (P : B → Prop)
    `{!∀ x, Decision (P x)} (l : list A) :
  length (filter P (f <$> l)) = length (filter (λ x, P (f x)) l).
Proof.
  induction l as [|x l IH]; [done|]. rewrite fmap_cons, !filter_cons.
  destruct (decide (P (f x))); simpl; try f_equal; exact IH.
Qed.

Lemma count_eq_seq (c n : nat) :
  c < n → length (filter (λ j, j = c) (seq 0 n)) = 1.
Proof.
  induction n as [|n IH]; intros Hc; [lia|].
  rewrite seq_S, filter_app, length_app. simpl.
  destruct (decide (c = n)) as [->|Hcn].
  - rewrite filter_cons_True by done. simpl.
    rewrite (filter_length_ext _ (λ _, False)).
    + clear. induction (seq 0 n) as [|x l IHl]; [done|].
      rewrite filter_cons_False by tauto. exact IHl.
    + intros j Hj. apply elem_of_seq in Hj. lia.
  - rewrite filter_cons_False by lia. rewrite filter_nil. simpl.
    rewrite IH by lia. done.
Qed.

(** Among the indexes below [2^g], [2^(g - d)] agree with [c] on the low
    [d] bits. *)
Lemma count_mod_pow2 (g d c : nat) :
  d ≤ g →
  length (filter (λ j, j mod 2 ^ d = c mod 2 ^ d) (seq 0 (2 ^ g))) = 2 ^ (g - d).
Proof.
  induction g as [|g IH]; intros Hd.
  - assert (d = 0) as -> by lia. simpl. done.
  - destruct (decide (d = S g)) as [->|Hne].
    + rewrite Nat.sub_diag. simpl Nat.pow at 4.
      assert (2 ^ S g ≠ 0) as Hpos by (apply Nat.pow_nonzero; lia).
      pose proof (Nat.mod_upper_bound c (2 ^ S g) Hpos) as Hc.
      rewrite (filter_length_ext _ (λ j, j = c mod 2 ^ S g)).
      * by apply count_eq_seq.
      * intros j Hj. apply elem_of_seq in Hj.
        rewrite (Nat.mod_small j) by lia. done.
    + replace (S g - d) with (S (g - d)) by lia.
      rewrite (Nat.pow_succ_r' 2 g), (Nat.pow_succ_r' 2 (g - d)).
      replace (2 * 2 ^ g) with (2 ^ g + 2 ^ g) by lia.
      rewrite seq_app, filter_app, length_app, IH by lia. simpl.
      replace (seq (2 ^ g) (2 ^ g)) with (Nat.add (2 ^ g) <$> seq 0 (2 ^ g))
        by (rewrite fmap_add_seq; f_equal; lia).
      rewrite filter_length_fmap.
      rewrite (filter_length_ext _ (λ j, j mod 2 ^ d = c mod 2 ^ d)).
      * rewrite IH by lia. lia.
      * intros j _.
        replace (2 ^ g) with (2 ^ (g - d) * 2 ^ d).
        -- by rewrite Nat.add_comm, Nat.Div0.mod_add.
        -- rewrite <- Nat.pow_add_r. f_equal. lia.
Qed.

End IndexArithmetic.

(** ** Extendible hash table: the directory *)

Section DirectoryFacts.

Import EHT TableSpec.

(** The doubling loop of the first version appends a copy of the directory:
    [dir_[i]] is read before the vector grows past [capacity]. *)
Lemma push_copies_take (d : list nat) (n i : nat) :
  i + n ≤ length d →
  push_copies i n (d ++ take i d) = Done (d ++ take (i + n) d).
Proof.
  revert i. induction n as [|n IH]; intros i Hle; simpl.
  - by rewrite Nat.add_0_r.
  - destruct (lookup_lt_is_Some_2 d i) as [x Hx]; [lia|].
    unfold at_index. rewrite lookup_app_l, Hx by lia. simpl.
    rewrite <- app_assoc, <- (take_S_r _ _ _ Hx).
    rewrite IH by lia. do 3 f_equal. lia.
Qed.

Lemma push_copies_double (d : list nat) :
  push_copies 0 (length d) d = Done (d ++ d).
Proof.
  pose proof (push_copies_take d (length d) 0) as H.
  simpl in H. rewrite app_nil_r, firstn_all in H. apply H. lia.
Qed.

Lemma lookup_double (d : list nat) (j : nat) :
  j < 2 * length d → (d ++ d) !! j = d !! (j mod length d).
Proof.
  intros Hj. destruct (decide (j < length d)) as [Hlt|Hge].
  - rewrite lookup_app_l, Nat.mod_small by lia. done.
  - rewrite lookup_app_r by lia. f_equal.
    replace j with ((j - length d) + 1 * length d) at 2 by lia.
    rewrite Nat.Div0.mod_add, Nat.mod_small by lia. done.
Qed.

(** Doubling keeps the shape: index [j] of the doubled directory holds what
    index [j mod 2^g] held. *)
Lemma shaped_double g d ld : shaped g d ld → shaped (S g) (d ++ d) ld.
Proof.
  intros [Hlen Hpat]. split.
  - rewrite length_app, Hlen. simpl. lia.
  - intros i p Hi.
    assert (i < 2 * length d) as Hilt.
    { apply lookup_lt_Some in Hi. rewrite length_app in Hi. lia. }
    rewrite lookup_double in Hi by done.
    destruct (Hpat _ _ Hi) as (e & He & Hle & Hiff).
    exists e. split; [done|]. split; [lia|].
    intros j Hj. rewrite length_app in Hj.
    rewrite lookup_double by lia.
    assert (length d ≠ 0) as Hpos by (rewrite Hlen; apply Nat.pow_nonzero; lia).
    rewrite Hiff by (by apply Nat.mod_upper_bound).
    rewrite Hlen.
    split; intros E.
    + rewrite <- (low_mod_nat j g e), <- (low_mod_nat i g e) by done. done.
    + rewrite (low_mod_nat j g e), (low_mod_nat i g e) by done. done.
Qed.

(** The directory loop of a split, entry by entry. *)
Lemma repoint_lookup tp p0 p1 e (d : list nat) j :
  repoint tp p0 p1 (shl1 e) d !! j =
  (λ q, if decide (q = tp)
        then (if Z.testbit (Z.of_nat j) (Z.of_nat e) then p1 else p0)
        else q) <$> d !! j.
Proof.
  unfold repoint. rewrite list_lookup_imap.
  destruct (d !! j) as [q|]; simpl; [|done]. f_equal.
  destruct (decide (q = tp)) as [->|Hne].
  - rewrite bool_decide_eq_true_2 by done.
    destruct (Z.testbit (Z.of_nat j) (Z.of_nat e)) eqn:Eb.
    + rewrite bool_decide_eq_true_2; [done|]. by apply land_shl1_testbit.
    + rewrite bool_decide_eq_false_2; [done|].
      rewrite land_shl1_testbit, Eb. done.
  - by rewrite bool_decide_eq_false_2.
Qed.

(** A split keeps the shape: the entries of the target are divided between
    two fresh buckets of depth [e + 1] by bit [e] of their index. *)
Lemma shaped_split g d ld ld' i tp e p0 p1 :
  shaped g d ld →
  d !! i = Some tp → ld tp = Some e → e < g →
  p0 ≠ p1 → p0 ∉ d → p1 ∉ d →
  ld' p0 = Some (S e) → ld' p1 = Some (S e) →
  (∀ q, q ∈ d → q ≠ tp → ld' q = ld q) →
  shaped g (repoint tp p0 p1 (shl1 e) d) ld'.
Proof.
  intros [Hlen Hpat] Hi He Hlt H01 Hp0 Hp1 Hl0 Hl1 Hother.
  assert (length (repoint tp p0 p1 (shl1 e) d) = length d) as Hrl
    by apply length_imap.
  split; [by rewrite Hrl|].
  intros i' p Hi'. rewrite Hrl.
  rewrite repoint_lookup in Hi'.
  apply fmap_Some in Hi' as (q & Hq & ->).
  assert (q ∈ d) as Hqin by (eapply list_elem_of_lookup_2; eauto).
  destruct (Hpat _ _ Hq) as (eq & Heq & Hle & Hiff).
  destruct (decide (q = tp)) as [->|Hne].
  - rewrite He in Heq. inversion Heq; subst eq. clear Heq.
    exists (S e). split; [by destruct (Z.testbit _ _)|]. split; [lia|].
    intros j Hj. rewrite repoint_lookup, mod_pow2_succ, <- (Hiff j Hj).
    destruct (d !! j) as [q'|] eqn:Hq'; simpl.
    + assert (q' ∈ d) as Hq'in by (eapply list_elem_of_lookup_2; eauto).
      destruct (decide (q' = tp)) as [->|Hne'].
      * destruct (Z.testbit (Z.of_nat i') (Z.of_nat e)),
                 (Z.testbit (Z.of_nat j) (Z.of_nat e));
          split; try done; try (intros [_ ?]; done);
          intros E; inversion E; congruence.
      * split.
        -- intros E. inversion E; subst q'.
           destruct (Z.testbit (Z.of_nat i') (Z.of_nat e)); tauto.
        -- intros [E _]. inversion E. done.
    + split; [done | intros [? _]; done].
  - exists eq. rewrite (Hother q Hqin Hne). split; [done|]. split; [done|].
    intros j Hj. rewrite <- (Hiff j Hj), repoint_lookup.
    destruct (d !! j) as [q'|] eqn:Hq'; simpl; [|done].
    assert (q' ∈ d) as Hq'in by (eapply list_elem_of_lookup_2; eauto).
    destruct (decide (q' = tp)) as [->|Hne']; [|done].
    split; intros E; inversion E; [|congruence].
    destruct (Z.testbit (Z.of_nat j) (Z.of_nat e)); congruence.
Qed.

(** The table is shaped when its parts are. *)
Lemma dir_wf_shaped {K V} (t : table K V) :
  dir_wf t ↔ shaped (global_depth_ t) (dir_ t) (depth_at t).
Proof.
  unfold shaped, depth_at. split.
  - intros [Hlen Hpat]. split; [done|]. intros i p Hi.
    destruct (Hpat _ _ Hi) as (b & Hb & Hle & Hiff).
    exists (depth_ b). rewrite Hb. done.
  - intros [Hlen Hpat]. split; [done|]. intros i p Hi.
    destruct (Hpat _ _ Hi) as (e & He & Hle & Hiff).
    apply fmap_Some in He as (b & Hb & ->). eauto.
Qed.

(** The entries that hold a pointer, counted by index. *)
Lemma refs_by_index (d : list nat) (p : nat) :
  length (filter (λ q, q = p) d) =
  length (filter (λ j, d !! j = Some p) (seq 0 (length d))).
Proof.
  induction d as [|x d IH] using rev_ind; [done|].
  rewrite filter_app, !length_app, IH. simpl length at 2.
  rewrite Nat.add_1_r, seq_S, filter_app, length_app. simpl.
  f_equal.
  - apply filter_length_ext. intros j Hj. apply elem_of_seq in Hj.
    rewrite lookup_app_l by lia. done.
  - rewrite !filter_cons, !filter_nil.
    rewrite lookup_app_r, Nat.sub_diag by lia. simpl.
    destruct (decide (x = p)), (decide (Some x = Some p)); try done; congruence.
Qed.

(** C3 on a shaped directory: every bucket the directory points to is
    referenced by [2^(global_depth - local_depth)] entries. *)
Lemma dir_wf_balanced {K V} (t : table K V) : dir_wf t → dir_balanced t.
Proof.
  intros [Hlen Hpat] p b Hin Hb.
  apply list_elem_of_lookup_1 in Hin as [i Hi].
  destruct (Hpat _ _ Hi) as (b' & Hb' & Hle & Hiff).
  rewrite Hb in Hb'. inversion Hb'; subst b'.
  unfold refs. rewrite refs_by_index, Hlen.
  rewrite (filter_length_ext _ (λ j, j mod 2 ^ depth_ b = i mod 2 ^ depth_ b)).
  - by apply count_mod_pow2.
  - intros j Hj. apply elem_of_seq in Hj. apply Hiff. lia.
Qed.

End DirectoryFacts.

(** ** Extendible hash table: buckets and stores *)

Section BucketFacts.

Import EHT TableSpec.

Context {K V : Type} `{EqDecision K}.

Implicit Types (t : table K V) (b : Bucket K V) (k : K) (v : V).

Lemma find_pair_None (l : list (K * V)) k :
  find_pair l k = None ↔ k ∉ l.*1.
Proof.
  induction l as [|[k' v'] l IH]; simpl.
  - split; [intros _; apply not_elem_of_nil | done].
  - rewrite not_elem_of_cons. destruct (decide (k' = k)) as [->|Hne].
    + split; [done | intros [? _]; done].
    + rewrite IH. split; [intros; split; [congruence | done] | tauto].
Qed.

Lemma update_pair_None (l : list (K * V)) k v :
  update_pair l k v = None ↔ find_pair l k = None.
Proof.
  induction l as [|[k' v'] l IH]; simpl; [done|].
  destruct (decide (k' = k)); [done|].
  destruct (update_pair l k v); simpl; split; try done; intros E.
  - apply IH in E. done.
  - by apply IH.
Qed.

(** The overwrite of [Bucket::Insert]: the key gets the new value, the keys
    and the other values stay. *)
Lemma update_pair_Some (l l' : list (K * V)) k v :
  update_pair l k v = Some l' →
  find_pair l' k = Some v ∧ l'.*1 = l.*1 ∧
  ∀ k', k' ≠ k → find_pair l' k' = find_pair l k'.
Proof.
  revert l'. induction l as [|[k0 v0] l IH]; simpl; intros l' H; [done|].
  destruct (decide (k0 = k)) as [->|Hne].
  - inversion H; subst l'. simpl. rewrite decide_True by done.
    split; [done|]. split; [done|]. intros k' Hk'.
    by rewrite !decide_False by done.
  - destruct (update_pair l k v) as [l1|] eqn:E; [|done].
    inversion H; subst l'. destruct (IH l1 eq_refl) as (Hf & Hk & Ho).
    simpl. rewrite decide_False by done. split; [done|].
    split; [f_equal; exact Hk|]. intros k' Hk'.
    destruct (decide (k0 = k')); [done | by apply Ho].
Qed.

Lemma find_pair_app (l : list (K * V)) k v k' :
  find_pair (l ++ [(k, v)]) k' =
  match find_pair l k' with
  | Some v' => Some v'
  | None => if decide (k = k') then Some v else None
  end.
Proof.
  induction l as [|[k0 v0] l IH]; simpl; [done|].
  destruct (decide (k0 = k')); [done | apply IH].
Qed.

(** The erase of [Bucket::Remove]. *)
Lemma erase_pair_None (l : list (K * V)) k :
  erase_pair l k = None ↔ find_pair l k = None.
Proof.
  induction l as [|[k' v'] l IH]; simpl; [done|].
  destruct (decide (k' = k)); [done|].
  destruct (erase_pair l k); simpl; split; try done; intros E.
  - apply IH in E. done.
  - by apply IH.
Qed.

Lemma erase_pair_Some (l l' : list (K * V)) k :
  erase_pair l k = Some l' →
  length l = S (length l') ∧
  (∀ k', k' ≠ k → find_pair l' k' = find_pair l k') ∧
  (NoDup l.*1 → find_pair l' k = None ∧ NoDup l'.*1).
Proof.
  revert l'. induction l as [|[k0 v0] l IH]; simpl; intros l' H; [done|].
  destruct (decide (k0 = k)) as [->|Hne].
  - inversion H; subst l'. split; [done|]. split.
    + intros k' Hk'. by rewrite decide_False by done.
    + intros Hnd. apply NoDup_cons in Hnd as [Hk Hnd].
      split; [by apply find_pair_None | done].
  - destruct (erase_pair l k) as [l1|] eqn:E; [|done].
    inversion H; subst l'. destruct (IH l1 eq_refl) as (Hlen & Ho & Hnd).
    simpl. split; [by rewrite Hlen|]. split.
    + intros k' Hk'. destruct (decide (k0 = k')); [done | by apply Ho].
    + intros Hnd'. apply NoDup_cons in Hnd' as [Hk0 Hnd'].
      destruct (Hnd Hnd') as [Hf Hnd1]. rewrite decide_False by done.
      split; [done|]. apply NoDup_cons. split; [|done].
      apply find_pair_None. rewrite Ho by done. by apply find_pair_None.
Qed.

Lemma bucket_at_Done t i p b :
  bucket_at t i = Done (p, b) ↔ dir_ t !! i = Some p ∧ heap_ t !! p = Some b.
Proof.
  unfold bucket_at, at_index. split.
  - destruct (dir_ t !! i) as [q|]; simpl; [|done].
    destruct (heap_ t !! q) as [c|] eqn:E; simpl; [|done].
    intros H. inversion H; subst. done.
  - intros [-> E]. simpl. by rewrite E.
Qed.

(** In a shaped table every index below [2^global_depth] has its bucket. *)
Lemma dir_wf_bucket_at t i :
  dir_wf t → i < 2 ^ global_depth_ t →
  ∃ p b, bucket_at t i = Done (p, b) ∧ depth_ b ≤ global_depth_ t.
Proof.
  intros [Hlen Hpat] Hi.
  destruct (lookup_lt_is_Some_2 (dir_ t) i) as [p Hp]; [lia|].
  destruct (Hpat _ _ Hp) as (b & Hb & Hle & _).
  exists p, b. split; [|done]. by apply bucket_at_Done.
Qed.

Lemma Bucket_Insert_depth b k v : depth_ (Bucket_Insert b k v).2 = depth_ b.
Proof.
  unfold Bucket_Insert. destruct (update_pair _ _ _); [done|].
  by destruct (IsFull b).
Qed.

Lemma Bucket_Insert_size b k v : size_ (Bucket_Insert b k v).2 = size_ b.
Proof.
  unfold Bucket_Insert. destruct (update_pair _ _ _); [done|].
  by destruct (IsFull b).
Qed.

Lemma Bucket_Remove_depth b k : depth_ (Bucket_Remove b k).2 = depth_ b.
Proof. unfold Bucket_Remove. by destruct (erase_pair _ _). Qed.

Lemma shaped_ext g d (ld ld' : nat → option nat) :
  (∀ p, p ∈ d → ld' p = ld p) → shaped g d ld → shaped g d ld'.
Proof.
  intros Hext [Hlen Hpat]. split; [done|]. intros i p Hi.
  destruct (Hpat _ _ Hi) as (e & He & Hrest). exists e.
  rewrite Hext; [done|]. eapply list_elem_of_lookup_2; eauto.
Qed.

(** Replacing a bucket by one of the same depth keeps the shape. *)
Lemma dir_wf_store t p b b' :
  dir_wf t → heap_ t !! p = Some b → depth_ b' = depth_ b →
  dir_wf (set_heap t (<[p := b']> (heap_ t))).
Proof.
  intros Hwf Hb Hd. apply dir_wf_shaped. apply dir_wf_shaped in Hwf.
  simpl. eapply shaped_ext; [|exact Hwf].
  intros q _. unfold depth_at. simpl.
  destruct (decide (q = p)) as [->|Hne].
  - rewrite list_lookup_insert_eq by (by eapply lookup_lt_Some).
    rewrite Hb. simpl. by rewrite Hd.
  - by rewrite list_lookup_insert_ne.
Qed.

Lemma insert_at_dir_wf t i k v t' :
  dir_wf t → insert_at t i k v = Done t' → dir_wf t'.
Proof.
  intros Hwf H. unfold insert_at in H. inv_bind H. destruct a as [p b].
  apply bucket_at_Done in Ha as [_ Hb]. inversion H; subst t'. simpl.
  eapply dir_wf_store; eauto. apply Bucket_Insert_depth.
Qed.

(** *** Lookups after a bucket was rewritten *)

Lemma Bucket_Insert_find b k v :
  IsFull b = false ∨ is_Some (Bucket_Find b k) →
  Bucket_Find (Bucket_Insert b k v).2 k = Some v.
Proof.
  unfold Bucket_Insert, Bucket_Find. intros Hor.
  destruct (update_pair (list_ b) k v) as [l|] eqn:E; simpl.
  - by apply update_pair_Some in E as [? _].
  - apply update_pair_None in E. destruct Hor as [->|[? Hs]]; [|congruence].
    simpl. rewrite find_pair_app, E. by rewrite decide_True.
Qed.

Lemma Bucket_Insert_find_ne b k v k' :
  k' ≠ k → Bucket_Find (Bucket_Insert b k v).2 k' = Bucket_Find b k'.
Proof.
  unfold Bucket_Insert, Bucket_Find. intros Hne.
  destruct (update_pair (list_ b) k v) as [l|] eqn:E; simpl.
  - apply update_pair_Some in E as (_ & _ & Ho). by apply Ho.
  - destruct (IsFull b); [done|]. simpl. rewrite find_pair_app.
    destruct (find_pair (list_ b) k'); [done|]. by rewrite decide_False.
Qed.

Lemma Bucket_Remove_find_ne b k k' :
  k' ≠ k → Bucket_Find (Bucket_Remove b k).2 k' = Bucket_Find b k'.
Proof.
  unfold Bucket_Remove, Bucket_Find. intros Hne.
  destruct (erase_pair (list_ b) k) as [l|] eqn:E; simpl; [|done].
  apply erase_pair_Some in E as (_ & Ho & _). by apply Ho.
Qed.

Lemma ExtendibleHashTable_dir_wf (n : nat) :
  dir_wf (ExtendibleHashTable (K:=K) (V:=V) n).
Proof.
  split; [done|]. intros i p Hi. simpl in *.
  destruct i; [|done]. inversion Hi; subst p.
  eexists. split; [done|]. split; [done|]. simpl.
  intros j Hj. assert (j = 0) as -> by lia. done.
Qed.

End BucketFacts.

(** ** Extendible hash table: the operations *)

Section TableFacts.

Import EHT TableSpec.

Context {K V : Type} `{EqDecision K}.
Variable hash : K → Z.

Implicit Types (t : table K V) (b : Bucket K V) (k : K) (v : V).

Lemma IndexOf_low t k : IndexOf hash t k = low (hash k) (global_depth_ t).
Proof. unfold IndexOf, low. by rewrite land_mask. Qed.

Lemma dir_wf_key_bucket t k :
  dir_wf t →
  ∃ p b, bucket_at t (IndexOf hash t k) = Done (p, b) ∧
         depth_ b ≤ global_depth_ t.
Proof.
  intros Hwf. apply dir_wf_bucket_at; [done|].
  rewrite IndexOf_low. apply low_lt.
Qed.

Lemma distribute_depth mask items b0 b1 :
  depth_ (distribute hash mask items b0 b1).1 = depth_ b0 ∧
  depth_ (distribute hash mask items b0 b1).2 = depth_ b1.
Proof.
  revert b0 b1. induction items as [|[k v] r IH]; intros b0 b1; simpl; [done|].
  case_bool_decide.
  - destruct (IH b0 (Bucket_Insert b1 k v).2) as [-> ->].
    by rewrite Bucket_Insert_depth.
  - destruct (IH (Bucket_Insert b0 k v).2 b1) as [-> ->].
    by rewrite Bucket_Insert_depth.
Qed.

(** [Remove] keeps the directory, the depths and the bucket count. *)
Lemma Remove_dir_wf t k r t' :
  dir_wf t → Remove hash t k = Done (r, t') →
  dir_wf t' ∧ dir_ t' = dir_ t ∧ global_depth_ t' = global_depth_ t ∧
  num_buckets_ t' = num_buckets_ t.
Proof.
  intros Hwf H. unfold Remove in H. inv_bind H. destruct a as [p b].
  apply bucket_at_Done in Ha as [_ Hb]. inversion H; subst r t'. simpl.
  split; [|done]. eapply dir_wf_store; eauto. apply Bucket_Remove_depth.
Qed.

(** One iteration of the loop of the first version, on a shaped table: it
    returns, the table stays shaped, [num_buckets_] grows by one and two
    buckets are allocated. *)
Lemma loop_body_dir_wf t k :
  dir_wf t →
  ∃ t', loop_body hash t k = Done t' ∧ dir_wf t' ∧
        num_buckets_ t' = (num_buckets_ t + 1)%Z ∧
        length (heap_ t') = length (heap_ t) + 2 ∧
        bucket_size_ t' = bucket_size_ t ∧
        global_depth_ t ≤ global_depth_ t'.
Proof.
  intros Hwf.
  destruct (dir_wf_key_bucket t k Hwf) as (tp & target & Hat & Hle).
  unfold loop_body. rewrite Hat. simpl. unfold GetDepth, GetItems.
  pose proof Hat as Hat'. apply bucket_at_Done in Hat' as [Hdir Hheap].
  pose proof (proj1 (dir_wf_shaped t) Hwf) as Hsh.
  set (e := depth_ target).
  set (bs := distribute hash (shl1 e) (list_ target)
               (mkBucket (bucket_size_ t) (e + 1) [])
               (mkBucket (bucket_size_ t) (e + 1) [])).
  assert (∀ g d, shaped g d (depth_at t) → d !! IndexOf hash t k = Some tp →
                 e < g →
                 dir_wf (mkTable g (bucket_size_ t) (num_buckets_ t + 1)
                           (repoint tp (length (heap_ t)) (S (length (heap_ t)))
                              (shl1 e) d)
                           (heap_ t ++ [bs.1; bs.2]))) as Hsplit.
  { intros g d Hd Hi Hlt. apply dir_wf_shaped. simpl.
    assert (∀ q, q ∈ d → q < length (heap_ t)) as Hbound.
    { intros q Hq. apply list_elem_of_lookup_1 in Hq as [j Hj].
      destruct (proj2 Hd _ _ Hj) as (eq & Heq & _).
      unfold depth_at in Heq. apply fmap_Some in Heq as (bq & Hbq & _).
      by eapply lookup_lt_Some. }
    destruct (distribute_depth (shl1 e) (list_ target)
                (mkBucket (bucket_size_ t) (e + 1) [])
                (mkBucket (bucket_size_ t) (e + 1) [])) as [Hd0 Hd1].
    fold bs in Hd0, Hd1. simpl in Hd0, Hd1.
    eapply (shaped_split g d (depth_at t)); eauto.
    - unfold depth_at. by rewrite Hheap.
    - intros Hq. apply Hbound in Hq. lia.
    - intros Hq. apply Hbound in Hq. lia.
    - unfold depth_at. simpl.
      rewrite lookup_app_r, Nat.sub_diag by lia. simpl.
      rewrite Hd0. f_equal. lia.
    - unfold depth_at. simpl.
      rewrite lookup_app_r by lia.
      replace (S (length (heap_ t)) - length (heap_ t)) with 1 by lia. simpl.
      rewrite Hd1. f_equal. lia.
    - intros q Hq _. unfold depth_at. simpl.
      rewrite lookup_app_l by (by apply Hbound). done. }
  destruct (decide (e = global_depth_ t)) as [Heq|Hne].
  - rewrite !bool_decide_eq_true_2 by done.
    rewrite push_copies_double. simpl. eexists. split; [done|].
    split; [|simpl; rewrite length_app; simpl; repeat split; lia].
    apply Hsplit; [by apply shaped_double | | lia].
    rewrite lookup_app_l; [done|]. by eapply lookup_lt_Some.
  - rewrite !bool_decide_eq_false_2 by done. simpl. eexists. split; [done|].
    split; [|simpl; rewrite length_app; simpl; repeat split; lia].
    apply Hsplit; [done | done | lia].
Qed.

(** C3 on the first version: [Insert] keeps the table shaped, so that after
    it every bucket of the directory is referenced by
    [2^(global_depth - local_depth)] entries. *)
Lemma InsertInternal_loop_dir_wf fuel t k v t' :
  dir_wf t → InsertInternal_loop hash fuel t k v = Done t' → dir_wf t'.
Proof.
  revert t. induction fuel as [|fuel IH]; intros t Hwf H; simpl in H.
  - inv_bind H. destruct (IsFull a.2); [done|].
    by eapply insert_at_dir_wf.
  - inv_bind H. destruct (IsFull a.2); [|by eapply insert_at_dir_wf].
    inv_bind H.
    destruct (loop_body_dir_wf t k Hwf) as (t1 & Ht1 & Hwf1 & _).
    rewrite Ht1 in Ha0. inversion Ha0; subst a0. eauto.
Qed.

Lemma InsertInternal_loop_unfold fuel t k v :
  InsertInternal_loop hash fuel t k v =
  (pb ← bucket_at t (IndexOf hash t k);
   if IsFull pb.2 then
     match fuel with
     | 0 => OutOfFuel
     | S fuel' => t' ← loop_body hash t k; InsertInternal_loop hash fuel' t' k v
     end
   else insert_at t (IndexOf hash t k) k v).
Proof. by destruct fuel. Qed.

(** What one iteration of the loop computes on a shaped table. *)
Lemma loop_body_eq t k tp target :
  dir_wf t → bucket_at t (IndexOf hash t k) = Done (tp, target) →
  let e := depth_ target in
  let doubled := bool_decide (e = global_depth_ t) in
  let bs := distribute hash (shl1 e) (list_ target)
              (mkBucket (bucket_size_ t) (e + 1) [])
              (mkBucket (bucket_size_ t) (e + 1) []) in
  loop_body hash t k =
    Done (mkTable (if doubled then S (global_depth_ t) else global_depth_ t)
            (bucket_size_ t) (num_buckets_ t + 1)
            (repoint tp (length (heap_ t)) (S (length (heap_ t))) (shl1 e)
               (if doubled then dir_ t ++ dir_ t else dir_ t))
            (heap_ t ++ [bs.1; bs.2])).
Proof.
  intros Hwf Hat. simpl. unfold loop_body. rewrite Hat. simpl.
  unfold GetDepth, GetItems. case_bool_decide; simpl; [|done].
  by rewrite push_copies_double.
Qed.

(** After a split the index of the key leads to the new bucket chosen by bit
    [e] of its hash, [e] being the depth of the bucket that was split. *)
Lemma loop_body_key_bucket t k tp target t' :
  dir_wf t → bucket_at t (IndexOf hash t k) = Done (tp, target) →
  loop_body hash t k = Done t' →
  let e := depth_ target in
  let bs := distribute hash (shl1 e) (list_ target)
              (mkBucket (bucket_size_ t) (e + 1) [])
              (mkBucket (bucket_size_ t) (e + 1) []) in
  bucket_at t' (IndexOf hash t' k) =
    Done (if Z.testbit (hash k) (Z.of_nat e)
          then (S (length (heap_ t)), bs.2) else (length (heap_ t), bs.1)).
Proof.
  intros Hwf Hat Hbody. simpl.
  rewrite (loop_body_eq t k tp target Hwf Hat) in Hbody.
  inversion Hbody; subst t'; clear Hbody.
  pose proof Hat as Hat'. apply bucket_at_Done in Hat' as [Hdir Hheap].
  destruct Hwf as [Hlen Hpat].
  destruct (Hpat _ _ Hdir) as (b' & Hb' & Hle & _).
  rewrite Hheap in Hb'. inversion Hb'; subst b'. clear Hb'.
  rewrite (IndexOf_low t) in Hdir.
  rewrite IndexOf_low. simpl global_depth_.
  set (e := depth_ target) in *.
  set (g' := if bool_decide (e = global_depth_ t)
             then S (global_depth_ t) else global_depth_ t).
  assert (e < g') as Hlt by (unfold g'; case_bool_decide; lia).
  assert ((if bool_decide (e = global_depth_ t)
           then dir_ t ++ dir_ t else dir_ t) !! low (hash k) g' = Some tp)
    as Hent.
  { unfold g'. case_bool_decide; [|done].
    rewrite lookup_double.
    - rewrite Hlen, low_mod by lia. done.
    - rewrite Hlen. pose proof (low_lt (hash k) (S (global_depth_ t))) as Hl.
      simpl in Hl. lia. }
  pose proof (low_testbit (hash k) g' e Hlt) as Hbit.
  destruct (Z.testbit (hash k) (Z.of_nat e)); apply bucket_at_Done; simpl;
    rewrite repoint_lookup, Hent; simpl; rewrite decide_True by done;
    rewrite Hbit; (split; [done|]).
  - rewrite lookup_app_r by lia.
    replace (S (length (heap_ t)) - length (heap_ t)) with 1 by lia. done.
  - rewrite lookup_app_r, Nat.sub_diag by lia. done.
Qed.

Lemma stuck_on_step t k v :
  stuck_on hash t k v → ∃ t', loop_body hash t k = Done t' ∧ stuck_on hash t' k v.
Proof.
  intros (Hwf & Hsz & p & b & Hat & Hl & Hs).
  destruct (loop_body_dir_wf t k Hwf) as (t' & Hbody & Hwf' & _ & _ & Hsz' & _).
  exists t'. split; [done|]. split; [done|]. split; [congruence|].
  pose proof (loop_body_key_bucket t k p b t' Hwf Hat Hbody) as Hkey.
  simpl in Hkey. rewrite Hl, Hsz in Hkey. simpl in Hkey.
  destruct (Z.testbit (hash k) (Z.of_nat (depth_ b))) eqn:Eb.
  - rewrite bool_decide_eq_true_2 in Hkey by (by apply land_shl1_testbit).
    eexists _, _. split; [exact Hkey|]. done.
  - rewrite bool_decide_eq_false_2 in Hkey
      by (rewrite land_shl1_testbit, Eb; done).
    eexists _, _. split; [exact Hkey|]. done.
Qed.

Lemma stuck_on_diverges t k v v' fuel :
  stuck_on hash t k v → InsertInternal_loop hash fuel t k v' = OutOfFuel.
Proof.
  revert t. induction fuel as [|fuel IH]; intros t Hst;
    pose proof Hst as (Hwf & Hsz & p & b & Hat & Hl & Hs);
    rewrite InsertInternal_loop_unfold, Hat; simpl;
    unfold IsFull; rewrite Hl, Hs; simpl; [done|].
  destruct (stuck_on_step t k v Hst) as (t' & -> & Hst'). simpl. eauto.
Qed.

(** C10 (the first version at the failing input).  With buckets of one pair,
    [Insert(k, v1)] on the new table returns, and a second [Insert] of the
    same key never returns: the loop splits while the bucket of the key is
    full, and the bucket that holds the key stays full after every split. *)
Theorem InsertInternal_loop_update_diverges k v1 v2 fuel1 fuel2 :
  ∃ t1,
    InsertInternal_loop hash fuel1 (ExtendibleHashTable 1) k v1 = Done t1 ∧
    Find hash t1 k = Done (Some v1) ∧
    InsertInternal_loop hash fuel2 t1 k v2 = OutOfFuel.
Proof.
  set (t1 := mkTable 0 1 1%Z [0] [mkBucket 1 0 [(k, v1)]] : table K V).
  assert (IndexOf hash t1 k = 0) as Hidx.
  { rewrite IndexOf_low. pose proof (low_lt (hash k) 0). simpl in *. lia. }
  exists t1. split; [|split].
  - assert (IndexOf hash (ExtendibleHashTable (K:=K) (V:=V) 1) k = 0) as Hi0
      by exact Hidx.
    rewrite InsertInternal_loop_unfold, Hi0. reflexivity.
  - unfold Find. rewrite Hidx. simpl. unfold Bucket_Find. simpl.
    by rewrite decide_True.
  - apply (stuck_on_diverges t1 k v1 v2 fuel2). split; [|split; [done|]].
    + split; [done|]. intros i p Hi. simpl in *.
      destruct i; [|done]. inversion Hi; subst p.
      eexists. split; [done|]. split; [done|]. simpl.
      intros j Hj. assert (j = 0) as -> by lia. done.
    + exists 0, (mkBucket 1 0 [(k, v1)]). rewrite Hidx. done.
Qed.

(** Rewriting the pairs of one bucket changes [Find] only through that
    bucket. *)
Lemma Find_store t p b b' k' :
  heap_ t !! p = Some b → Bucket_Find b' k' = Bucket_Find b k' →
  Find hash (set_heap t (<[p := b']> (heap_ t))) k' = Find hash t k'.
Proof.
  intros Hb Hfind. unfold Find, bucket_at, IndexOf, at_index. simpl.
  destruct (dir_ t !! _) as [q|]; simpl; [|done].
  destruct (decide (q = p)) as [->|Hne].
  - rewrite list_lookup_insert_eq by (by eapply lookup_lt_Some).
    rewrite Hb. simpl. by rewrite Hfind.
  - by rewrite list_lookup_insert_ne.
Qed.

Lemma Find_store_key t p b b' k o :
  bucket_at t (IndexOf hash t k) = Done (p, b) → Bucket_Find b' k = o →
  Find hash (set_heap t (<[p := b']> (heap_ t))) k = Done o.
Proof.
  intros Hat Hfind. apply bucket_at_Done in Hat as [Hd Hb].
  unfold Find, bucket_at, at_index. unfold IndexOf in *. simpl.
  rewrite Hd. simpl.
  rewrite list_lookup_insert_eq by (by eapply lookup_lt_Some).
  simpl. by rewrite Hfind.
Qed.

(** The final [dir_[index]->Insert(key, value)] of both versions. *)
Lemma insert_at_spec t k v p b :
  bucket_at t (IndexOf hash t k) = Done (p, b) →
  insert_at t (IndexOf hash t k) k v =
    Done (set_heap t (<[p := (Bucket_Insert b k v).2]> (heap_ t))).
Proof. intros Hat. unfold insert_at. by rewrite Hat. Qed.

Lemma InsertInternal_rec_unfold fuel t k v :
  InsertInternal_rec hash (S fuel) t k v =
  (let index := IndexOf hash t k in
   pb ← bucket_at t index;
   match Bucket_Find pb.2 k with
   | Some _ => insert_at t index k v
   | None =>
       if IsFull pb.2 then
         t1 ← (if bool_decide (GetDepth pb.2 = global_depth_ t) then
                 d ← push_copies 0 (Z.to_nat (num_buckets_ t)) (dir_ t);
                 mret (mkTable (S (global_depth_ t)) (bucket_size_ t)
                         (Z.of_nat (length d)) d (heap_ t))
               else mret t);
         let t2 := set_heap t1 (<[pb.1 := IncrementDepth pb.2]> (heap_ t1)) in
         let new_index := IndexOf hash t2 k in
         _ ← at_index (dir_ t2) new_index;
         let fresh :=
           mkBucket (bucket_size_ t2) (GetDepth (IncrementDepth pb.2)) [] in
         let t3 := mkTable (global_depth_ t2) (bucket_size_ t2)
                     (num_buckets_ t2)
                     (<[new_index := length (heap_ t2)]> (dir_ t2))
                     (heap_ t2 ++ [fresh]) in
         t4 ← RedistributeBucket (InsertInternal_rec hash fuel) t3 pb.1;
         InsertInternal_rec hash fuel t4 k v
       else insert_at t index k v
   end).
Proof. reflexivity. Qed.

End TableFacts.

(** ** Extendible hash table *)

Section TableExamples.

Import EHT TableSpec Examples.

(** C3 (the code at the failing input).  Buckets of one pair, keys hashed by
    the identity: after [Insert] of 0, 1, 2, 4, 3 with the recursive
    [InsertInternal], the global depth is 3 and the bucket of directory entry
    1 has local depth 2, yet three entries (1, 5 and 7) point to it: the
    split that made room for key 3 redirected entry 3 alone. *)
Theorem rec_insert_unbalanced :
  (t ← insert_all rec_insert [0; 1; 2; 4; 3]%Z (ExtendibleHashTable 1);
   d ← GetLocalDepth t 1;
   p ← at_index (dir_ t) 1;
   mret (GetGlobalDepth t, dir_ t, d, refs t p))
  = Done (3, [0; 1; 2; 4; 3; 1; 2; 1], 2, 3) ∧
  ¬ dir_balanced
      (final (ExtendibleHashTable 1)
         (insert_all rec_insert [0; 1; 2; 4; 3]%Z (ExtendibleHashTable 1))).
Proof.
  split; [vm_compute; reflexivity|].
  intros H.
  specialize (H 1 (mkBucket 1 2 [(1, 101)]%Z)).
  vm_compute in H. 
  assert (3 = 2) as E; [|discriminate E].
  apply H; [|reflexivity].
  apply elem_of_cons. right. apply elem_of_cons. by left.
Qed.

(** C4 (the code at the failing input).  Buckets of one pair: after 0 and 1
    the recursive version reports 2 buckets and has allocated 2.  [Insert(2)]
    splits once (one bucket is allocated) and the count goes from 2 to 4;
    [Insert(3)] then splits once more and the count stays 4. *)
Theorem rec_insert_num_buckets :
  (t2 ← insert_all rec_insert [0; 1]%Z (ExtendibleHashTable 1);
   t3 ← rec_insert t2 2%Z 102%Z;
   t4 ← rec_insert t3 3%Z 103%Z;
   mret (GetNumBuckets t2, length (heap_ t2),
         GetNumBuckets t3, length (heap_ t3),
         GetNumBuckets t4, length (heap_ t4)))
  = Done (2%Z, 2, 4%Z, 3, 4%Z, 4).
Proof. vm_compute. reflexivity. Qed.

End TableExamples.

(** ** Extendible hash table: properties of the operations *)

Section BucketProperties.

Import EHT TableSpec.

Context {K V : Type} `{EqDecision K}.

Implicit Types (b : Bucket K V) (k : K) (v : V).


End BucketProperties.

Section TableProperties.

Import EHT TableSpec.

Context {K V : Type} `{EqDecision K}.
Variable hash : K → Z.

Implicit Types (t : table K V) (b : Bucket K V) (k : K) (v : V).

(** Round trip on the first version: when [Insert(k, v)] returns, [Find(k)]
    yields [v]. *)
Theorem Find_after_Insert_loop fuel t k v t' :
  InsertInternal_loop hash fuel t k v = Done t' →
  Find hash t' k = Done (Some v).
Proof.
  revert t. induction fuel as [|fuel IH]; intros t H;
    rewrite InsertInternal_loop_unfold in H; inv_bind H;
    destruct a as [p b]; simpl in H; destruct (IsFull b) eqn:Ef.
  - done.
  - rewrite (insert_at_spec hash t k v p b Ha) in H. inversion H.
    eapply Find_store_key; eauto. apply Bucket_Insert_find. by left.
  - inv_bind H. eauto.
  - rewrite (insert_at_spec hash t k v p b Ha) in H. inversion H.
    eapply Find_store_key; eauto. apply Bucket_Insert_find. by left.
Qed.

(** Round trip on the recursive version. *)
Theorem Find_after_Insert_rec fuel t k v t' :
  InsertInternal_rec hash fuel t k v = Done t' →
  Find hash t' k = Done (Some v).
Proof.
  revert t. induction fuel as [|fuel IH]; intros t H; [done|].
  rewrite InsertInternal_rec_unfold in H. simpl in H. inv_bind H.
  destruct a as [p b]. simpl in H.
  destruct (Bucket_Find b k) as [v0|] eqn:Ef.
  - rewrite (insert_at_spec hash t k v p b Ha) in H. inversion H.
    eapply Find_store_key; eauto. apply Bucket_Insert_find. right.
    rewrite Ef. eauto.
  - destruct (IsFull b) eqn:Efull.
    + inv_bind H. inv_bind H. inv_bind H. eauto.
    + rewrite (insert_at_spec hash t k v p b Ha) in H. inversion H.
      eapply Find_store_key; eauto. apply Bucket_Insert_find. by left.
Qed.

(** The recursive version on a key that is present: one call overwrites the
    value in place; the directory, the depths, the counter and every other
    key are untouched. *)
Theorem Insert_rec_overwrites fuel t k v0 v :
  Find hash t k = Done (Some v0) →
  ∃ t', InsertInternal_rec hash (S fuel) t k v = Done t' ∧
        Find hash t' k = Done (Some v) ∧
        dir_ t' = dir_ t ∧ global_depth_ t' = global_depth_ t ∧
        num_buckets_ t' = num_buckets_ t ∧
        length (heap_ t') = length (heap_ t) ∧
        ∀ k', k' ≠ k → Find hash t' k' = Find hash t k'.
Proof.
  intros Hfind. unfold Find in Hfind. inv_bind Hfind. destruct a as [p b].
  simpl in Hfind. inversion Hfind as [Hb].
  rewrite InsertInternal_rec_unfold. simpl. rewrite Ha. simpl. rewrite Hb.
  rewrite (insert_at_spec hash t k v p b Ha).
  eexists. split; [done|]. split.
  { eapply Find_store_key; eauto. apply Bucket_Insert_find. right.
    rewrite Hb. eauto. }
  simpl. rewrite length_insert. repeat split.
  intros k' Hne. apply bucket_at_Done in Ha as [_ Hheap].
  eapply Find_store; eauto. by apply Bucket_Insert_find_ne.
Qed.

(** The first version when the bucket of the key has room: no split, whatever
    the fuel; the directory, the depths and the counter are unchanged, the key
    is bound to the value and no other key changes. *)
Theorem Insert_loop_no_split fuel t k v p b :
  bucket_at t (IndexOf hash t k) = Done (p, b) → IsFull b = false →
  ∃ t', InsertInternal_loop hash fuel t k v = Done t' ∧
        Find hash t' k = Done (Some v) ∧
        dir_ t' = dir_ t ∧ global_depth_ t' = global_depth_ t ∧
        num_buckets_ t' = num_buckets_ t ∧
        ∀ k', k' ≠ k → Find hash t' k' = Find hash t k'.
Proof.
  intros Hat Hfull. rewrite InsertInternal_loop_unfold, Hat. simpl.
  rewrite Hfull. rewrite (insert_at_spec hash t k v p b Hat).
  eexists. split; [done|]. split.
  { eapply Find_store_key; eauto. apply Bucket_Insert_find. by left. }
  repeat split. intros k' Hne. apply bucket_at_Done in Hat as [_ Hheap].
  eapply Find_store; eauto. by apply Bucket_Insert_find_ne.
Qed.

(** [Remove]: false and no change when [Find] misses; true when it hits, and
    then the directory, the depths and the counter stay (nothing is merged or
    shrunk) and no other key changes. *)
Theorem Remove_cases t k :
  (Find hash t k = Done None → Remove hash t k = Done (false, t)) ∧
  (∀ v, Find hash t k = Done (Some v) →
     ∃ t', Remove hash t k = Done (true, t') ∧
           dir_ t' = dir_ t ∧ global_depth_ t' = global_depth_ t ∧
           num_buckets_ t' = num_buckets_ t ∧
           ∀ k', k' ≠ k → Find hash t' k' = Find hash t k').
Proof.
  split.
  - intros Hfind. unfold Find in Hfind. inv_bind Hfind. destruct a as [p b].
    simpl in Hfind. inversion Hfind as [Hb]. unfold Bucket_Find in Hb.
    unfold Remove. rewrite Ha. simpl. unfold Bucket_Remove.
    apply erase_pair_None in Hb. rewrite Hb. simpl.
    apply bucket_at_Done in Ha as [_ Hheap].
    rewrite list_insert_id by done. by destruct t.
  - intros v Hfind. unfold Find in Hfind. inv_bind Hfind. destruct a as [p b].
    simpl in Hfind. inversion Hfind as [Hb]. unfold Bucket_Find in Hb.
    unfold Remove. rewrite Ha. simpl.
    assert ((Bucket_Remove b k).1 = true) as ->.
    { unfold Bucket_Remove. destruct (erase_pair (list_ b) k) eqn:E; [done|].
      apply erase_pair_None in E. congruence. }
    eexists. split; [done|]. repeat split.
    intros k' Hne. apply bucket_at_Done in Ha as [_ Hheap].
    eapply Find_store; eauto. by apply Bucket_Remove_find_ne.
Qed.

(** Round trip: after [Remove(k)] on a bucket whose keys are distinct,
    [Find(k)] misses. *)
Theorem Find_after_Remove t k p b r t' :
  bucket_at t (IndexOf hash t k) = Done (p, b) →
  NoDup (list_ b).*1 →
  Remove hash t k = Done (r, t') →
  Find hash t' k = Done None.
Proof.
  intros Hat Hnd H. unfold Remove in H. rewrite Hat in H. simpl in H.
  inversion H; subst r t'. eapply Find_store_key; eauto.
  unfold Bucket_Remove, Bucket_Find.
  destruct (erase_pair (list_ b) k) as [l|] eqn:E; simpl.
  - apply erase_pair_Some in E as (_ & _ & Hn). by destruct (Hn Hnd).
  - by apply erase_pair_None.
Qed.

(** On a shaped table no call indexes out of range: [Find] and [Remove]
    return, and [Remove] keeps the table shaped. *)
Theorem shaped_Find_Remove_return t k :
  dir_wf t →
  (∃ o, Find hash t k = Done o) ∧
  (∃ r t', Remove hash t k = Done (r, t') ∧ dir_wf t').
Proof.
  intros Hwf. destruct (dir_wf_key_bucket hash t k Hwf) as (p & b & Hat & _).
  split.
  - unfold Find. rewrite Hat. simpl. eauto.
  - destruct (Remove hash t k) as [[r t']| | |] eqn:E.
    + exists r, t'. split; [done|]. by eapply Remove_dir_wf.
    + unfold Remove in E. by rewrite Hat in E.
    + unfold Remove in E. by rewrite Hat in E.
    + unfold Remove in E. by rewrite Hat in E.
Qed.

(** The directory invariant on the first version: from a shaped table
    [Insert] either runs out of fuel or returns a shaped table, in which every
    bucket of the directory is referenced by [2^(global_depth - local_depth)]
    entries, the directory has [2^global_depth] entries and the global depth
    has not decreased. *)
Theorem Insert_loop_shaped fuel t k v :
  dir_wf t →
  InsertInternal_loop hash fuel t k v = OutOfFuel ∨
  ∃ t', InsertInternal_loop hash fuel t k v = Done t' ∧
        dir_wf t' ∧ dir_balanced t' ∧
        length (dir_ t') = 2 ^ global_depth_ t' ∧
        global_depth_ t ≤ global_depth_ t'.
Proof.
  revert t. induction fuel as [|fuel IH]; intros t Hwf;
    destruct (dir_wf_key_bucket hash t k Hwf) as (p & b & Hat & _);
    rewrite InsertInternal_loop_unfold, Hat; simpl;
    destruct (IsFull b) eqn:Ef; auto.
  - right. rewrite (insert_at_spec hash t k v p b Hat). eexists.
    split; [done|].
    assert (dir_wf (set_heap t (<[p := (Bucket_Insert b k v).2]> (heap_ t))))
      as Hwf'.
    { apply bucket_at_Done in Hat as [_ Hheap].
      eapply dir_wf_store; eauto. apply Bucket_Insert_depth. }
    split; [done|]. split; [by apply dir_wf_balanced|].
    split; [apply Hwf'|done].
  - destruct (loop_body_dir_wf hash t k Hwf)
      as (t1 & -> & Hwf1 & _ & _ & _ & Hg).
    simpl. destruct (IH t1 Hwf1) as [->|(t' & -> & ? & ? & ? & ?)]; [auto|].
    right. exists t'. split; [done|]. split; [done|]. split; [done|].
    split; [done|lia].
  - right. rewrite (insert_at_spec hash t k v p b Hat). eexists.
    split; [done|].
    assert (dir_wf (set_heap t (<[p := (Bucket_Insert b k v).2]> (heap_ t))))
      as Hwf'.
    { apply bucket_at_Done in Hat as [_ Hheap].
      eapply dir_wf_store; eauto. apply Bucket_Insert_depth. }
    split; [done|]. split; [by apply dir_wf_balanced|].
    split; [apply Hwf'|done].
Qed.

End TableProperties.

(** ** Extendible hash table: the first version as a map *)

Section BucketItems.

Import EHT TableSpec.

Context {K V : Type} `{EqDecision K}.

Implicit Types (t : table K V) (b : Bucket K V) (k : K) (v : V).

Lemma Bucket_Insert_fresh b k v :
  k ∉ (list_ b).*1 → length (list_ b) < size_ b →
  (Bucket_Insert b k v).2 = with_items b (list_ b ++ [(k, v)]).
Proof.
  intros Hk Hlt. unfold Bucket_Insert.
  assert (update_pair (list_ b) k v = None) as ->.
  { by apply update_pair_None, find_pair_None. }
  unfold IsFull.
  rewrite (bool_decide_eq_false_2 (length (list_ b) = size_ b)) by lia.
  done.
Qed.

Lemma Bucket_Insert_items b k v :
  length (list_ b) ≤ size_ b → NoDup (list_ b).*1 →
  length (list_ (Bucket_Insert b k v).2) ≤ size_ b ∧
  NoDup (list_ (Bucket_Insert b k v).2).*1.
Proof.
  intros Hle Hnd. unfold Bucket_Insert.
  destruct (update_pair (list_ b) k v) as [l|] eqn:E; simpl.
  - apply update_pair_Some in E as (_ & Hk & _). split.
    + rewrite <- (length_fmap fst l), Hk, length_fmap. done.
    + by rewrite Hk.
  - destruct (IsFull b) eqn:Ef; [done|]. simpl.
    unfold IsFull in Ef. apply bool_decide_eq_false in Ef. split.
    + rewrite length_app. simpl. lia.
    + rewrite fmap_app. simpl.
      apply NoDup_app. split; [done|]. split; [|apply NoDup_singleton].
      intros x Hx Hx'. apply list_elem_of_singleton in Hx'. subst x.
      apply update_pair_None, find_pair_None in E. exact (E Hx).
Qed.

Lemma Bucket_Remove_items b k :
  length (list_ b) ≤ size_ b → NoDup (list_ b).*1 →
  length (list_ (Bucket_Remove b k).2) ≤ size_ b ∧
  NoDup (list_ (Bucket_Remove b k).2).*1.
Proof.
  intros Hle Hnd. unfold Bucket_Remove.
  destruct (erase_pair (list_ b) k) as [l|] eqn:E; simpl; [|done].
  apply erase_pair_Some in E as (Hlen & _ & Hn).
  destruct (Hn Hnd) as [_ Hnd']. split; [lia | done].
Qed.

Lemma Bucket_Remove_size b k : size_ (Bucket_Remove b k).2 = size_ b.
Proof. unfold Bucket_Remove. by destruct (erase_pair (list_ b) k). Qed.

(** A filter on the keys that lets the key through does not change what
    [Bucket::Find] sees. *)
Lemma find_pair_filter (P : K → Prop) `{!∀ kv : K * V, Decision (P kv.1)}
    (l : list (K * V)) k :
  P k → find_pair (filter (λ kv, P kv.1) l) k = find_pair l k.
Proof.
  intros HP. induction l as [|[k0 v0] l IH]; [done|].
  rewrite filter_cons. simpl.
  destruct (decide (P k0)) as [H0|H0]; simpl.
  - destruct (decide (k0 = k)); [done | exact IH].
  - destruct (decide (k0 = k)) as [->|]; [done | exact IH].
Qed.

(** Rewriting one bucket of the heap. *)
Lemma store_items_ok t p b b' :
  items_ok t → heap_ t !! p = Some b →
  size_ b' = size_ b →
  (length (list_ b) ≤ size_ b → NoDup (list_ b).*1 →
   length (list_ b') ≤ size_ b ∧ NoDup (list_ b').*1) →
  items_ok (set_heap t (<[p := b']> (heap_ t))).
Proof.
  intros Hok Hb Hsz Hkeep q bq Hq Hbq. simpl in *.
  destruct (decide (q = p)) as [->|Hne].
  - rewrite list_lookup_insert_eq in Hbq by (by eapply lookup_lt_Some).
    inversion Hbq; subst bq.
    destruct (Hok p b Hq Hb) as (Hs & Hl & Hn).
    destruct (Hkeep Hl Hn) as [Hl' Hn'].
    rewrite Hsz. by repeat split.
  - rewrite list_lookup_insert_ne in Hbq by done. by apply (Hok q bq).
Qed.

Lemma ExtendibleHashTable_items_ok (n : nat) :
  items_ok (ExtendibleHashTable (K:=K) (V:=V) n).
Proof.
  intros p b Hp Hb. simpl in *.
  apply list_elem_of_singleton in Hp. subst p. simpl in Hb.
  inversion Hb; subst b. simpl. repeat split; [lia | apply NoDup_nil_2].
Qed.

End BucketItems.

Section DirectoryCount.

Import EHT TableSpec.

Lemma remove_dups_double (d : list nat) :
  length (remove_dups (d ++ d)) = length (remove_dups d).
Proof.
  apply Permutation_length, NoDup_Permutation; [apply NoDup_remove_dups..|].
  intros x. rewrite !elem_of_remove_dups, elem_of_app. tauto.
Qed.

(** A bucket of local depth below the global depth has directory entries on
    both sides of bit [e]. *)
Lemma shaped_both_sides g d ld i tp e :
  shaped g d ld → d !! i = Some tp → ld tp = Some e → e < g →
  ∃ j0 j1, d !! j0 = Some tp ∧ d !! j1 = Some tp ∧
           Z.testbit (Z.of_nat j0) (Z.of_nat e) = false ∧
           Z.testbit (Z.of_nat j1) (Z.of_nat e) = true.
Proof.
  intros [Hlen Hpat] Hi He Hlt.
  destruct (Hpat _ _ Hi) as (e' & He' & _ & Hiff).
  rewrite He in He'. inversion He'; subst e'. clear He'.
  assert (2 ^ e ≠ 0) as Hpos by (apply Nat.pow_nonzero; lia).
  assert (2 ^ S e ≤ 2 ^ g) as Hpow by (apply Nat.pow_le_mono_r; lia).
  assert (i mod 2 ^ e < 2 ^ e) as Hm by (by apply Nat.mod_upper_bound).
  set (a := i mod 2 ^ e) in *.
  assert (2 ^ S e = 2 * 2 ^ e) as HS by (simpl; lia).
  assert (d !! a = Some tp) as Ha.
  { apply Hiff; [lia|]. unfold a. apply Nat.Div0.mod_mod. }
  assert (d !! (a + 2 ^ e) = Some tp) as Hb.
  { apply Hiff; [lia|].
    replace (a + 2 ^ e) with (a + 1 * 2 ^ e) by lia.
    rewrite Nat.Div0.mod_add. unfold a. apply Nat.Div0.mod_mod. }
  assert (Z.testbit (Z.of_nat a) (Z.of_nat e)
          ≠ Z.testbit (Z.of_nat (a + 2 ^ e)) (Z.of_nat e)) as Hdiff.
  { intros Heq.
    assert (a mod 2 ^ S e = (a + 2 ^ e) mod 2 ^ S e) as Hmod.
    { apply mod_pow2_succ. split; [|done].
      replace (a + 2 ^ e) with (a + 1 * 2 ^ e) by lia.
      by rewrite Nat.Div0.mod_add. }
    rewrite !Nat.mod_small in Hmod by lia. lia. }
  destruct (Z.testbit (Z.of_nat a) (Z.of_nat e)) eqn:E1;
    destruct (Z.testbit (Z.of_nat (a + 2 ^ e)) (Z.of_nat e)) eqn:E2;
    try done.
  - exists (a + 2 ^ e), a. done.
  - exists a, (a + 2 ^ e). done.
Qed.

(** A split replaces one distinct pointer of the directory by two. *)
Lemma distinct_split g d ld i tp e p0 p1 :
  shaped g d ld → d !! i = Some tp → ld tp = Some e → e < g →
  p0 ≠ p1 → p0 ∉ d → p1 ∉ d →
  length (remove_dups (repoint tp p0 p1 (shl1 e) d))
    = S (length (remove_dups d)).
Proof.
  intros Hsh Hi He Hlt Hne H0 H1.
  destruct (shaped_both_sides g d ld i tp e Hsh Hi He Hlt)
    as (j0 & j1 & Hj0 & Hj1 & Hb0 & Hb1).
  assert (∀ x, x ∈ repoint tp p0 p1 (shl1 e) d ↔
               x = p0 ∨ x = p1 ∨ (x ≠ tp ∧ x ∈ d)) as Hel.
  { intros x. split.
    - intros Hx. apply list_elem_of_lookup in Hx as [j Hj].
      rewrite repoint_lookup in Hj.
      apply fmap_Some in Hj as (q & Hq & ->).
      simpl. destruct (decide (q = tp)).
      + destruct (Z.testbit (Z.of_nat j) (Z.of_nat e)); auto.
      + right. right. split; [done|]. by eapply list_elem_of_lookup_2.
    - intros [->|[->|[Hx Hd]]].
      + apply (list_elem_of_lookup_2 _ j0).
        rewrite repoint_lookup, Hj0. simpl.
        by rewrite decide_True, Hb0 by done.
      + apply (list_elem_of_lookup_2 _ j1).
        rewrite repoint_lookup, Hj1. simpl.
        by rewrite decide_True, Hb1 by done.
      + apply list_elem_of_lookup in Hd as [j Hj].
        apply (list_elem_of_lookup_2 _ j).
        rewrite repoint_lookup, Hj. simpl.
        by rewrite decide_False by done. }
  assert (remove_dups (repoint tp p0 p1 (shl1 e) d)
          ≡ₚ p0 :: p1 :: filter (λ q, q ≠ tp) (remove_dups d)) as HP1.
  { apply NoDup_Permutation.
    - apply NoDup_remove_dups.
    - apply NoDup_cons. split.
      + rewrite not_elem_of_cons. split; [done|].
        rewrite list_elem_of_filter, elem_of_remove_dups. tauto.
      + apply NoDup_cons. split.
        * rewrite list_elem_of_filter, elem_of_remove_dups. tauto.
        * apply NoDup_filter, NoDup_remove_dups.
    - intros x. rewrite elem_of_remove_dups, Hel, !elem_of_cons.
      rewrite list_elem_of_filter, elem_of_remove_dups. tauto. }
  assert (remove_dups d ≡ₚ tp :: filter (λ q, q ≠ tp) (remove_dups d))
    as HP2.
  { apply NoDup_Permutation.
    - apply NoDup_remove_dups.
    - apply NoDup_cons. split.
      + rewrite list_elem_of_filter. tauto.
      + apply NoDup_filter, NoDup_remove_dups.
    - intros x. rewrite elem_of_cons, list_elem_of_filter.
      rewrite !elem_of_remove_dups.
      assert (tp ∈ d) by (by eapply list_elem_of_lookup_2).
      destruct (decide (x = tp)) as [->|]; tauto. }
  rewrite (Permutation_length HP1), (Permutation_length HP2). done.
Qed.

End DirectoryCount.

Section TableMap.

Import EHT TableSpec.

Context {K V : Type} `{EqDecision K}.
Variable hash : K → Z.

Implicit Types (t : table K V) (b : Bucket K V) (k : K) (v : V).

(** The loop over the items of a bucket whose keys are distinct, into buckets
    with enough room: each pair is appended on the side of its hash bit. *)
Lemma distribute_spec mask (items : list (K * V)) b0 b1 :
  NoDup (items.*1) →
  (∀ k, k ∈ items.*1 → (k ∉ (list_ b0).*1) ∧ (k ∉ (list_ b1).*1)) →
  length (list_ b0) + length items ≤ size_ b0 →
  length (list_ b1) + length items ≤ size_ b1 →
  distribute hash mask items b0 b1 =
    (with_items b0
       (list_ b0 ++ filter (λ kv, ¬ Z.land (hash kv.1) mask ≠ 0%Z) items),
     with_items b1
       (list_ b1 ++ filter (λ kv, Z.land (hash kv.1) mask ≠ 0%Z) items)).
Proof.
  revert b0 b1.
  induction items as [|[k v] r IH]; intros b0 b1 Hnd Hfresh H0 H1.
  - simpl. rewrite !app_nil_r. by destruct b0, b1.
  - simpl in *. apply NoDup_cons in Hnd as [Hk Hnd].
    destruct (Hfresh k) as [Hk0 Hk1]; [left|].
    assert (∀ k', k' ∈ r.*1 → k' ≠ k) as Hother.
    { intros k' Hk' ->. done. }
    case_bool_decide as Hbit.
    + rewrite Bucket_Insert_fresh by (done || lia).
      rewrite IH; simpl; [| done | | lia | rewrite length_app; simpl; lia ].
      * rewrite filter_cons_False by (simpl; tauto).
        rewrite (filter_cons_True (λ kv, Z.land (hash kv.1) mask ≠ 0%Z))
          by done.
        unfold with_items. simpl. by rewrite <- app_assoc.
      * intros k' Hk'. destruct (Hfresh k') as [? ?]; [by right|].
        split; [done|]. rewrite fmap_app, not_elem_of_app. split; [done|].
        simpl. rewrite list_elem_of_singleton. by apply Hother.
    + rewrite Bucket_Insert_fresh by (done || lia).
      rewrite IH; simpl; [| done | | rewrite length_app; simpl; lia | lia ].
      * rewrite filter_cons_True by (simpl; tauto).
        rewrite (filter_cons_False (λ kv, Z.land (hash kv.1) mask ≠ 0%Z))
          by (simpl; tauto).
        unfold with_items. simpl. by rewrite <- app_assoc.
      * intros k' Hk'. destruct (Hfresh k') as [? ?]; [by right|].
        split; [|done]. rewrite fmap_app, not_elem_of_app. split; [done|].
        simpl. rewrite list_elem_of_singleton. by apply Hother.
Qed.

(** After a split the index of any key leads to the bucket it led to before,
    or, when that was the bucket that was split, to the new bucket chosen by
    bit [e] of the key's hash. *)
Lemma loop_body_bucket t k tp target t' k' q bq :
  dir_wf t → bucket_at t (IndexOf hash t k) = Done (tp, target) →
  loop_body hash t k = Done t' →
  bucket_at t (IndexOf hash t k') = Done (q, bq) →
  let e := depth_ target in
  let bs := distribute hash (shl1 e) (list_ target)
              (mkBucket (bucket_size_ t) (e + 1) [])
              (mkBucket (bucket_size_ t) (e + 1) []) in
  bucket_at t' (IndexOf hash t' k') =
    Done (if decide (q = tp)
          then (if Z.testbit (hash k') (Z.of_nat e)
                then (S (length (heap_ t)), bs.2)
                else (length (heap_ t), bs.1))
          else (q, bq)).
Proof.
  intros Hwf Hat Hbody Hat'. simpl.
  rewrite (loop_body_eq hash t k tp target Hwf Hat) in Hbody.
  inversion Hbody; subst t'; clear Hbody.
  apply bucket_at_Done in Hat as [Hdir Hheap].
  apply bucket_at_Done in Hat' as [Hdir' Hheap'].
  destruct Hwf as [Hlen Hpat].
  destruct (Hpat _ _ Hdir) as (b' & Hb' & Hle & _).
  rewrite Hheap in Hb'. inversion Hb'; subst b'. clear Hb'.
  rewrite (IndexOf_low hash t) in Hdir'.
  rewrite IndexOf_low. simpl global_depth_.
  set (e := depth_ target) in *.
  set (g' := if bool_decide (e = global_depth_ t)
             then S (global_depth_ t) else global_depth_ t).
  assert (e < g') as Hlt by (unfold g'; case_bool_decide; lia).
  assert ((if bool_decide (e = global_depth_ t)
           then dir_ t ++ dir_ t else dir_ t) !! low (hash k') g' = Some q)
    as Hent.
  { unfold g'. case_bool_decide; [|done].
    rewrite lookup_double.
    - rewrite Hlen, low_mod by lia. done.
    - rewrite Hlen. pose proof (low_lt (hash k') (S (global_depth_ t))) as Hl.
      simpl in Hl. lia. }
  pose proof (low_testbit (hash k') g' e Hlt) as Hbit.
  destruct (decide (q = tp)) as [->|Hne].
  - destruct (Z.testbit (hash k') (Z.of_nat e)); apply bucket_at_Done; simpl;
      rewrite repoint_lookup, Hent; simpl; rewrite decide_True by done;
      rewrite Hbit; (split; [done|]).
    + rewrite lookup_app_r by lia.
      replace (S (length (heap_ t)) - length (heap_ t)) with 1 by lia. done.
    + rewrite lookup_app_r, Nat.sub_diag by lia. done.
  - apply bucket_at_Done. simpl. rewrite repoint_lookup, Hent. simpl.
    rewrite decide_False by done. split; [done|].
    rewrite lookup_app_l by (by eapply lookup_lt_Some). done.
Qed.

(** The buckets a split makes, when the bucket it splits is in order. *)
Lemma split_buckets t (target : Bucket K V) :
  size_ target = bucket_size_ t →
  length (list_ target) ≤ size_ target →
  NoDup (list_ target).*1 →
  let e := depth_ target in
  distribute hash (shl1 e) (list_ target)
    (mkBucket (bucket_size_ t) (e + 1) [])
    (mkBucket (bucket_size_ t) (e + 1) []) =
  (mkBucket (bucket_size_ t) (e + 1)
     (filter (λ kv, ¬ Z.land (hash kv.1) (shl1 e) ≠ 0%Z) (list_ target)),
   mkBucket (bucket_size_ t) (e + 1)
     (filter (λ kv, Z.land (hash kv.1) (shl1 e) ≠ 0%Z) (list_ target))).
Proof.
  intros Hs Hl Hn. simpl. rewrite distribute_spec; simpl; try done; try lia.
  intros k _. split; apply not_elem_of_nil.
Qed.

(** A split is invisible to [Find]. *)
Lemma loop_body_Find t k t' k' :
  dir_wf t → items_ok t → loop_body hash t k = Done t' →
  Find hash t' k' = Find hash t k'.
Proof.
  intros Hwf Hok Hbody.
  destruct (dir_wf_key_bucket hash t k Hwf) as (tp & target & Hat & _).
  destruct (dir_wf_key_bucket hash t k' Hwf) as (q & bq & Hat' & _).
  pose proof (loop_body_bucket t k tp target t' k' q bq Hwf Hat Hbody Hat')
    as Hnew. simpl in Hnew.
  unfold Find. rewrite Hnew, Hat'. simpl.
  destruct (decide (q = tp)) as [->|]; [|done].
  apply bucket_at_Done in Hat as [Hdir Hheap].
  apply bucket_at_Done in Hat' as [_ Hheap'].
  rewrite Hheap in Hheap'. inversion Hheap'; subst bq. clear Hheap'.
  destruct (Hok tp target) as (Hsz & Hlen & Hnd);
    [by eapply list_elem_of_lookup_2 | done |].
  rewrite (split_buckets t target Hsz Hlen Hnd).
  f_equal. unfold Bucket_Find.
  destruct (Z.testbit (hash k') (Z.of_nat (depth_ target))) eqn:Hb; simpl.
  - apply (find_pair_filter
             (λ x, Z.land (hash x) (shl1 (depth_ target)) ≠ 0%Z)).
    by apply land_shl1_testbit.
  - apply (find_pair_filter
             (λ x, ¬ Z.land (hash x) (shl1 (depth_ target)) ≠ 0%Z)).
    rewrite land_shl1_testbit. congruence.
Qed.

Lemma loop_body_items_ok t k t' :
  dir_wf t → items_ok t → loop_body hash t k = Done t' → items_ok t'.
Proof.
  intros Hwf Hok Hbody.
  destruct (dir_wf_key_bucket hash t k Hwf) as (tp & target & Hat & _).
  rewrite (loop_body_eq hash t k tp target Hwf Hat) in Hbody.
  inversion Hbody; subst t'; clear Hbody.
  apply bucket_at_Done in Hat as [Hdir Hheap].
  destruct (Hok tp target) as (Hsz & Hlen & Hnd);
    [by eapply list_elem_of_lookup_2 | done |].
  rewrite (split_buckets t target Hsz Hlen Hnd).
  intros p b Hp Hb. simpl in *.
  apply list_elem_of_lookup in Hp as [j Hj]. rewrite repoint_lookup in Hj.
  apply fmap_Some in Hj as (q0 & Hq0 & ->).
  assert (q0 ∈ dir_ t) as Hin.
  { destruct (bool_decide _).
    - apply list_elem_of_lookup_2 in Hq0. apply elem_of_app in Hq0. tauto.
    - by eapply list_elem_of_lookup_2. }
  assert (∀ P `{!∀ x, Decision (P x)},
            length (filter P (list_ target)) ≤ bucket_size_ t ∧
            NoDup (filter P (list_ target)).*1) as Hpart.
  { intros P HP. split.
    - pose proof (length_filter P (list_ target)). lia.
    - eapply sublist_NoDup; [exact Hnd|].
      apply fmap_sublist, sublist_filter. }
  destruct (decide (q0 = tp)) as [->|Hne].
  - destruct (Z.testbit (Z.of_nat j) (Z.of_nat (depth_ target))).
    + rewrite lookup_app_r in Hb by lia.
      replace (S (length (heap_ t)) - length (heap_ t)) with 1 in Hb by lia.
      inversion Hb; subst b. simpl. split; [done|]. apply Hpart.
    + rewrite lookup_app_r, Nat.sub_diag in Hb by lia.
      inversion Hb; subst b. simpl. split; [done|]. apply Hpart.
  - apply list_elem_of_lookup in Hin as [i Hi].
    destruct Hwf as [_ Hpat]. destruct (Hpat _ _ Hi) as (b' & Hb' & _).
    rewrite lookup_app_l in Hb by (by eapply lookup_lt_Some).
    apply (Hok q0 b); [by eapply list_elem_of_lookup_2 | done].
Qed.

Lemma insert_at_items_ok t i k v t' :
  items_ok t → insert_at t i k v = Done t' → items_ok t'.
Proof.
  intros Hok H. unfold insert_at in H. inv_bind H. destruct a as [p b].
  apply bucket_at_Done in Ha as [_ Hb]. inversion H; subst t'. simpl.
  eapply store_items_ok; eauto.
  - apply Bucket_Insert_size.
  - apply Bucket_Insert_items.
Qed.

Lemma InsertInternal_loop_items_ok fuel t k v t' :
  dir_wf t → items_ok t →
  InsertInternal_loop hash fuel t k v = Done t' → items_ok t'.
Proof.
  revert t. induction fuel as [|fuel IH]; intros t Hwf Hok H; simpl in H.
  - inv_bind H. destruct (IsFull a.2); [done|].
    by eapply insert_at_items_ok.
  - inv_bind H. destruct (IsFull a.2); [|by eapply insert_at_items_ok].
    inv_bind H.
    destruct (loop_body_dir_wf hash t k Hwf) as (t1 & Ht1 & Hwf1 & _).
    rewrite Ht1 in Ha0. inversion Ha0; subst a0.
    apply (IH t1); [exact Hwf1 | | exact H].
    exact (loop_body_items_ok t k t1 Hwf Hok Ht1).
Qed.

Lemma Remove_items_ok t k r t' :
  items_ok t → Remove hash t k = Done (r, t') → items_ok t'.
Proof.
  intros Hok H. unfold Remove in H. inv_bind H. destruct a as [p b].
  apply bucket_at_Done in Ha as [_ Hb]. inversion H; subst r t'. simpl.
  eapply store_items_ok; eauto.
  - apply Bucket_Remove_size.
  - apply Bucket_Remove_items.
Qed.

(** *** The counter of buckets *)

Lemma loop_body_counted t k t' :
  dir_wf t → counted t → loop_body hash t k = Done t' → counted t'.
Proof.
  intros Hwf Hc Hbody.
  destruct (dir_wf_key_bucket hash t k Hwf) as (tp & target & Hat & Hle).
  rewrite (loop_body_eq hash t k tp target Hwf Hat) in Hbody.
  inversion Hbody; subst t'; clear Hbody.
  apply bucket_at_Done in Hat as [Hdir Hheap].
  pose proof (proj1 (dir_wf_shaped t) Hwf) as Hsh.
  assert (∀ q, q ∈ dir_ t → q < length (heap_ t)) as Hbound.
  { intros q Hq. apply list_elem_of_lookup in Hq as [j Hj].
    destruct Hwf as [_ Hpat]. destruct (Hpat _ _ Hj) as (bq & Hbq & _).
    by eapply lookup_lt_Some. }
  assert (depth_at t tp = Some (depth_ target)) as Hld.
  { unfold depth_at. by rewrite Hheap. }
  unfold counted, GetNumBuckets, distinct_buckets in *. simpl.
  case_bool_decide as Hg.
  - erewrite (distinct_split (S (global_depth_ t)) (dir_ t ++ dir_ t));
      [ | by apply shaped_double | | exact Hld | lia | lia | | ].
    + rewrite remove_dups_double. lia.
    + rewrite lookup_app_l; [exact Hdir | by eapply lookup_lt_Some].
    + rewrite not_elem_of_app. split; intros Hq; apply Hbound in Hq; lia.
    + rewrite not_elem_of_app. split; intros Hq; apply Hbound in Hq; lia.
  - erewrite (distinct_split (global_depth_ t) (dir_ t));
      [ | exact Hsh | exact Hdir | exact Hld | lia | lia | | ].
    + lia.
    + intros Hq; apply Hbound in Hq; lia.
    + intros Hq; apply Hbound in Hq; lia.
Qed.

Lemma insert_at_dir t i k v t' :
  insert_at t i k v = Done t' →
  dir_ t' = dir_ t ∧ num_buckets_ t' = num_buckets_ t.
Proof.
  intros H. unfold insert_at in H. inv_bind H. by inversion H.
Qed.

Lemma InsertInternal_loop_counted fuel t k v t' :
  dir_wf t → counted t →
  InsertInternal_loop hash fuel t k v = Done t' → counted t'.
Proof.
  assert (∀ s i s', counted s → insert_at s i k v = Done s' → counted s')
    as Hins.
  { intros t0 i t0' Hc H. apply insert_at_dir in H as [Hd Hn].
    unfold counted, GetNumBuckets, distinct_buckets in *. by rewrite Hd, Hn. }
  revert t. induction fuel as [|fuel IH]; intros t Hwf Hc H; simpl in H.
  - inv_bind H. destruct (IsFull a.2); [done|]. by eapply Hins.
  - inv_bind H. destruct (IsFull a.2); [|by eapply Hins].
    inv_bind H.
    destruct (loop_body_dir_wf hash t k Hwf) as (t1 & Ht1 & Hwf1 & _).
    rewrite Ht1 in Ha0. inversion Ha0; subst a0.
    apply (IH t1); [exact Hwf1 | | exact H].
    exact (loop_body_counted t k t1 Hwf Hc Ht1).
Qed.

(** *** [Find] after [Remove] and after [Insert] *)

Lemma Remove_Find t k r t' :
  items_ok t → Remove hash t k = Done (r, t') →
  Find hash t' k = Done None ∧
  ∀ k', k' ≠ k → Find hash t' k' = Find hash t k'.
Proof.
  intros Hok H.
  unfold Remove in H. inv_bind H. destruct a as [p b].
  inversion H; subst r t'. simpl.
  pose proof Ha as Hat. apply bucket_at_Done in Ha as [Hd Hb].
  destruct (Hok p b) as (_ & _ & Hnd);
    [by eapply list_elem_of_lookup_2 | done |].
  split.
  - eapply Find_store_key; eauto. unfold Bucket_Remove, Bucket_Find.
    destruct (erase_pair (list_ b) k) as [l|] eqn:E; simpl.
    + apply erase_pair_Some in E as (_ & _ & Hn). by destruct (Hn Hnd).
    + by apply erase_pair_None.
  - intros k' Hne. eapply Find_store; eauto. by apply Bucket_Remove_find_ne.
Qed.

Lemma Remove_lookup t k r t' :
  dir_wf t → items_ok t → Remove hash t k = Done (r, t') →
  dir_wf t' ∧ items_ok t' ∧ Find hash t' k = Done None ∧
  ∀ k', k' ≠ k → Find hash t' k' = Find hash t k'.
Proof.
  intros Hwf Hok H.
  split; [by destruct (Remove_dir_wf hash t k r t' Hwf H)|].
  split; [by eapply Remove_items_ok|].
  by eapply Remove_Find.
Qed.

Lemma InsertInternal_loop_lookup fuel t k v t' :
  dir_wf t → items_ok t → InsertInternal_loop hash fuel t k v = Done t' →
  dir_wf t' ∧ items_ok t' ∧ Find hash t' k = Done (Some v) ∧
  ∀ k', k' ≠ k → Find hash t' k' = Find hash t k'.
Proof.
  intros Hwf Hok H.
  split; [by eapply InsertInternal_loop_dir_wf|].
  split; [by eapply InsertInternal_loop_items_ok|].
  assert (∀ s p b s',
            bucket_at s (IndexOf hash s k) = Done (p, b) →
            IsFull b = false →
            insert_at s (IndexOf hash s k) k v = Done s' →
            Find hash s' k = Done (Some v) ∧
            ∀ k', k' ≠ k → Find hash s' k' = Find hash s k') as Hins.
  { intros s p b s' Hat Hf Hs.
    rewrite (insert_at_spec hash s k v p b Hat) in Hs. inversion Hs. split.
    - eapply Find_store_key; eauto. apply Bucket_Insert_find. by left.
    - intros k' Hne. apply bucket_at_Done in Hat as [_ Hb].
      eapply Find_store; eauto. by apply Bucket_Insert_find_ne. }
  revert t Hwf Hok H. induction fuel as [|fuel IH]; intros t Hwf Hok H;
    rewrite InsertInternal_loop_unfold in H; inv_bind H;
    destruct a as [p b]; simpl in H; destruct (IsFull b) eqn:Ef.
  - done.
  - by eapply Hins.
  - inv_bind H.
    destruct (loop_body_dir_wf hash t k Hwf) as (t1 & Ht1 & Hwf1 & _).
    rewrite Ht1 in Ha0. inversion Ha0; subst a.
    pose proof (loop_body_items_ok t k t1 Hwf Hok Ht1) as Hok1.
    destruct (IH t1 Hwf1 Hok1 H) as [Hk Hother]. split.
    + done.
    + intros k' Hne. rewrite (Hother k' Hne).
      by apply (loop_body_Find t k t1 k').
  - by eapply Hins.
Qed.

Lemma Find_new_table (n : nat) k :
  Find hash (ExtendibleHashTable (K:=K) (V:=V) n) k = Done None.
Proof.
  unfold Find, bucket_at, IndexOf. simpl.
  change (shl1 0 - 1)%Z with 0%Z. rewrite Z.land_0_r. done.
Qed.

End TableMap.

Section TableMapProperties.

Import EHT TableSpec.

Context {K V : Type} `{EqDecision K}.
Variable hash : K → Z.

Implicit Types (t : table K V) (b : Bucket K V) (k : K) (v : V).

(** The first version is a map update, splits included: when [Insert(k, v)]
    returns on a table that is shaped and whose buckets are in order, no
    other key has changed its binding: the splits lose no pair. *)
Theorem Insert_loop_keeps_others fuel t k v t' :
  dir_wf t → items_ok t →
  InsertInternal_loop hash fuel t k v = Done t' →
  ∀ k', k' ≠ k → Find hash t' k' = Find hash t k'.
Proof.
  intros Hwf Hok H k' Hne. revert t Hwf Hok H.
  assert (∀ s s', insert_at s (IndexOf hash s k) k v = Done s' →
                  Find hash s' k' = Find hash s k') as Hins.
  { intros s s' H. unfold insert_at in H. inv_bind H. destruct a as [p b].
    apply bucket_at_Done in Ha as [_ Hb]. inversion H; subst s'.
    eapply Find_store; eauto. by apply Bucket_Insert_find_ne. }
  induction fuel as [|fuel IH]; intros t Hwf Hok H; simpl in H.
  - inv_bind H. destruct (IsFull a.2); [done|]. by apply Hins.
  - inv_bind H. destruct (IsFull a.2); [|by apply Hins].
    inv_bind H.
    rewrite (IH a0); [by eapply loop_body_Find | | by eapply loop_body_items_ok
                     | done].
    destruct (loop_body_dir_wf hash t k Hwf) as (t1 & Ht1 & Hwf1 & _).
    rewrite Ht1 in Ha0. by inversion Ha0; subst a0.
Qed.

(** Every state the first version reaches from the constructor through
    [Insert]s and [Remove]s that return is shaped, has its buckets in order
    (capacity [bucket_size_], no more pairs than that, no key twice), and
    [GetNumBuckets] is the number of distinct buckets of the directory. *)
Theorem loop_reachable fuel n (os : list (op K V)) t :
  apply_ops hash fuel (ExtendibleHashTable n) os = Done t →
  dir_wf t ∧ items_ok t ∧ counted t.
Proof.
  assert (dir_wf (ExtendibleHashTable (K:=K) (V:=V) n) ∧
          items_ok (ExtendibleHashTable (K:=K) (V:=V) n) ∧
          counted (ExtendibleHashTable (K:=K) (V:=V) n)) as Hinit.
  { split; [apply ExtendibleHashTable_dir_wf|].
    split; [apply ExtendibleHashTable_items_ok | done]. }
  revert Hinit. generalize (ExtendibleHashTable (K:=K) (V:=V) n) as t0.
  induction os as [|o os IH]; intros t0 (Hwf & Hok & Hc) H; simpl in H.
  - by inversion H; subst t.
  - inv_bind H. apply (IH a); [|done]. destruct o as [k v|k]; simpl in Ha.
    + split; [by eapply InsertInternal_loop_dir_wf|].
      split; [by eapply InsertInternal_loop_items_ok
             | by eapply InsertInternal_loop_counted].
    + inv_bind Ha. destruct a0 as [r t1]. inversion Ha; subst a.
      destruct (Remove_dir_wf hash t0 k r t1 Hwf Ha0)
        as (Hwf1 & Hd & _ & Hn).
      split; [done|]. split; [by eapply Remove_items_ok|].
      unfold counted, GetNumBuckets, distinct_buckets in *.
      by rewrite Hd, Hn.
Qed.

End TableMapProperties.

Section TableWitnesses.

Import EHT TableSpec Examples.

Lemma t_one_dir_wf : dir_wf t_one.
Proof.
  apply (dir_wf_store (ExtendibleHashTable 1) 0 (mkBucket 1 0 [])
           (mkBucket 1 0 [(0, 100)]%Z)).
  - apply ExtendibleHashTable_dir_wf.
  - reflexivity.
  - reflexivity.
Qed.

Lemma Insert_loop_shaped_witness :
  ∃ t', InsertInternal_loop hash_id 16 t_one 1%Z 101%Z = Done t' ∧
        dir_wf t' ∧ dir_balanced t' ∧
        length (dir_ t') = 2 ^ global_depth_ t' ∧
        global_depth_ t_one ≤ global_depth_ t'.
Proof.
  destruct (Insert_loop_shaped hash_id 16 t_one 1%Z 101%Z t_one_dir_wf) as [H|H].
  - vm_compute in H. discriminate H.
  - exact H.
Defined.

Lemma Find_after_Insert_loop_witness :
  Find hash_id (final t_one (InsertInternal_loop hash_id 16 t_one 1%Z 101%Z)) 1%Z
  = Done (Some 101%Z).
Proof.
  apply (Find_after_Insert_loop hash_id 16 t_one).
  vm_compute. reflexivity.
Defined.

Lemma Find_after_Insert_rec_witness :
  Find hash_id (final t_one (InsertInternal_rec hash_id 16 t_one 1%Z 101%Z)) 1%Z
  = Done (Some 101%Z).
Proof.
  apply (Find_after_Insert_rec hash_id 16 t_one).
  vm_compute. reflexivity.
Defined.

Lemma Insert_rec_overwrites_witness :
  ∃ t', InsertInternal_rec hash_id 1 t_one 0%Z 7%Z = Done t' ∧
        Find hash_id t' 0%Z = Done (Some 7%Z) ∧
        dir_ t' = dir_ t_one ∧ global_depth_ t' = global_depth_ t_one ∧
        num_buckets_ t' = num_buckets_ t_one ∧
        length (heap_ t') = length (heap_ t_one) ∧
        ∀ k', k' ≠ 0%Z → Find hash_id t' k' = Find hash_id t_one k'.
Proof.
  apply (Insert_rec_overwrites hash_id 0 t_one 0%Z 100%Z 7%Z).
  vm_compute. reflexivity.
Defined.

Lemma Insert_loop_no_split_witness :
  ∃ t', InsertInternal_loop hash_id 0 t_new2 5%Z 105%Z = Done t' ∧
        Find hash_id t' 5%Z = Done (Some 105%Z) ∧
        dir_ t' = dir_ t_new2 ∧ global_depth_ t' = global_depth_ t_new2 ∧
        num_buckets_ t' = num_buckets_ t_new2 ∧
        ∀ k', k' ≠ 5%Z → Find hash_id t' k' = Find hash_id t_new2 k'.
Proof.
  apply (Insert_loop_no_split hash_id 0 t_new2 5%Z 105%Z 0 (mkBucket 2 0 [])).
  - vm_compute. reflexivity.
  - vm_compute. reflexivity.
Defined.

Lemma Remove_cases_witness :
  Remove hash_id t_one 1%Z = Done (false, t_one) ∧
  ∃ t', Remove hash_id t_one 0%Z = Done (true, t') ∧
        dir_ t' = dir_ t_one ∧ global_depth_ t' = global_depth_ t_one ∧
        num_buckets_ t' = num_buckets_ t_one ∧
        ∀ k', k' ≠ 0%Z → Find hash_id t' k' = Find hash_id t_one k'.
Proof.
  split.
  - apply (proj1 (Remove_cases hash_id t_one 1%Z)). vm_compute. reflexivity.
  - apply (proj2 (Remove_cases hash_id t_one 0%Z) 100%Z). vm_compute.
    reflexivity.
Defined.

Lemma Find_after_Remove_witness :
  Find hash_id (final (false, t_one) (Remove hash_id t_one 0%Z)).2 0%Z = Done None.
Proof.
  apply (Find_after_Remove hash_id t_one 0%Z 0 (mkBucket 1 0 [(0, 100)]%Z) true).
  - vm_compute. reflexivity.
  - simpl. apply NoDup_singleton.
  - vm_compute. reflexivity.
Defined.

Lemma shaped_Find_Remove_return_witness :
  (∃ o, Find hash_id t_one 3%Z = Done o) ∧
  (∃ r t', Remove hash_id t_one 3%Z = Done (r, t') ∧ dir_wf t').
Proof. exact (shaped_Find_Remove_return hash_id t_one 3%Z t_one_dir_wf). Defined.


Lemma t_one_items_ok : items_ok t_one.
Proof.
  apply (store_items_ok (ExtendibleHashTable 1) 0 (mkBucket 1 0 [])
           (mkBucket 1 0 [(0, 100)]%Z)).
  - apply ExtendibleHashTable_items_ok.
  - reflexivity.
  - reflexivity.
  - intros _ _. simpl. split; [lia|]. apply NoDup_singleton.
Qed.

Lemma Insert_loop_keeps_others_witness :
  Find hash_id (final t_one (InsertInternal_loop hash_id 16 t_one 1%Z 101%Z)) 0%Z
  = Find hash_id t_one 0%Z.
Proof.
  apply (Insert_loop_keeps_others hash_id 16 t_one 1%Z 101%Z).
  - exact t_one_dir_wf.
  - exact t_one_items_ok.
  - vm_compute. reflexivity.
  - lia.
Defined.

Lemma loop_reachable_witness :
  let t := final t_new2
             (apply_ops hash_id 16 (ExtendibleHashTable 2)
                [Put 0 10; Put 1 11; Put 2 12; Del 1; Put 4 14]%Z) in
  dir_wf t ∧ items_ok t ∧ counted t.
Proof.
  apply (loop_reachable hash_id 16 2
           [Put 0 10; Put 1 11; Put 2 12; Del 1; Put 4 14]%Z).
  vm_compute. reflexivity.
Defined.

End TableWitnesses.

(** ** Buffer pool manager *)

Section FrameFacts.

Import BPM.
Local Open Scope Z_scope.

Lemma frame_at_Done s f pg :
  frame_at s f = Done pg ↔ 0 ≤ f ∧ pages_ s !! Z.to_nat f = Some pg.
Proof.
  unfold frame_at. case_bool_decide.
  - rewrite at_index_Done. tauto.
  - split; [discriminate | lia].
Qed.

Lemma frame_at_store s f pg pg' :
  frame_at s f = Done pg → frame_at (store_frame s f pg') f = Done pg'.
Proof.
  rewrite !frame_at_Done. intros [Hf Hl]. split; [done|]. simpl.
  apply list_lookup_insert_eq. by eapply lookup_lt_Some.
Qed.

Lemma frame_at_store_ne s f g pg' :
  0 ≤ f → 0 ≤ g → f ≠ g →
  frame_at (store_frame s f pg') g = frame_at s g.
Proof.
  intros Hf Hg Hne. unfold frame_at, store_frame, at_index. simpl.
  rewrite list_lookup_insert_ne by lia. done.
Qed.

End FrameFacts.

Section BufferPoolFacts.

Import BPM.
Local Open Scope Z_scope.

Variable BUSTUB_PAGE_SIZE : nat.
Variable INVALID_PAGE_ID : Z.
Variable hash : Z → Z.
Variable pt_Insert : EHT.table Z Z → Z → Z → outcome (EHT.table Z Z).

Local Abbreviation GetNewPage := (BPM.GetNewPage BUSTUB_PAGE_SIZE INVALID_PAGE_ID hash pt_Insert).
Local Abbreviation FetchPgImp := (BPM.FetchPgImp BUSTUB_PAGE_SIZE INVALID_PAGE_ID hash pt_Insert).
Local Abbreviation NewPgImp := (BPM.NewPgImp BUSTUB_PAGE_SIZE INVALID_PAGE_ID hash pt_Insert).
Local Abbreviation DeletePgImp := (BPM.DeletePgImp BUSTUB_PAGE_SIZE INVALID_PAGE_ID hash).
Local Abbreviation UnpinPgImp := (BPM.UnpinPgImp hash).
Local Abbreviation FlushPgImp := (BPM.FlushPgImp hash).
Local Abbreviation Find := (EHT.Find hash).

(** [GetNewPage] returns the id it was given, unless it was given or
    returns [INVALID_PAGE_ID]. *)
Lemma GetNewPage_id s p q s' :
  GetNewPage s p = Done (q, s') → p ≠ INVALID_PAGE_ID →
  q = p ∨ (q = INVALID_PAGE_ID ∧ s' = s).
Proof.
  unfold BPM.GetNewPage. intros H Hp. inv_bind H.
  destruct a as [[f s1]|]; [|inversion H; auto].
  inv_bind H. rewrite bool_decide_eq_false_2 in H by done.
  inv_bind H. inv_bind H. inv_bind H. inv_bind H.
  inversion H. auto.
Qed.

(** C2 (amended).  Every [FetchPgImp] of a page id other than
    [INVALID_PAGE_ID] that returns a frame ends with
    [ReadPage(page_id, page->data_)]: the frame holds the on-disk image of
    the page and the read is the last call in the disk manager's log.  On a
    hit this is the only effect on the disk manager, so the frame's bytes
    are replaced by the image as it was, whatever they were before. *)
Theorem FetchPgImp_reads_disk s p f s' :
  p ≠ INVALID_PAGE_ID →
  FetchPgImp s p = Done (Some f, s') →
  ∃ pg' log,
    frame_at s' f = Done pg' ∧
    data_ pg' = image (disk_manager_ s') p ∧
    io_log (disk_manager_ s') = log ++ [IoRead p] ∧
    (∀ f0, Find (page_table_ s) p = Done (Some f0) →
       f = f0 ∧ log = io_log (disk_manager_ s) ∧
       data_ pg' = image (disk_manager_ s) p).
Proof.
  intros Hp H. unfold BPM.FetchPgImp in H.
  inv_bind H. rename a into found, Ha into Hfound.
  inv_bind H. destruct a as [q s1]. simpl in H.
  case_bool_decide as Hc; [discriminate|].
  inv_bind H. rename a into found'. inv_bind H. rename a into page.
  inversion H; subst f s'; clear H. simpl.
  assert (q = p) as ->.
  { destruct found as [f0|]; [by inversion Ha|].
    apply GetNewPage_id in Ha as [?|[? ?]]; [done|tauto|done]. }
  eexists _, _. split; [by eapply frame_at_store|].
  split; [done|]. split; [done|].
  intros f0 E. rewrite E in Hfound. inversion Hfound; subst found.
  inversion Ha; subst s1. rewrite E in Ha0. inversion Ha0; subst found'.
  done.
Qed.

(** On a hit [FetchPgImp] changes the frame's bytes and the disk log and
    nothing else: the pin count, the dirty flag, the replacer, the page
    table and the free list are as before. *)
Lemma FetchPgImp_hit s p f pg :
  Find (page_table_ s) p = Done (Some f) →
  frame_at s f = Done pg →
  FetchPgImp s p =
    Done (Some f,
          set_disk_manager
            (store_frame s f
               (mkPage (image (disk_manager_ s) p) (page_id_ pg)
                       (pin_count_ pg) (is_dirty_ pg)))
            (ReadPage (disk_manager_ s) p).2).
Proof.
  intros Hf Hpg. unfold BPM.FetchPgImp. rewrite Hf. simpl.
  rewrite Hf. simpl. rewrite Hpg. done.
Qed.

(** C7.  [UnpinPgImp] returns false and changes nothing when the page is not
    in the page table or its frame's pin count is not positive.  Otherwise,
    the page being bound to its frame as the manager keeps it between calls
    (the replacer has a node for the frame, not evictable while the frame is
    pinned), it returns true, ors the flag into [is_dirty_] and decrements
    [pin_count_]; when the count reached zero the node of the frame in the
    replacer has its evictable flag set (and [Size] is one more), when it did
    not the replacer is as before and the node of the frame is not evictable;
    the nodes of the other frames and everything else are unchanged. *)
Theorem UnpinPgImp_cases s p d :
  (Find (page_table_ s) p = Done None → UnpinPgImp s p d = Done (false, s)) ∧
  (∀ f pg,
     Find (page_table_ s) p = Done (Some f) → frame_at s f = Done pg →
     (pin_count_ pg ≤ 0 → UnpinPgImp s p d = Done (false, s)) ∧
     (0 < pin_count_ pg → PoolSpec.bound s p f →
      ∃ r',
        UnpinPgImp s p d =
          Done (true,
                mkBPM (pool_size_ s)
                  (<[Z.to_nat f :=
                       mkPage (data_ pg) (page_id_ pg) (pin_count_ pg - 1)
                              (is_dirty_ pg || d)]> (pages_ s))
                  (page_table_ s) r' (free_list_ s) (next_page_id_ s)
                  (disk_manager_ s)) ∧
        (∀ g, g ≠ f →
              LRUK.find_node r' g = LRUK.find_node (replacer_ s) g) ∧
        ∃ n,
          LRUK.find_node (replacer_ s) f = Some n ∧
          LRUK.evictable_ n = false ∧
          if decide (pin_count_ pg - 1 = 0)
          then LRUK.find_node r' f
                 = Some (LRUK.mkNode f (LRUK.access_count_ n) true) ∧
               LRUK.Size r'
                 = LRUK.to_size_t (LRUK.Size (replacer_ s) + 1)
          else r' = replacer_ s)).
Proof.
  split.
  - intros E. unfold BPM.UnpinPgImp. by rewrite E.
  - intros f pg E Hpg. unfold BPM.UnpinPgImp. rewrite E. simpl. rewrite Hpg.
    simpl. split.
    + intros Hle. by rewrite bool_decide_eq_true_2.
    + intros Hlt Hbnd. rewrite bool_decide_eq_false_2 by lia.
      destruct Hbnd as (pg0 & n & Hpg0 & _ & _ & Hn & Hev & Hidok).
      rewrite Hpg in Hpg0. inversion Hpg0; subst pg0. clear Hpg0.
      rewrite bool_decide_eq_false_2 in Hev by lia.
      destruct (find_node_Some _ _ _ Hn) as [_ Hf].
      destruct (decide (pin_count_ pg - 1 = 0)) as [Hz|Hz].
      * rewrite bool_decide_eq_true_2 by done.
        destruct (SetEvictable_returns (replacer_ s) f true Hidok)
          as [r' Hr'].
        exists r'. simpl. rewrite Hr'. simpl. split; [done|]. split.
        { intros g Hg. by eapply SetEvictable_other. }
        exists n. split; [done|]. split; [done|]. split.
        { pose proof (SetEvictable_self _ _ _ _ Hr') as Hself.
          rewrite Hn, Hf in Hself. exact Hself. }
        rewrite (SetEvictable_spec _ _ true Hidok), Hn in Hr'.
        rewrite bool_decide_eq_false_2 in Hr' by (by rewrite Hev).
        inversion Hr'. unfold LRUK.Size, LRUK.write_flag.
        destruct (LRUK.set_flag (LRUK.inf_list_ (replacer_ s)) f true);
          [done|].
        by destruct (LRUK.set_flag (LRUK.countable_list_ (replacer_ s)) f
                       true).
      * rewrite bool_decide_eq_false_2 by done.
        exists (replacer_ s). split; [done|]. split; [done|].
        exists n. done.
Qed.

Lemma Find_Remove_returns (t : EHT.table Z Z) k v :
  Find t k = Done (Some v) →
  ∃ t', EHT.Remove hash t k = Done (true, t').
Proof.
  unfold EHT.Find, EHT.Remove. intros H. inv_bind H. rewrite Ha. simpl.
  inversion H as [E]. unfold EHT.Bucket_Find in E. unfold EHT.Bucket_Remove.
  destruct (EHT.erase_pair (EHT.list_ a.2) k) eqn:Er; simpl; [eauto|].
  exfalso. clear -E Er. induction (EHT.list_ a.2) as [|[k' v'] l IH]; [done|].
  simpl in *. destruct (decide (k' = k)); [done|].
  destruct (EHT.erase_pair l k); [done|]. auto.
Qed.

(** C8.  [DeletePgImp] returns true and changes nothing when the page is not
    in the page table, and returns false and changes nothing when its frame
    is pinned.  Otherwise, the page being bound to its frame as the manager
    keeps it between calls, the replacer well formed and the buckets of the
    page table in order, it returns true; afterwards [Find] misses the page
    in the page table and
    finds every other page as before, the replacer has no node for the frame
    and the nodes of the other frames are as before, the frame id is
    appended to the free list and the frame is reset (INVALID id, pin count
    0, clean, zeroed bytes). *)
Theorem DeletePgImp_cases s p :
  (Find (page_table_ s) p = Done None → DeletePgImp s p = Done (true, s)) ∧
  (∀ f pg,
     Find (page_table_ s) p = Done (Some f) → frame_at s f = Done pg →
     (0 < pin_count_ pg → DeletePgImp s p = Done (false, s)) ∧
     (pin_count_ pg ≤ 0 → PoolSpec.bound s p f →
      ReplacerSpec.wf (replacer_ s) → TableSpec.items_ok (page_table_ s) →
      ∃ t' r',
        DeletePgImp s p =
          Done (true,
                mkBPM (pool_size_ s)
                  (<[Z.to_nat f :=
                       mkPage (repeat 0 BUSTUB_PAGE_SIZE) INVALID_PAGE_ID 0
                              false]> (pages_ s))
                  t' r' (free_list_ s ++ [f]) (next_page_id_ s)
                  (disk_manager_ s)) ∧
        Find t' p = Done None ∧
        (∀ q, q ≠ p → Find t' q = Find (page_table_ s) q) ∧
        LRUK.find_node r' f = None ∧
        (∀ g, g ≠ f →
              LRUK.find_node r' g = LRUK.find_node (replacer_ s) g))).
Proof.
  split.
  - intros E. unfold BPM.DeletePgImp. by rewrite E.
  - intros f pg E Hpg. unfold BPM.DeletePgImp. rewrite E. simpl. rewrite Hpg.
    simpl. split.
    + intros Hlt. by rewrite bool_decide_eq_true_2.
    + intros Hle Hbnd Hwf Hitems. rewrite bool_decide_eq_false_2 by lia.
      destruct Hbnd as (pg0 & n & Hpg0 & _ & Hpin & Hn & Hev & _).
      rewrite Hpg in Hpg0. inversion Hpg0; subst pg0. clear Hpg0.
      rewrite bool_decide_eq_true_2 in Hev by lia.
      destruct (Find_Remove_returns _ _ _ E) as [t' Ht'].
      destruct (Remove_Find hash _ _ _ _ Hitems Ht') as (Hmiss & Hothers).
      destruct (Remove_self (replacer_ s) f n Hwf Hn Hev)
        as (r' & Hr' & Hnone & _).
      exists t', r'. rewrite Ht'. simpl. rewrite Hr'. simpl.
      split; [done|]. split; [done|]. split; [done|]. split; [done|].
      intros g Hg. by eapply RemoveInternal_other.
Qed.

(** [DeletePgImp] makes no call to the disk manager. *)
Lemma DeletePgImp_disk s p b s' :
  DeletePgImp s p = Done (b, s') → disk_manager_ s' = disk_manager_ s.
Proof.
  unfold BPM.DeletePgImp. intros H. inv_bind H.
  destruct a as [f|]; [|by inversion H].
  inv_bind H. case_bool_decide; [by inversion H|].
  inv_bind H. inv_bind H. by inversion H.
Qed.

(** C9.  [DeletePgImp] on a resident, unpinned and dirty frame writes nothing
    to disk: the disk manager (image and log) is as before, and the frame is
    left clean with zeroed bytes, so the modified bytes are lost. *)
Theorem DeletePgImp_discards_dirty s p f pg s' :
  Find (page_table_ s) p = Done (Some f) →
  frame_at s f = Done pg →
  pin_count_ pg ≤ 0 →
  is_dirty_ pg = true →
  DeletePgImp s p = Done (true, s') →
  disk_manager_ s' = disk_manager_ s ∧
  image (disk_manager_ s') p = image (disk_manager_ s) p ∧
  frame_at s' f =
    Done (mkPage (repeat 0 BUSTUB_PAGE_SIZE) INVALID_PAGE_ID 0 false).
Proof.
  intros E Hpg Hle Hd H.
  pose proof (DeletePgImp_disk _ _ _ _ H) as Hdisk.
  split; [done|]. split; [by rewrite Hdisk|].
  unfold BPM.DeletePgImp in H. rewrite E in H. simpl in H.
  rewrite Hpg in H. simpl in H. rewrite bool_decide_eq_false_2 in H by lia.
  inv_bind H. inv_bind H. inversion H; subst s'.
  unfold DeallocatePage. eapply frame_at_store.
  unfold frame_at in *. simpl. exact Hpg.
Qed.

(** *** Further properties of the manager *)

(** On a hit [FetchPgImp] reads the page into the frame and does nothing
    else: the frame keeps its pin count, dirty flag and page id, no access is
    recorded in the replacer, and the page table, the free list, the page id
    counter, the other frames and the on-disk image are as before. *)
Theorem FetchPgImp_hit_effect s p f pg :
  Find (page_table_ s) p = Done (Some f) →
  frame_at s f = Done pg →
  ∃ s', FetchPgImp s p = Done (Some f, s') ∧
        frame_at s' f =
          Done (mkPage (image (disk_manager_ s) p) (page_id_ pg)
                       (pin_count_ pg) (is_dirty_ pg)) ∧
        (∀ g, 0 ≤ g → g ≠ f → frame_at s' g = frame_at s g) ∧
        replacer_ s' = replacer_ s ∧ page_table_ s' = page_table_ s ∧
        free_list_ s' = free_list_ s ∧ next_page_id_ s' = next_page_id_ s ∧
        image (disk_manager_ s') = image (disk_manager_ s) ∧
        io_log (disk_manager_ s') = io_log (disk_manager_ s) ++ [IoRead p].
Proof.
  intros Hf Hpg. rewrite (FetchPgImp_hit s p f pg Hf Hpg).
  eexists. split; [done|]. split; [by eapply frame_at_store|].
  split; [|done]. intros g Hg Hne.
  apply frame_at_Done in Hpg as [Hf0 _].
  unfold set_disk_manager. simpl.
  pose proof (frame_at_store_ne s f g
    (mkPage (image (disk_manager_ s) p) (page_id_ pg) (pin_count_ pg)
            (is_dirty_ pg)) Hf0 Hg (not_eq_sym Hne)) as Hx.
  unfold frame_at, store_frame in *. simpl in *. exact Hx.
Qed.

(** [FlushPgImp]: false and no change when the page is not in the page table;
    otherwise the frame's bytes become the on-disk image of the page, one
    write is logged, the dirty flag is cleared and nothing else changes
    (the pin count in particular). *)
Theorem FlushPgImp_cases s p :
  (Find (page_table_ s) p = Done None → FlushPgImp s p = Done (false, s)) ∧
  (∀ f pg,
     Find (page_table_ s) p = Done (Some f) → frame_at s f = Done pg →
     ∃ s', FlushPgImp s p = Done (true, s') ∧
           image (disk_manager_ s') p = data_ pg ∧
           (∀ q, q ≠ p →
                 image (disk_manager_ s') q = image (disk_manager_ s) q) ∧
           io_log (disk_manager_ s')
             = io_log (disk_manager_ s) ++ [IoWrite p (data_ pg)] ∧
           frame_at s' f = Done (flushed pg) ∧
           replacer_ s' = replacer_ s ∧ page_table_ s' = page_table_ s ∧
           free_list_ s' = free_list_ s).
Proof.
  split.
  - intros E. unfold BPM.FlushPgImp. by rewrite E.
  - intros f pg E Hpg. unfold BPM.FlushPgImp. rewrite E. simpl. rewrite Hpg.
    simpl. eexists. split; [done|]. simpl.
    split; [by rewrite decide_True|].
    split; [intros q Hq; by rewrite decide_False|].
    split; [done|]. split; [|done].
    apply (frame_at_store s f pg). done.
Qed.

(** Round trip: after [FlushPgImp] of a resident page, [FetchPgImp] of that
    page returns its frame with the bytes that were flushed. *)
Theorem Flush_then_Fetch s p f pg s1 :
  Find (page_table_ s) p = Done (Some f) →
  frame_at s f = Done pg →
  FlushPgImp s p = Done (true, s1) →
  ∃ s2, FetchPgImp s1 p = Done (Some f, s2) ∧
        frame_at s2 f = Done (flushed pg).
Proof.
  intros E Hpg H. unfold BPM.FlushPgImp in H. rewrite E in H. simpl in H.
  rewrite Hpg in H. simpl in H. inversion H; subst s1; clear H.
  assert (frame_at
            (set_disk_manager (store_frame s f (flushed pg))
               (WritePage (disk_manager_ s) p (data_ pg))) f
          = Done (flushed pg)) as Hpg1.
  { apply (frame_at_store s f pg). done. }
  eexists. split.
  - apply FetchPgImp_hit; [exact E | exact Hpg1].
  - simpl. rewrite decide_True by done.
    apply frame_at_Done in Hpg as [Hf0 Hl]. apply frame_at_Done.
    split; [done|]. simpl. rewrite list_insert_insert_eq.
    apply list_lookup_insert_eq. by eapply lookup_lt_Some.
Qed.

Lemma flush_frames_spec pre rest s :
  pages_ s = pre ++ rest →
  ∃ s', flush_frames (length pre) (length rest) s = Done s' ∧
        pages_ s' = pre ++ (flushed <$> rest) ∧
        io_log (disk_manager_ s')
          = io_log (disk_manager_ s) ++ (write_of <$> rest) ∧
        page_table_ s' = page_table_ s ∧ replacer_ s' = replacer_ s ∧
        free_list_ s' = free_list_ s ∧ next_page_id_ s' = next_page_id_ s ∧
        pool_size_ s' = pool_size_ s.
Proof.
  revert pre s. induction rest as [|pg rest IH]; intros pre s Hp; simpl.
  - exists s. rewrite app_nil_r in Hp. rewrite !app_nil_r. by repeat split.
  - unfold at_index. rewrite Hp, list_lookup_middle by done. simpl.
    rewrite (insert_app_r_alt pre (pg :: rest) (length pre)) by lia.
    rewrite Nat.sub_diag. simpl.
    change (mkPage (data_ pg) (page_id_ pg) (pin_count_ pg) false)
      with (flushed pg).
    destruct (IH (pre ++ [flushed pg])
                (set_disk_manager
                   (set_pages s (pre ++ flushed pg :: rest))
                   (WritePage (disk_manager_ s) (page_id_ pg) (data_ pg))))
      as (s' & Hrun & Hpages & Hlog & Hrest).
    { simpl. by rewrite <- app_assoc. }
    rewrite length_app in Hrun. simpl in Hrun. rewrite Nat.add_1_r in Hrun.
    exists s'. split; [exact Hrun|]. split.
    + rewrite Hpages, <- app_assoc. done.
    + split; [|exact Hrest]. rewrite Hlog. simpl. by rewrite <- app_assoc.
Qed.

(** [FlushAllPgsImp] writes every frame of the pool, bound or not, under the
    page id the frame holds, in frame order, and clears every dirty flag; the
    page table, the replacer and the free list are untouched. *)
Theorem FlushAllPgsImp_writes_every_frame s :
  length (pages_ s) = pool_size_ s →
  ∃ s', FlushAllPgsImp s = Done s' ∧
        pages_ s' = flushed <$> pages_ s ∧
        io_log (disk_manager_ s')
          = io_log (disk_manager_ s) ++ (write_of <$> pages_ s) ∧
        page_table_ s' = page_table_ s ∧ replacer_ s' = replacer_ s ∧
        free_list_ s' = free_list_ s.
Proof.
  intros Hlen. unfold FlushAllPgsImp. rewrite <- Hlen.
  destruct (flush_frames_spec [] (pages_ s) s eq_refl)
    as (s' & Hrun & Hp & Hl & Ht & Hr & Hf & _).
  exists s'. simpl in *. repeat split; done.
Qed.

(** No frame available: with an empty free list and a replacer of size 0,
    [NewPgImp] returns [nullptr] and [INVALID_PAGE_ID], a [FetchPgImp] that
    misses returns [nullptr], and neither changes the state. *)
Theorem no_frame_available s p :
  free_list_ s = [] → LRUK.Size (replacer_ s) ≤ 0 →
  NewPgImp s = Done (INVALID_PAGE_ID, None, s) ∧
  (Find (page_table_ s) p = Done None → FetchPgImp s p = Done (None, s)).
Proof.
  intros Hfl Hsz.
  assert (∀ q, GetNewPage s q = Done (INVALID_PAGE_ID, s)) as Hg.
  { intros q. unfold BPM.GetNewPage, pick_frame. rewrite Hfl.
    rewrite (bool_decide_eq_false_2 (0 < LRUK.Size (replacer_ s))) by lia.
    done. }
  split.
  - unfold BPM.NewPgImp. rewrite Hg. simpl.
    by rewrite bool_decide_eq_true_2.
  - intros E. unfold BPM.FetchPgImp. rewrite E. simpl. rewrite Hg. simpl.
    by rewrite bool_decide_eq_true_2.
Qed.

Lemma pick_frame_keeps s f s1 :
  pick_frame s = Done (Some (f, s1)) →
  pages_ s1 = pages_ s ∧ disk_manager_ s1 = disk_manager_ s ∧
  next_page_id_ s1 = next_page_id_ s ∧ page_table_ s1 = page_table_ s.
Proof.
  unfold pick_frame. intros H. destruct (free_list_ s) as [|g rest].
  - case_bool_decide; [|done]. inv_bind H. by inversion H.
  - by inversion H.
Qed.

(** Rebinding: when [GetNewPage] has picked frame [f] and returns, the page
    id is the one asked for, or the next id of the allocator when
    [INVALID_PAGE_ID] was passed (and the allocator advances by one); the
    frame is bound to that id, zeroed, clean and pinned once; and the only
    call to the disk manager is the write-back of the frame's old bytes under
    its old page id, made exactly when the frame was dirty. *)
Theorem GetNewPage_rebinds s p f s1 pg q s' :
  pick_frame s = Done (Some (f, s1)) →
  frame_at s f = Done pg →
  GetNewPage s p = Done (q, s') →
  q = (if decide (p = INVALID_PAGE_ID) then next_page_id_ s else p) ∧
  next_page_id_ s' =
    (if decide (p = INVALID_PAGE_ID)
     then LRUK.to_int (next_page_id_ s + 1) else next_page_id_ s) ∧
  free_list_ s' = free_list_ s1 ∧
  frame_at s' f = Done (mkPage (repeat 0 BUSTUB_PAGE_SIZE) q 1 false) ∧
  disk_manager_ s' =
    (if is_dirty_ pg
     then WritePage (disk_manager_ s) (page_id_ pg) (data_ pg)
     else disk_manager_ s).
Proof.
  intros Hpick Hpg H.
  destruct (pick_frame_keeps s f s1 Hpick) as (Hp1 & Hd1 & Hn1 & _).
  unfold BPM.GetNewPage, AllocatePage in H. rewrite Hpick in H. simpl in H.
  assert (frame_at s1 f = Done pg) as Hpg'.
  { unfold frame_at in *. by rewrite Hp1. }
  rewrite Hpg' in H. simpl in H.
  apply frame_at_Done in Hpg' as [Hf0 Hl].
  assert (Z.to_nat f < length (pages_ s1))%nat as Hlt
    by (by eapply lookup_lt_Some).
  rewrite <- Hd1, <- Hn1.
  destruct (decide (p = INVALID_PAGE_ID)) as [->|Hne].
  - rewrite bool_decide_eq_true_2 in H by done. simpl in H.
    destruct (is_dirty_ pg); inv_bind H; inv_bind H; inv_bind H;
      inv_bind H; inversion H; subst q s'; simpl;
      (split; [done|]); (split; [done|]); (split; [done|]);
      (split; [|done]); apply frame_at_Done; (split; [done|]); simpl;
      by apply list_lookup_insert_eq.
  - rewrite bool_decide_eq_false_2 in H by done. simpl in H.
    destruct (is_dirty_ pg); inv_bind H; inv_bind H; inv_bind H;
      inv_bind H; inversion H; subst q s'; simpl;
      (split; [done|]); (split; [done|]); (split; [done|]);
      (split; [|done]); apply frame_at_Done; (split; [done|]); simpl;
      by apply list_lookup_insert_eq.
Qed.

(** [UnpinPgImp] and [DeletePgImp] never call the disk manager. *)
Theorem Unpin_Delete_no_io s p d b s' :
  (UnpinPgImp s p d = Done (b, s') → disk_manager_ s' = disk_manager_ s) ∧
  (DeletePgImp s p = Done (b, s') → disk_manager_ s' = disk_manager_ s).
Proof.
  split; [|apply DeletePgImp_disk].
  unfold BPM.UnpinPgImp. intros H. inv_bind H.
  destruct a as [f|]; [|by inversion H].
  inv_bind H. case_bool_decide; [by inversion H|].
  case_bool_decide; [inv_bind H|]; by inversion H.
Qed.

End BufferPoolFacts.

Section BufferPoolExamples.

Import BPM Examples.
Local Open Scope Z_scope.

(** C1 (the code at the failing input).  On the fresh two-frame pool,
    [FetchPage(5)] misses and pins frame 0; a second [FetchPage(5)] hits,
    returns frame 0 again and leaves its pin count at 1. *)
Theorem FetchPgImp_twice_pin_count :
  (r1 ← fetch pool0 5;
   r2 ← fetch r1.2 5;
   pg1 ← frame_at r1.2 0;
   pg2 ← frame_at r2.2 0;
   mret (r1.1, pin_count_ pg1, r2.1, pin_count_ pg2))
  = Done (Some 0, 1, Some 0, 1).
Proof. vm_compute. reflexivity. Qed.

(** C2 (counterexample).  [FetchPage(INVALID_PAGE_ID)] on the fresh
    two-frame pool misses; [GetNewPage] takes frame 0 and, as it was given
    [INVALID_PAGE_ID], the next id of the allocator, 0; the read that follows
    is [ReadPage(0, ...)].  The call returns frame 0, whose bytes are the
    image of page 0 and not the image of the page that was asked for, and
    the only read in the disk log is that of page 0. *)
Theorem FetchPgImp_invalid_id_reads_new_page :
  ∃ s' pg,
    fetch pool0 (-1) = Done (Some 0, s') ∧
    frame_at s' 0 = Done pg ∧
    page_id_ pg = 0 ∧
    data_ pg = image (disk_manager_ s') 0 ∧
    data_ pg ≠ image (disk_manager_ s') (-1) ∧
    io_log (disk_manager_ s') = [IoRead 0].
Proof.
  eexists _, _. split; [vm_compute; reflexivity|].
  split; [vm_compute; reflexivity|]. simpl.
  repeat split; try reflexivity. discriminate.
Qed.

Lemma FetchPgImp_reads_disk_witness :
  fetch s_dirty 5 = Done (Some 0, s_refetched) ∧
  frame_at s_dirty 0 = Done (mkPage [7; 7] 5 0 true) ∧
  ∃ pg' log,
    frame_at s_refetched 0 = Done pg' ∧
    data_ pg' = image (disk_manager_ s_refetched) 5 ∧
    io_log (disk_manager_ s_refetched) = log ++ [IoRead 5] ∧
    (∀ f0, EHT.Find hash_id (page_table_ s_dirty) 5 = Done (Some f0) →
       0 = f0 ∧ log = io_log (disk_manager_ s_dirty) ∧
       data_ pg' = image (disk_manager_ s_dirty) 5).
Proof.
  split; [vm_compute; reflexivity|]. split; [vm_compute; reflexivity|].
  apply (FetchPgImp_reads_disk 2 (-1) hash_id loop_insert s_dirty 5 0
           s_refetched).
  - lia.
  - vm_compute. reflexivity.
Defined.

Lemma DeletePgImp_discards_dirty_witness :
  frame_at s_dirty 0 = Done (mkPage [7; 7] 5 0 true) ∧
  disk_manager_ (final pool0 (r ← delete s_dirty 5; mret r.2))
    = disk_manager_ s_dirty ∧
  image (disk_manager_ (final pool0 (r ← delete s_dirty 5; mret r.2))) 5
    = [5; 5] ∧
  frame_at (final pool0 (r ← delete s_dirty 5; mret r.2)) 0
    = Done (mkPage [0; 0] (-1) 0 false).
Proof.
  split; [vm_compute; reflexivity|].
  destruct (DeletePgImp_discards_dirty 2 (-1) hash_id s_dirty 5 0
              (mkPage [7; 7] 5 0 true)
              (final pool0 (r ← delete s_dirty 5; mret r.2)))
    as (H1 & H2 & H3).
  - vm_compute. reflexivity.
  - vm_compute. reflexivity.
  - simpl. lia.
  - reflexivity.
  - vm_compute. reflexivity.
  - split; [exact H1|]. split; [|exact H3].
    rewrite H2. vm_compute. reflexivity.
Defined.

Lemma FetchPgImp_hit_effect_witness :
  ∃ s', fetch s_dirty 5 = Done (Some 0, s') ∧
        frame_at s' 0 =
          Done (mkPage (image (disk_manager_ s_dirty) 5) 5 0 true) ∧
        (∀ g, 0 ≤ g → g ≠ 0 → frame_at s' g = frame_at s_dirty g) ∧
        replacer_ s' = replacer_ s_dirty ∧
        page_table_ s' = page_table_ s_dirty ∧
        free_list_ s' = free_list_ s_dirty ∧
        next_page_id_ s' = next_page_id_ s_dirty ∧
        image (disk_manager_ s') = image (disk_manager_ s_dirty) ∧
        io_log (disk_manager_ s')
          = io_log (disk_manager_ s_dirty) ++ [IoRead 5].
Proof.
  apply (FetchPgImp_hit_effect 2 (-1) hash_id loop_insert s_dirty 5 0
           (mkPage [7; 7] 5 0 true)); vm_compute; reflexivity.
Defined.

Lemma FlushPgImp_cases_witness :
  flush pool0 5 = Done (false, pool0) ∧
  ∃ s', flush s_dirty 5 = Done (true, s') ∧
        image (disk_manager_ s') 5 = [7; 7] ∧
        (∀ q, q ≠ 5 →
              image (disk_manager_ s') q = image (disk_manager_ s_dirty) q) ∧
        io_log (disk_manager_ s')
          = io_log (disk_manager_ s_dirty) ++ [IoWrite 5 [7; 7]] ∧
        frame_at s' 0 = Done (flushed (mkPage [7; 7] 5 0 true)) ∧
        replacer_ s' = replacer_ s_dirty ∧
        page_table_ s' = page_table_ s_dirty ∧
        free_list_ s' = free_list_ s_dirty.
Proof.
  split.
  - apply (proj1 (FlushPgImp_cases hash_id pool0 5)). vm_compute. reflexivity.
  - apply (proj2 (FlushPgImp_cases hash_id s_dirty 5) 0
             (mkPage [7; 7] 5 0 true)); vm_compute; reflexivity.
Defined.

Lemma Flush_then_Fetch_witness :
  ∃ s2, fetch (final (false, s_dirty) (flush s_dirty 5)).2 5
          = Done (Some 0, s2) ∧
        frame_at s2 0 = Done (flushed (mkPage [7; 7] 5 0 true)).
Proof.
  apply (Flush_then_Fetch 2 (-1) hash_id loop_insert s_dirty 5 0
           (mkPage [7; 7] 5 0 true)); vm_compute; reflexivity.
Defined.

Lemma FlushAllPgsImp_writes_every_frame_witness :
  ∃ s', FlushAllPgsImp pool0 = Done s' ∧
        pages_ s' = flushed <$> pages_ pool0 ∧
        io_log (disk_manager_ s')
          = io_log (disk_manager_ pool0) ++ (write_of <$> pages_ pool0) ∧
        page_table_ s' = page_table_ pool0 ∧
        replacer_ s' = replacer_ pool0 ∧
        free_list_ s' = free_list_ pool0.
Proof. apply (FlushAllPgsImp_writes_every_frame pool0). reflexivity. Defined.

Lemma no_frame_available_witness :
  new_pg s_pinned = Done (-1, None, s_pinned) ∧
  (EHT.Find hash_id (page_table_ s_pinned) 9 = Done None →
   fetch s_pinned 9 = Done (None, s_pinned)).
Proof.
  apply (no_frame_available 2 (-1) hash_id loop_insert s_pinned 9).
  - reflexivity.
  - vm_compute. discriminate.
Defined.

Lemma GetNewPage_rebinds_witness :
  final (0, s_victim) (GetNewPage 2 (-1) hash_id loop_insert s_victim 6) = (6, s_rebound) ∧
  frame_at s_victim 0 = Done (mkPage [7; 7] 5 0 true) ∧
  frame_at s_rebound 0 = Done (mkPage [0; 0] 6 1 false) ∧
  disk_manager_ s_rebound
    = WritePage (disk_manager_ s_victim) 5 [7; 7].
Proof.
  split; [vm_compute; reflexivity|]. split; [vm_compute; reflexivity|].
  destruct (GetNewPage_rebinds 2 (-1) hash_id loop_insert s_victim 6 0
              (set_replacer s_victim (LRUK.new_replacer 1 2))
              (mkPage [7; 7] 5 0 true) 6 s_rebound)
    as (_ & _ & _ & H1 & H2).
  - vm_compute. reflexivity.
  - vm_compute. reflexivity.
  - vm_compute. reflexivity.
  - split; [exact H1 | exact H2].
Defined.

Lemma Unpin_Delete_no_io_witness :
  disk_manager_ (final (false, s_fetched) (unpin s_fetched 5 true)).2
    = disk_manager_ s_fetched ∧
  disk_manager_ (final (false, s_dirty) (delete s_dirty 5)).2
    = disk_manager_ s_dirty.
Proof.
  split.
  - apply (proj1 (Unpin_Delete_no_io 2 (-1) hash_id s_fetched 5 true true
                    (final (false, s_fetched) (unpin s_fetched 5 true)).2)).
    vm_compute. reflexivity.
  - apply (proj2 (Unpin_Delete_no_io 2 (-1) hash_id s_dirty 5 true true
                    (final (false, s_dirty) (delete s_dirty 5)).2)).
    vm_compute. reflexivity.
Defined.

End BufferPoolExamples.

(** ** Buffer pool manager: the state between calls *)

Section PoolFrames.

Import BPM PoolSpec.
Local Open Scope Z_scope.

Implicit Types (s : BufferPoolManagerInstance) (p q f g : Z) (pg : Page).

Lemma frame_at_insert_eq s s' f pg pg' :
  pages_ s' = <[Z.to_nat f := pg']> (pages_ s) →
  frame_at s f = Done pg → frame_at s' f = Done pg'.
Proof.
  rewrite !frame_at_Done. intros -> [Hf Hl]. split; [done|].
  apply list_lookup_insert_eq. by eapply lookup_lt_Some.
Qed.

Lemma frame_at_insert_ne s s' f pg' g :
  pages_ s' = <[Z.to_nat f := pg']> (pages_ s) → 0 ≤ f → g ≠ f →
  frame_at s' g = frame_at s g.
Proof.
  intros Hp Hf Hne. unfold frame_at, at_index. rewrite Hp.
  case_bool_decide; [|done]. rewrite list_lookup_insert_ne by lia. done.
Qed.

Lemma frame_at_pages s s' g :
  pages_ s' = pages_ s → frame_at s' g = frame_at s g.
Proof. intros Hp. unfold frame_at. by rewrite Hp. Qed.

(** A binding survives when its frame keeps its page id and pin count and
    the node of the frame is as before. *)
Lemma bound_transfer s s' p f :
  bound s p f →
  (∀ pg, frame_at s f = Done pg →
         ∃ pg', frame_at s' f = Done pg' ∧ page_id_ pg' = page_id_ pg ∧
                pin_count_ pg' = pin_count_ pg) →
  LRUK.find_node (replacer_ s') f = LRUK.find_node (replacer_ s) f →
  LRUK.replacer_size_ (replacer_ s') = LRUK.replacer_size_ (replacer_ s) →
  bound s' p f.
Proof.
  intros (pg & n & Hpg & Hid & Hpin & Hn & Hev & Hok) Hframe Hnode Hsize.
  destruct (Hframe pg Hpg) as (pg' & Hpg' & Hid' & Hpin').
  exists pg', n. rewrite Hid', Hpin', Hnode.
  rewrite (frame_id_ok_size _ _ f Hsize). done.
Qed.

(** Two pages bound to one frame are one page. *)
Lemma bound_inj s p q f : bound s p f → bound s q f → p = q.
Proof.
  intros (pg & _ & Hpg & Hid & _) (pg' & _ & Hpg' & Hid' & _).
  rewrite Hpg in Hpg'. inversion Hpg'. congruence.
Qed.

Lemma bound_frame s p f : bound s p f → 0 ≤ f.
Proof. intros (pg & _ & Hpg & _). by apply frame_at_Done in Hpg as [? _]. Qed.

Lemma pick_frame_Done s f s1 :
  pick_frame s = Done (Some (f, s1)) →
  pool_size_ s1 = pool_size_ s ∧ pages_ s1 = pages_ s ∧
  page_table_ s1 = page_table_ s ∧
  (replacer_ s1 = replacer_ s ∨
   ∃ o, LRUK.Evict (replacer_ s) = Done (replacer_ s1, o) ∧
        f = default (-1) o).
Proof.
  unfold pick_frame. intros H. destruct (free_list_ s) as [|g rest].
  - case_bool_decide; [|done]. inv_bind H. destruct a as [r o].
    inversion H; subst. simpl. repeat split. right. eauto.
  - inversion H; subst. simpl. auto.
Qed.

End PoolFrames.

Section PoolCalls.

Import BPM PoolSpec.
Local Open Scope Z_scope.

Variable BUSTUB_PAGE_SIZE : nat.
Variable INVALID_PAGE_ID : Z.
Variable hash : Z → Z.

Implicit Types (s : BufferPoolManagerInstance) (p q f g : Z) (pg : Page).

Local Abbreviation pool_ok := (PoolSpec.pool_ok hash).
Local Abbreviation Find := (EHT.Find hash).

(** The invariant reads the frames, the page table and the replacer only. *)
Lemma pool_ok_core s s' :
  pool_ok s →
  pool_size_ s' = pool_size_ s → pages_ s' = pages_ s →
  page_table_ s' = page_table_ s → replacer_ s' = replacer_ s →
  pool_ok s'.
Proof.
  intros [Hlen Hd Hi Hr Hb] Hsz Hp Ht Hrp.
  split; rewrite ?Hsz, ?Hp, ?Ht, ?Hrp; try done.
  intros p f Hfind. apply Hb in Hfind.
  eapply bound_transfer; [exact Hfind | | by rewrite Hrp | by rewrite Hrp].
  intros pg Hpg. exists pg. by rewrite (frame_at_pages s s' f Hp).
Qed.

(** Writing bytes or the dirty flag into a frame. *)
Lemma pool_ok_store s f pg pg' s' :
  pool_ok s → frame_at s f = Done pg →
  page_id_ pg' = page_id_ pg → pin_count_ pg' = pin_count_ pg →
  pool_size_ s' = pool_size_ s →
  pages_ s' = <[Z.to_nat f := pg']> (pages_ s) →
  page_table_ s' = page_table_ s → replacer_ s' = replacer_ s →
  pool_ok s'.
Proof.
  intros [Hlen Hd Hi Hr Hb] Hpg Hid Hpin Hsz Hp Ht Hrp.
  split; rewrite ?Hsz, ?Ht, ?Hrp; try done.
  - by rewrite Hp, length_insert.
  - intros q g Hfind. apply Hb in Hfind.
    eapply bound_transfer; [exact Hfind | | by rewrite Hrp | by rewrite Hrp].
    intros pg0 Hpg0. destruct (decide (g = f)) as [->|Hne].
    + rewrite Hpg in Hpg0. inversion Hpg0; subst pg0. exists pg'.
      split; [by eapply frame_at_insert_eq | done].
    + exists pg0. split; [|done].
      rewrite (frame_at_insert_ne s s' f pg' g Hp); [done | | done].
      by apply frame_at_Done in Hpg as [? _].
Qed.

Lemma UnpinPgImp_pool_ok s p d b s' :
  pool_ok s → UnpinPgImp hash s p d = Done (b, s') → pool_ok s'.
Proof.
  intros Hok H. unfold UnpinPgImp in H. inv_bind H.
  destruct a as [f|]; [|by inversion H; subst].
  pose proof (pool_bound hash s Hok p f Ha) as Hbnd.
  inv_bind H. rename a into pg, Ha0 into Hpg.
  case_bool_decide as Hpin; [by inversion H; subst|].
  destruct Hbnd as (pg0 & n & Hpg0 & Hid & Hpos & Hn & Hev & Hidok).
  rewrite Hpg in Hpg0. inversion Hpg0; subst pg0. clear Hpg0.
  rewrite bool_decide_eq_false_2 in Hev by lia.
  pose proof Hok as [Hlen Hd Hi Hr Hb].
  pose proof Hpg as Hpg'. apply frame_at_Done in Hpg' as [Hf0 _].
  set (pg' := mkPage (data_ pg) (page_id_ pg) (pin_count_ pg - 1)
                     (is_dirty_ pg || d)) in *.
  assert (∀ r', (if bool_decide (pin_count_ pg - 1 = 0)
                 then LRUK.SetEvictable (replacer_ s) f true = Done r'
                 else r' = replacer_ s) →
                pool_ok (set_replacer (store_frame s f pg') r')) as Hmain.
  { intros r' Hr'.
    assert (ReplacerSpec.wf r' ∧
            LRUK.replacer_size_ r' = LRUK.replacer_size_ (replacer_ s) ∧
            (∀ g, g ≠ f →
                  LRUK.find_node r' g = LRUK.find_node (replacer_ s) g) ∧
            ∃ n', LRUK.find_node r' f = Some n' ∧
                  LRUK.evictable_ n'
                    = bool_decide (pin_count_ pg - 1 = 0))
      as (Hwf' & Hsz' & Hoth & n' & Hn' & Hev').
    { case_bool_decide as Hz.
      - split; [by eapply wf_SetEvictable|].
        split; [by destruct (SetEvictable_size _ _ _ _ Hr')|].
        split; [intros g Hg; by eapply SetEvictable_other|].
        pose proof (SetEvictable_self _ _ _ _ Hr') as Hself.
        rewrite Hn in Hself. eexists. split; [exact Hself | done].
      - subst r'. split; [done|]. split; [done|]. split; [done|].
        exists n. by split. }
    split; simpl; try done.
    - by rewrite length_insert.
    - intros q g Hfind. pose proof (Hb q g Hfind) as Hbq.
      destruct (decide (g = f)) as [->|Hne].
      + exists pg', n'. split; [by eapply frame_at_store|].
        split.
        { simpl. destruct Hbq as (pg1 & _ & Hpg1 & Hid1 & _).
          rewrite Hpg in Hpg1. by inversion Hpg1; subst. }
        split; [simpl; lia|]. split; [done|]. split; [done|].
        simpl. by rewrite (frame_id_ok_size _ _ f Hsz').
      + eapply bound_transfer; [exact Hbq | | by apply Hoth | done].
        intros pg1 Hpg1. exists pg1. split; [|done].
        rewrite <- Hpg1. apply frame_at_store_ne; [done | | done].
        by apply frame_at_Done in Hpg1 as [? _]. }
  simpl in H. fold pg' in H.
  destruct (decide (pin_count_ pg - 1 = 0)) as [Hz|Hz].
  - rewrite (bool_decide_eq_true_2 (pin_count_ pg' = 0)) in H by exact Hz.
    inv_bind H. inversion H; subst b s'. apply Hmain.
    by rewrite bool_decide_eq_true_2.
  - rewrite (bool_decide_eq_false_2 (pin_count_ pg' = 0)) in H by exact Hz.
    inversion H; subst b s'.
    eapply pool_ok_core; [apply (Hmain (replacer_ s))| | | |]; try done.
    by rewrite bool_decide_eq_false_2.
Qed.

Lemma FlushPgImp_pool_ok s p b s' :
  pool_ok s → FlushPgImp hash s p = Done (b, s') → pool_ok s'.
Proof.
  intros Hok H. unfold FlushPgImp in H. inv_bind H.
  destruct a as [f|]; [|by inversion H; subst].
  inv_bind H. rename a into pg. inversion H; subst b s'.
  by eapply (pool_ok_store s f pg
               (mkPage (data_ pg) (page_id_ pg) (pin_count_ pg) false)).
Qed.

Lemma FlushAllPgsImp_pool_ok s s' :
  pool_ok s → FlushAllPgsImp s = Done s' → pool_ok s'.
Proof.
  intros Hok H. pose proof Hok as [Hlen Hd Hi Hr Hb].
  destruct (flush_frames_spec [] (pages_ s) s eq_refl)
    as (s0 & Hrun & Hp & _ & Ht & Hrp & _ & _ & Hsz).
  unfold FlushAllPgsImp in H. simpl in Hrun. rewrite Hlen in Hrun.
  rewrite Hrun in H. inversion H; subst s0. simpl in Hp.
  split; rewrite ?Hsz, ?Ht, ?Hrp; try done.
  - by rewrite Hp, length_fmap.
  - intros q g Hfind. apply Hb in Hfind.
    eapply bound_transfer; [exact Hfind | | by rewrite Hrp | by rewrite Hrp].
    intros pg Hpg. exists (flushed pg). split; [|done].
    apply frame_at_Done in Hpg as [Hg Hl]. apply frame_at_Done.
    split; [done|]. by rewrite Hp, list_lookup_fmap, Hl.
Qed.

Lemma DeletePgImp_pool_ok s p b s' :
  pool_ok s →
  DeletePgImp BUSTUB_PAGE_SIZE INVALID_PAGE_ID hash s p = Done (b, s') →
  pool_ok s'.
Proof.
  intros Hok H. unfold DeletePgImp in H. inv_bind H.
  destruct a as [f|]; [|by inversion H; subst].
  pose proof (pool_bound hash s Hok p f Ha) as Hbnd.
  inv_bind H. rename a into pg, Ha0 into Hpg.
  case_bool_decide as Hpin; [by inversion H; subst|].
  inv_bind H. destruct a as [rb t']. inv_bind H. rename a into r'.
  inversion H; subst b s'. clear H. unfold DeallocatePage. simpl.
  pose proof Hok as [Hlen Hd Hi Hr Hb].
  destruct (Remove_lookup hash _ _ _ _ Hd Hi Ha0)
    as (Hd' & Hi' & Hmiss & Hothers).
  pose proof Hpg as Hpg'. apply frame_at_Done in Hpg' as [Hf0 _].
  split; simpl; try done.
  - by rewrite length_insert.
  - by eapply wf_RemoveInternal.
  - intros q g Hfind.
    assert (q ≠ p) as Hqp by (intros ->; congruence).
    rewrite (Hothers q Hqp) in Hfind. pose proof (Hb q g Hfind) as Hbq.
    assert (g ≠ f) as Hne.
    { intros ->. apply Hqp. by eapply bound_inj. }
    eapply bound_transfer; [exact Hbq | | |]; simpl.
    + intros pg1 Hpg1. exists pg1. split; [|done].
      erewrite frame_at_insert_ne; [exact Hpg1 | reflexivity | done..].
    + by eapply RemoveInternal_other.
    + by eapply RemoveInternal_other.
Qed.

Lemma new_instance_pool_ok pool_size dm k bucket_size :
  1 ≤ k →
  pool_ok (new_instance BUSTUB_PAGE_SIZE INVALID_PAGE_ID pool_size dm k
             bucket_size).
Proof.
  intros Hk. split; simpl.
  - apply repeat_length.
  - apply ExtendibleHashTable_dir_wf.
  - apply ExtendibleHashTable_items_ok.
  - by apply new_replacer_invariant.
  - intros p f Hfind. by rewrite Find_new_table in Hfind.
Qed.

End PoolCalls.

Section PoolBinding.

Import BPM PoolSpec.
Local Open Scope Z_scope.

Variable BUSTUB_PAGE_SIZE : nat.
Variable INVALID_PAGE_ID : Z.
Variable hash : Z → Z.
Variable pt_Insert : EHT.table Z Z → Z → Z → outcome (EHT.table Z Z).
Hypothesis pt_Insert_map : map_insert hash pt_Insert.

Implicit Types (s : BufferPoolManagerInstance) (p q f g : Z) (pg : Page).

Local Abbreviation pool_ok := (PoolSpec.pool_ok hash).
Local Abbreviation Find := (EHT.Find hash).
Local Abbreviation GetNewPage :=
  (BPM.GetNewPage BUSTUB_PAGE_SIZE INVALID_PAGE_ID hash pt_Insert).
Local Abbreviation FetchPgImp :=
  (BPM.FetchPgImp BUSTUB_PAGE_SIZE INVALID_PAGE_ID hash pt_Insert).
Local Abbreviation NewPgImp :=
  (BPM.NewPgImp BUSTUB_PAGE_SIZE INVALID_PAGE_ID hash pt_Insert).

(** The calls [GetNewPage] makes when it has a frame. *)
Lemma GetNewPage_Done s p q s' :
  GetNewPage s p = Done (q, s') →
  s' = s ∨
  ∃ f s1 pg rm t2 r1 r2,
    pick_frame s = Done (Some (f, s1)) ∧
    frame_at s1 f = Done pg ∧
    EHT.Remove hash (page_table_ s1) (page_id_ pg) = Done rm ∧
    pt_Insert rm.2 q f = Done t2 ∧
    LRUK.SetEvictable (replacer_ s1) f false = Done r1 ∧
    LRUK.RecordAccess r1 f = Done r2 ∧
    pool_size_ s' = pool_size_ s1 ∧
    pages_ s' = <[Z.to_nat f := mkPage (repeat 0 BUSTUB_PAGE_SIZE) q 1 false]>
                  (pages_ s1) ∧
    page_table_ s' = t2 ∧ replacer_ s' = r2.
Proof.
  unfold BPM.GetNewPage, AllocatePage. intros H. inv_bind H.
  destruct a as [[f s1]|]; [|inversion H; auto].
  right. inv_bind H. rename a into pg.
  case_bool_decide; simpl in H; destruct (is_dirty_ pg);
    inv_bind H; inv_bind H; inv_bind H; inv_bind H;
    inversion H; subst q s';
    exists f, s1, pg; do 4 eexists;
    (split; [exact Ha|]); (split; [eassumption|]);
    (split; [eassumption|]); (split; [eassumption|]);
    (split; [eassumption|]); (split; [eassumption|]); done.
Qed.

Lemma GetNewPage_pool_ok s p q s' :
  pool_ok s → GetNewPage s p = Done (q, s') → pool_ok s'.
Proof.
  intros Hok H.
  destruct (GetNewPage_Done s p q s' H)
    as [->|(f & s1 & pg & rm & t2 & r1 & r2 & Hpick & Hpg & Hrm & Hins &
            Hr1 & Hr2 & Hsz & Hp & Ht & Hrp)]; [done|].
  pose proof Hok as [Hlen Hd Hi Hr Hb].
  destruct (pick_frame_Done s f s1 Hpick) as (Hsz1 & Hp1 & Ht1 & Hrep).
  pose proof Hpg as Hpg'. apply frame_at_Done in Hpg' as [Hf0 _].
  assert (frame_at s f = Done pg) as Hpgs.
  { by rewrite <- (frame_at_pages s s1 f Hp1). }
  (* the replacer when the frame has been chosen *)
  assert (ReplacerSpec.wf (replacer_ s1) ∧
          LRUK.replacer_size_ (replacer_ s1)
            = LRUK.replacer_size_ (replacer_ s) ∧
          ∀ g, g ≠ f →
               LRUK.find_node (replacer_ s1) g
                 = LRUK.find_node (replacer_ s) g)
    as (Hwf1 & Hsize1 & Hoth1).
  { destruct Hrep as [->|(o & Hev & Hf)]; [done|].
    split; [by eapply wf_Evict|].
    assert (∀ g, g ≠ f → o ≠ Some g) as Ho.
    { intros g Hg ->. simpl in Hf. congruence. }
    split.
    - destruct o as [v|].
      + eapply (Evict_other _ _ _ (v + 1)); [exact Hev|].
        intros E. inversion E. lia.
      + eapply (Evict_other _ _ _ 0); [exact Hev | done].
    - intros g Hg. eapply Evict_other; eauto. }
  (* ... and after the frame was marked and accessed *)
  pose proof (wf_SetEvictable _ _ _ _ Hwf1 Hr1) as Hwfr1.
  pose proof (wf_RecordAccess _ _ _ Hwfr1 Hr2) as Hwfr2.
  destruct (SetEvictable_size _ _ _ _ Hr1) as [Hs1 _].
  destruct (RecordAccess_size _ _ _ Hr2) as [Hs2 Hidok].
  assert (∃ n', LRUK.find_node r2 f = Some n' ∧ LRUK.evictable_ n' = false)
    as (n' & Hn' & Hev').
  { destruct (RecordAccess_self _ _ _ Hwfr1 Hr2) as (n' & Hn' & Hev').
    exists n'. split; [done|]. rewrite Hev'.
    pose proof (SetEvictable_self _ _ _ _ Hr1) as Hself.
    destruct (LRUK.find_node (replacer_ s1) f) as [n1|] eqn:E.
    - by rewrite Hself.
    - subst r1. by rewrite E. }
  (* the page table *)
  rewrite Ht1 in Hrm. destruct rm as [rb t1]. simpl in Hins.
  destruct (Remove_lookup hash _ _ _ _ Hd Hi Hrm)
    as (Hd1 & Hi1 & Hmiss & Hothers).
  destruct (pt_Insert_map _ _ _ _ Hd1 Hi1 Hins)
    as (Hd2 & Hi2 & Hnew & Hkeeps).
  split; rewrite ?Hsz, ?Ht, ?Hrp; try done.
  - by rewrite Hp, length_insert, Hp1, Hsz1.
  - intros q' g Hfind. destruct (decide (q' = q)) as [->|Hq].
    + rewrite Hnew in Hfind. inversion Hfind; subst g.
      exists (mkPage (repeat 0 BUSTUB_PAGE_SIZE) q 1 false), n'.
      split; [by eapply frame_at_insert_eq|]. rewrite Hrp.
      repeat split; try done.
      by rewrite (frame_id_ok_size _ _ f Hs2).
    + rewrite (Hkeeps q' Hq) in Hfind.
      assert (q' ≠ page_id_ pg) as Hold by (intros ->; congruence).
      rewrite (Hothers q' Hold) in Hfind.
      pose proof (Hb q' g Hfind) as Hbq.
      assert (g ≠ f) as Hne.
      { intros ->. apply Hold. destruct Hbq as (pg1 & _ & Hpg1 & Hid1 & _).
        rewrite Hpgs in Hpg1. by inversion Hpg1; subst. }
      eapply bound_transfer; [exact Hbq | | |]; rewrite ?Hrp.
      * intros pg1 Hpg1. exists pg1. split; [|done].
        rewrite (frame_at_insert_ne s1 s' f _ g Hp Hf0 Hne).
        by rewrite (frame_at_pages s s1 g Hp1).
      * destruct (RecordAccess_other _ _ _ g Hr2 Hne) as [-> _].
        destruct (SetEvictable_other _ _ _ _ g Hr1 Hne) as [-> _].
        by apply Hoth1.
      * by rewrite Hs2, Hs1.
Qed.

Lemma NewPgImp_pool_ok s q o s' :
  pool_ok s → NewPgImp s = Done (q, o, s') → pool_ok s'.
Proof.
  intros Hok H. unfold BPM.NewPgImp in H. inv_bind H. destruct a as [q0 s0].
  pose proof (GetNewPage_pool_ok _ _ _ _ Hok Ha) as Hok0. simpl in H.
  case_bool_decide; [by inversion H; subst|].
  inv_bind H. by inversion H; subst.
Qed.

Lemma FetchPgImp_pool_ok s p o s' :
  pool_ok s → FetchPgImp s p = Done (o, s') → pool_ok s'.
Proof.
  intros Hok H. unfold BPM.FetchPgImp in H. inv_bind H. rename a into found.
  inv_bind H. destruct a as [q0 s0]. simpl in H.
  assert (pool_ok s0) as Hok0.
  { destruct found; [by inversion Ha0; subst|].
    by eapply GetNewPage_pool_ok. }
  case_bool_decide; [by inversion H; subst|].
  inv_bind H. inv_bind H. rename a0 into pg. inversion H; subst o s'.
  by eapply (pool_ok_store hash s0 _ pg
               (mkPage (image (disk_manager_ s0) q0) (page_id_ pg)
                       (pin_count_ pg) (is_dirty_ pg))).
Qed.

Lemma pool_step_ok s c s' :
  pool_ok s →
  pool_step BUSTUB_PAGE_SIZE INVALID_PAGE_ID hash pt_Insert s c = Done s' →
  pool_ok s'.
Proof.
  intros Hok H. destruct c; simpl in H.
  - inv_bind H. destruct a as [[q o] s0]. inversion H; subst s'.
    by eapply NewPgImp_pool_ok.
  - inv_bind H. destruct a as [o s0]. inversion H; subst s'.
    by eapply FetchPgImp_pool_ok.
  - inv_bind H. destruct a as [b s0]. inversion H; subst s'.
    by eapply UnpinPgImp_pool_ok.
  - inv_bind H. destruct a as [b s0]. inversion H; subst s'.
    by eapply FlushPgImp_pool_ok.
  - by eapply FlushAllPgsImp_pool_ok.
  - inv_bind H. destruct a as [b s0]. inversion H; subst s'.
    by eapply DeletePgImp_pool_ok.
Qed.

End PoolBinding.

Section PoolProperties.

Import BPM PoolSpec.
Local Open Scope Z_scope.

Variable BUSTUB_PAGE_SIZE : nat.
Variable INVALID_PAGE_ID : Z.
Variable hash : Z → Z.

Lemma InsertInternal_loop_map_insert fuel :
  map_insert hash (EHT.InsertInternal_loop hash fuel).
Proof. intros t k v t'. apply InsertInternal_loop_lookup. Qed.

(** With the first version of the page table, every state the manager
    reaches from its constructor (k at least 1) through public calls that
    return is one it keeps between calls: every page the page table knows is
    bound to the frame the table gives, that frame has a node in the
    replacer, and the node is evictable exactly when the pin count is 0. *)
Theorem pool_reachable fuel pool_size dm k bucket_size cs s :
  1 ≤ k →
  pool_run BUSTUB_PAGE_SIZE INVALID_PAGE_ID hash
    (EHT.InsertInternal_loop hash fuel)
    (new_instance BUSTUB_PAGE_SIZE INVALID_PAGE_ID pool_size dm k bucket_size)
    cs = Done s →
  pool_ok hash s.
Proof.
  intros Hk.
  pose proof (new_instance_pool_ok BUSTUB_PAGE_SIZE INVALID_PAGE_ID hash
                pool_size dm k bucket_size Hk) as Hinit.
  revert Hinit.
  generalize (new_instance BUSTUB_PAGE_SIZE INVALID_PAGE_ID pool_size dm k
                bucket_size) as s0.
  induction cs as [|c cs IH]; intros s0 Hok H; simpl in H.
  - by inversion H; subst.
  - inv_bind H. apply (IH a); [|done].
    eapply pool_step_ok; [| exact Hok | exact Ha].
    apply InsertInternal_loop_map_insert.
Qed.

End PoolProperties.

Section PoolWitnesses.

Import BPM PoolSpec Examples.
Local Open Scope Z_scope.

Lemma pool0_ok : pool_ok hash_id pool0.
Proof. apply new_instance_pool_ok. lia. Qed.

Lemma s_run_fetched_ok : pool_ok hash_id s_run_fetched.
Proof.
  apply (pool_step_ok 2 (-1) hash_id loop_insert
           (InsertInternal_loop_map_insert hash_id 16) pool0 (FetchPage 5)).
  - apply pool0_ok.
  - vm_compute. reflexivity.
Qed.

Lemma s_run_unpinned_ok : pool_ok hash_id s_run_unpinned.
Proof.
  apply (pool_step_ok 2 (-1) hash_id loop_insert
           (InsertInternal_loop_map_insert hash_id 16) s_run_fetched
           (UnpinPage 5 true)).
  - apply s_run_fetched_ok.
  - vm_compute. reflexivity.
Qed.

Lemma UnpinPgImp_cases_witness :
  unpin pool0 5 true = Done (false, pool0) ∧
  unpin s_dirty 5 true = Done (false, s_dirty) ∧
  ∃ r',
    unpin s_run_fetched 5 true =
      Done (true,
            mkBPM 2 (<[0%nat := mkPage [5; 5] 5 0 true]> (pages_ s_run_fetched))
              (page_table_ s_run_fetched) r' (free_list_ s_run_fetched)
              (next_page_id_ s_run_fetched) (disk_manager_ s_run_fetched)) ∧
    LRUK.find_node (replacer_ s_run_fetched) 0 = Some (LRUK.mkNode 0 1 false) ∧
    LRUK.find_node r' 0 = Some (LRUK.mkNode 0 1 true) ∧
    LRUK.Size r' = 1.
Proof.
  split; [|split].
  - apply (proj1 (UnpinPgImp_cases hash_id pool0 5 true)).
    vm_compute. reflexivity.
  - refine (proj1 (proj2 (UnpinPgImp_cases hash_id s_dirty 5 true) 0
                     (mkPage [7; 7] 5 0 true) _ _) _).
    + vm_compute. reflexivity.
    + vm_compute. reflexivity.
    + simpl. lia.
  - destruct (proj2 (proj2 (UnpinPgImp_cases hash_id s_run_fetched 5 true) 0
                       (mkPage [5; 5] 5 1 false)
                       ltac:(vm_compute; reflexivity)
                       ltac:(vm_compute; reflexivity))
                ltac:(simpl; lia)
                (pool_bound hash_id s_run_fetched s_run_fetched_ok 5 0
                   ltac:(vm_compute; reflexivity)))
      as (r' & Hr' & _ & n & Hn & _ & Hset).
    exists r'. split; [exact Hr'|].
    assert (n = LRUK.mkNode 0 1 false) as ->.
    { vm_compute in Hn. by inversion Hn. }
    split; [exact Hn|].
    destruct (decide (pin_count_ (mkPage [5; 5] 5 1 false) - 1 = 0))
      as [_|Hne]; [|by exfalso; apply Hne].
    destruct Hset as [Hnode Hsize]. split; [exact Hnode|].
    rewrite Hsize. vm_compute. reflexivity.
Defined.

Lemma DeletePgImp_cases_witness :
  delete pool0 5 = Done (true, pool0) ∧
  delete s_fetched 5 = Done (false, s_fetched) ∧
  ∃ t' r',
    delete s_run_unpinned 5 =
      Done (true,
            mkBPM 2
              (<[0%nat := mkPage [0; 0] (-1) 0 false]> (pages_ s_run_unpinned))
              t' r' [1; 0] 0 disk0_read) ∧
    EHT.Find hash_id t' 5 = Done None ∧
    LRUK.find_node r' 0 = None.
Proof.
  split; [|split].
  - apply (proj1 (DeletePgImp_cases 2 (-1) hash_id pool0 5)).
    vm_compute. reflexivity.
  - refine (proj1 (proj2 (DeletePgImp_cases 2 (-1) hash_id s_fetched 5) 0
                     (mkPage [5; 5] 5 1 false) _ _) _).
    + vm_compute. reflexivity.
    + vm_compute. reflexivity.
    + simpl. lia.
  - destruct (proj2 (proj2 (DeletePgImp_cases 2 (-1) hash_id s_run_unpinned 5)
                       0 (mkPage [5; 5] 5 0 true)
                       ltac:(vm_compute; reflexivity)
                       ltac:(vm_compute; reflexivity))
                ltac:(simpl; lia)
                (pool_bound hash_id s_run_unpinned s_run_unpinned_ok 5 0
                   ltac:(vm_compute; reflexivity))
                (pool_replacer hash_id s_run_unpinned s_run_unpinned_ok)
                (pool_items hash_id s_run_unpinned s_run_unpinned_ok))
      as (t' & r' & Hdel & Hmiss & _ & Hnone & _).
    exists t', r'. split; [exact Hdel|]. split; [exact Hmiss | exact Hnone].
Defined.

Lemma pool_reachable_witness :
  pool_ok hash_id
    (final pool0
       (pool_calls [FetchPage 5; UnpinPage 5 true; NewPage; FetchPage 6;
                    FlushPage 0; DeletePage 5; FlushAllPages; FetchPage 7])).
Proof.
  apply (pool_reachable 2 (-1) hash_id 16 2 disk0 2 2
           [FetchPage 5; UnpinPage 5 true; NewPage; FetchPage 6;
            FlushPage 0; DeletePage 5; FlushAllPages; FetchPage 7]).
  - lia.
  - vm_compute. reflexivity.
Defined.

End PoolWitnesses.
